(** * i18n-auto-injector: a shallow embedding of [src/index.js]

    The program extracts CJK text from Vue and script sources, replaces
    it with [$t('<namespace>.<text>')] calls and collects the texts in
    a per-namespace registry.  This file embeds the registry, the
    regular-expression passes over markup, the Babel visitors and the
    unit serialiser, and settles the claims C1..C10 about them. *)

From Stdlib Require Import NArith Ascii String Lia.
From stdpp Require Import base list gmap sorting.

Set Warnings "-register-all".

Local Open Scope N_scope.
Local Open Scope list_scope.

(** ** JavaScript strings

    A JavaScript string is a sequence of UTF-16 code units; the regular
    expressions of the source have no [u] flag and so work on code
    units.  Every character the source names lies in the basic plane. *)

Abbreviation jsstring := (list N).

(** The code units of an ASCII literal, and of one ASCII character. *)
Fixpoint u (s : string) : jsstring :=
  match s with
  | EmptyString => []
  | String a s' => N_of_ascii a :: u s'
  end.

Definition ch (a : ascii) : N := N_of_ascii a.

Definition DQ : N := 34.   (* the double quote character *)
Definition SQ : N := ch "'".
Definition LF : N := 10.

Definition in_range (lo hi c : N) : bool := (lo <=? c) && (c <=? hi).

(** [[\u4e00-\u9fa5]], the CJK unified ideographs the program targets. *)
Definition zh (c : N) : bool := in_range 0x4e00 0x9fa5 c.

(** [\s] and the characters [String.prototype.trim] strips: WhiteSpace
    and LineTerminator of ECMAScript. *)
Definition ws (c : N) : bool :=
  in_range 0x09 0x0d c || (c =? 0x20) || (c =? 0xa0) || (c =? 0x1680)
  || in_range 0x2000 0x200a c || (c =? 0x2028) || (c =? 0x2029)
  || (c =? 0x202f) || (c =? 0x205f) || (c =? 0x3000) || (c =? 0xfeff).

(** [.] without the [s] flag: anything but a line terminator. *)
Definition dot (c : N) : bool :=
  negb ((c =? 0x0a) || (c =? 0x0d) || (c =? 0x2028) || (c =? 0x2029)).

Definition one_of (l : jsstring) (c : N) : bool := existsb (N.eqb c) l.
Definition none_of (l : jsstring) (c : N) : bool := negb (one_of l c).

Fixpoint jseqb (a b : jsstring) : bool :=
  match a, b with
  | [], [] => true
  | x :: a', y :: b' => (x =? y) && jseqb a' b'
  | _, _ => false
  end.

Fixpoint startsWith (s p : jsstring) : bool :=
  match p, s with
  | [], _ => true
  | y :: p', x :: s' => (x =? y) && startsWith s' p'
  | _ :: _, [] => false
  end.

Fixpoint includes (s p : jsstring) : bool :=
  startsWith s p ||
  match s with
  | [] => false
  | _ :: s' => includes s' p
  end.

Fixpoint trimStart (s : jsstring) : jsstring :=
  match s with
  | c :: s' => if ws c then trimStart s' else s
  | [] => []
  end.

Definition trimEnd (s : jsstring) : jsstring := rev (trimStart (rev s)).
Definition trim (s : jsstring) : jsstring := trimEnd (trimStart s).

(** [Array.prototype.join] on strings. *)
Fixpoint join (sep : jsstring) (l : list jsstring) : jsstring :=
  match l with
  | [] => []
  | [x] => x
  | x :: l' => x ++ sep ++ join sep l'
  end.

(** [.filter(Boolean)] on an array of strings drops the empty ones. *)
Definition filter_Boolean (l : list jsstring) : list jsstring :=
  List.filter (fun s => negb (jseqb s [])) l.

(** ** Regular expressions

    A backtracking matcher in continuation-passing style, with the
    priorities of ECMAScript: a greedy quantifier tries the longest
    repetition first, a lazy one the shortest, and the first success
    wins.  Every quantifier of the source ranges over a single
    character class, so [Star] and [LazyStar] take a class. *)

Inductive regex :=
| Chr (a : N)                    (* a literal character *)
| Cls (p : N -> bool)            (* a character class, [.], [\s] *)
| Star (p : N -> bool)           (* [class*] *)
| LazyStar (p : N -> bool)       (* [class*?] *)
| Seq (r1 r2 : regex)
| Grp (i : nat) (r : regex)      (* capturing group number [i] *)
| Ref (i : nat)                  (* backreference [\i] *)
| Eol.                           (* [$] *)

Infix "~~" := Seq (at level 60, right associativity).

(** [class+] *)
Definition Plus (p : N -> bool) : regex := Cls p ~~ Star p.

Definition captures := list (nat * jsstring).

Fixpoint get_cap (c : captures) (i : nat) : option jsstring :=
  match c with
  | [] => None
  | (j, t) :: c' => if Nat.eqb i j then Some t else get_cap c' i
  end.

(** A group that did not take part in the match reads as [undefined];
    every group of the source takes part in every match, the default
    is never seen. *)
Definition group (c : captures) (i : nat) : jsstring :=
  match get_cap c i with Some t => t | None => [] end.

(** A continuation receives the rest of the input and the captures; a
    match result is the length of the match with the captures. *)
Definition cont := jsstring -> captures -> option (nat * captures).

Fixpoint star_greedy (p : N -> bool) (k : cont)
    (s : jsstring) (c : captures) : option (nat * captures) :=
  match s with
  | x :: s' =>
      if p x then
        match star_greedy p k s' c with
        | Some r => Some r
        | None => k s c
        end
      else k s c
  | [] => k s c
  end.

Fixpoint star_lazy (p : N -> bool) (k : cont)
    (s : jsstring) (c : captures) : option (nat * captures) :=
  match k s c with
  | Some r => Some r
  | None =>
      match s with
      | x :: s' => if p x then star_lazy p k s' c else None
      | [] => None
      end
  end.

Fixpoint rmatch (r : regex) (k : cont)
    (s : jsstring) (c : captures) : option (nat * captures) :=
  match r with
  | Chr a =>
      match s with
      | x :: s' => if x =? a then k s' c else None
      | [] => None
      end
  | Cls p =>
      match s with
      | x :: s' => if p x then k s' c else None
      | [] => None
      end
  | Star p => star_greedy p k s c
  | LazyStar p => star_lazy p k s c
  | Seq r1 r2 => rmatch r1 (rmatch r2 k) s c
  | Grp i r1 =>
      rmatch r1
        (fun s' c' => k s' ((i, firstn (length s - length s') s) :: c'))
        s c
  | Ref i =>
      match get_cap c i with
      | Some t => if startsWith s t then k (skipn (length t) s) c else None
      | None => k s c
      end
  | Eol => match s with [] => k s c | _ :: _ => None end
  end.

(** One attempt at the start of [s]: the length of the match and its
    captures. *)
Definition exec_at (r : regex) (s : jsstring) : option (nat * captures) :=
  rmatch r (fun s' c' => Some ((length s - length s')%nat, c')) s [].

(** [regex.test(s)] for a regex without the [g] flag: an attempt at
    each position, from the left. *)
Fixpoint test (r : regex) (s : jsstring) : bool :=
  match exec_at r s with
  | Some _ => true
  | None =>
      match s with
      | [] => false
      | _ :: s' => test r s'
      end
  end.

(** [test] for a regex that starts with [^]: the anchor holds at
    position 0 only, which leaves one attempt. *)
Definition test_anchored (r : regex) (s : jsstring) : bool :=
  match exec_at r s with Some _ => true | None => false end.

(** [s.replace(regex /g, callback)], the callback threading a state.
    The scan is structural on the input: [skip] counts the characters
    still covered by the last match. *)
Section Replace.
Context {St : Type}.
Variable r : regex.
Variable f : jsstring -> captures -> St -> jsstring * St.

Fixpoint replace_from (s : jsstring) (skip : nat) (st : St)
  : jsstring * St :=
  match s with
  | [] =>
      match skip, exec_at r [] with
      | O, Some (_, c) => f [] c st
      | _, _ => ([], st)
      end
  | x :: s' =>
      match skip with
      | S n => replace_from s' n st
      | O =>
          match exec_at r s with
          | Some (len, c) =>
              let '(rep, st1) := f (firstn len s) c st in
              match len with
              | O =>
                  let '(out, st2) := replace_from s' 0 st1 in
                  (rep ++ x :: out, st2)
              | S n =>
                  let '(out, st2) := replace_from s' n st1 in
                  (rep ++ out, st2)
              end
          | None =>
              let '(out, st1) := replace_from s' 0 st in
              (x :: out, st1)
          end
      end
  end.

Definition replace_all (s : jsstring) (st : St) : jsstring * St :=
  replace_from s 0 st.
End Replace.

(** [s.split(regex)] for a regex with capture groups [1..ngroups]: the
    pieces between the matches, each match contributing its groups. *)
Section Split.
Variable r : regex.
Variable ngroups : nat.

Definition groups_of (c : captures) : list jsstring :=
  map (fun i => group c (S i)) (seq 0 ngroups).

Fixpoint split_from (s : jsstring) (skip : nat) (cur : jsstring)
  : list jsstring :=
  match s with
  | [] => [cur]
  | x :: s' =>
      match skip with
      | S n => split_from s' n cur
      | O =>
          match exec_at r s with
          | Some (S n, c) => cur :: groups_of c ++ split_from s' n []
          | Some (O, c) =>
              match cur with
              | [] => split_from s' 0 [x]
              | _ :: _ => cur :: groups_of c ++ split_from s' 0 [x]
              end
          | None => split_from s' 0 (cur ++ [x])
          end
      end
  end.

Definition split_by (s : jsstring) : list jsstring :=
  match s with
  | [] => match exec_at r [] with Some _ => [] | None => [[]] end
  | _ :: _ => split_from s 0 []
  end.
End Split.

(** The regular expressions of the source.  In the comments DQ stands
    for the double quote character, and a blank separates a star from
    a closing parenthesis. *)

(** [/[\u4e00-\u9fa5]+/] *)
Definition zhReg : regex := Plus zh.

Definition name_char (c : N) : bool :=
  in_range (ch "a") (ch "z") c || in_range (ch "A") (ch "Z") c
  || in_range (ch "0") (ch "9") c
  || (c =? ch "-") || (c =? ch "_") || (c =? ch ":").

(** [/(\s)([a-zA-Z0-9\-_:]+)=DQ([^DQ]*[\u4e00-\u9fa5]+[^DQ]* )DQ/g] *)
Definition attrReg : regex :=
  Grp 1 (Cls ws) ~~ Grp 2 (Plus name_char) ~~ Chr (ch "=") ~~ Chr DQ ~~
  Grp 3 (Star (none_of [DQ]) ~~ Plus zh ~~ Star (none_of [DQ])) ~~ Chr DQ.

(** [/\$t\(['DQ][^'DQ]+['DQ]\)/] *)
Definition tCallReg : regex :=
  Chr (ch "$") ~~ Chr (ch "t") ~~ Chr (ch "(") ~~ Cls (one_of [SQ; DQ]) ~~
  Plus (none_of [SQ; DQ]) ~~ Cls (one_of [SQ; DQ]) ~~ Chr (ch ")").

(** [/>([^<]* )</g] *)
Definition tagTextReg : regex :=
  Chr (ch ">") ~~ Grp 1 (Star (none_of [ch "<"])) ~~ Chr (ch "<").

(** [/<!--.*-->/] *)
Definition commentReg : regex :=
  Chr (ch "<") ~~ Chr (ch "!") ~~ Chr (ch "-") ~~ Chr (ch "-") ~~ Star dot ~~
  Chr (ch "-") ~~ Chr (ch "-") ~~ Chr (ch ">").

(** [/^\s*$/], used through [test_anchored]. *)
Definition blankReg : regex := Star ws ~~ Eol.

(** [/({{.*?}})/g] *)
Definition mustacheSplitReg : regex :=
  Grp 1 (Chr (ch "{") ~~ Chr (ch "{") ~~ LazyStar dot ~~
         Chr (ch "}") ~~ Chr (ch "}")).

(** [/{{([^{}]* )}}/g] *)
Definition mustacheReg : regex :=
  Chr (ch "{") ~~ Chr (ch "{") ~~
  Grp 1 (Star (none_of [ch "{"; ch "}"])) ~~
  Chr (ch "}") ~~ Chr (ch "}").

(** [/(['DQ])([\u4e00-\u9fa5][^'DQ]* )\1/g] *)
Definition quotedZhReg : regex :=
  Grp 1 (Cls (one_of [SQ; DQ])) ~~
  Grp 2 (Cls zh ~~ Star (none_of [SQ; DQ])) ~~ Ref 1.

(** [/([\u4e00-\u9fa5\uff1a:\uff0c,\u3002\uff01!]+)/g]: the class holds
    the CJK range, the ASCII colon, comma and exclamation mark and
    their full-width forms, and the ideographic full stop. *)
Definition zh_punct (c : N) : bool :=
  zh c || one_of [0xff1a; ch ":"; 0xff0c; ch ","; 0x3002; 0xff01; ch "!"] c.

Definition zhPunctReg : regex := Grp 1 (Plus zh_punct).

(** [/([\u4e00-\u9fa5]+)/], the argument of [split] in the script
    rewriter. *)
Definition zhSplitReg : regex := Grp 1 (Plus zh).

(** ** Plain JavaScript objects

    [localeMap] and its values are plain objects used as maps.  An
    object is modelled by its own properties in creation order;
    assigning to an existing key keeps its place.  Reading [o[k]] also
    sees what a plain object inherits from [Object.prototype]. *)

Definition jsobject (V : Type) := list (jsstring * V).

Section Objects.
Context {V : Type}.

Fixpoint own_get (o : jsobject V) (k : jsstring) : option V :=
  match o with
  | [] => None
  | (k', v) :: o' => if jseqb k k' then Some v else own_get o' k
  end.

(** [o[k] = v] *)
Fixpoint obj_set (o : jsobject V) (k : jsstring) (v : V) : jsobject V :=
  match o with
  | [] => [(k, v)]
  | (k', v') :: o' =>
      if jseqb k k' then (k', v) :: o' else (k', v') :: obj_set o' k v
  end.

Definition own_keys (o : jsobject V) : list jsstring := map fst o.
End Objects.

(** The property names every plain object inherits. *)
Definition Object_prototype_names : list jsstring :=
  map u [ "constructor"; "__defineGetter__"; "__defineSetter__";
          "hasOwnProperty"; "__lookupGetter__"; "__lookupSetter__";
          "isPrototypeOf"; "propertyIsEnumerable"; "toString"; "valueOf";
          "__proto__"; "toLocaleString" ]%string.

Definition inherited (k : jsstring) : bool :=
  existsb (jseqb k) Object_prototype_names.

(** An array index is the canonical decimal form of an integer below
    2^32 - 1.  [Object.keys], [Object.entries] and [JSON.stringify] list
    the array-index keys first, in ascending numeric order, and then the
    other keys in creation order. *)
Definition digit (c : N) : bool := in_range (ch "0") (ch "9") c.

Definition decimal_value (s : jsstring) : N :=
  fold_left (fun acc c => 10 * acc + (c - ch "0")) s 0.

Definition is_array_index (s : jsstring) : bool :=
  match s with
  | [] => false
  | c :: s' =>
      forallb digit s
      && (negb (c =? ch "0") || jseqb s' [])
      && (decimal_value s <? 4294967295)
  end.

Section Enumeration.
Context {V : Type}.

Fixpoint insert_index (e : jsstring * V) (l : jsobject V) : jsobject V :=
  match l with
  | [] => [e]
  | e' :: l' =>
      if decimal_value (fst e) <=? decimal_value (fst e')
      then e :: l
      else e' :: insert_index e l'
  end.

Definition sort_index (l : jsobject V) : jsobject V :=
  fold_right insert_index [] l.

(** [Object.entries(o)] *)
Definition Object_entries (o : jsobject V) : list (jsstring * V) :=
  sort_index (List.filter (fun e => is_array_index (fst e)) o)
  ++ List.filter (fun e => negb (is_array_index (fst e))) o.

(** [Object.keys(o)] *)
Definition Object_keys (o : jsobject V) : list jsstring :=
  map fst (Object_entries o).
End Enumeration.

(** ** [Array.prototype.sort] with the default comparison

    The default order compares strings by UTF-16 code units. *)

Fixpoint js_ltb (a b : jsstring) : bool :=
  match a, b with
  | _, [] => false
  | [], _ :: _ => true
  | x :: a', y :: b' => (x <? y) || ((x =? y) && js_ltb a' b')
  end.

Definition js_leb (a b : jsstring) : bool := negb (js_ltb b a).

Fixpoint sort_insert (k : jsstring) (l : list jsstring) : list jsstring :=
  match l with
  | [] => [k]
  | k' :: l' => if js_leb k k' then k :: l else k' :: sort_insert k l'
  end.

Definition Array_sort (l : list jsstring) : list jsstring :=
  fold_right sort_insert [] l.

(** ** JSON documents, as [JSON.stringify] lays them out *)

Inductive json :=
| JString (s : jsstring)
| JObject (members : list (jsstring * json)).

Definition json_of_table (o : jsobject jsstring) : json :=
  JObject (map (fun e => (fst e, JString (snd e))) (Object_entries o)).

(** ** The Babel interface

    The syntax tree as far as the source inspects it.  [Other] stands
    for every node type the source never names. *)

(** A quasi: [raw] and [cooked] as the parser gives them, or as the
    source hands them to [t.templateElement]; the source reads [raw]
    only. *)
Record TemplateElement := templateElement {
  raw : jsstring;
  cooked : jsstring;
  tail : bool
}.

Inductive node :=
| Identifier (name : jsstring)
| StringLiteral (value : jsstring)
| CallExpression (callee : node) (arguments : list node)
| TemplateLiteral (quasis : list TemplateElement) (expressions : list node)
    (i18nTransformed : bool)
| JSXText (value : jsstring)
| JSXExpressionContainer (expression : node)
| VariableDeclaration (declarations : list node)
| VariableDeclarator (id : node) (init : node)
| Program (body : list node)
| File (program : node)
| Other (type : jsstring) (children : list node).

Record NodePath := { path_node : node; path_parent : option node }.

(** What a visitor did to the node it was called on; [Throw] when it
    threw, which ends the traversal. *)
Inductive action :=
| NoChange
| ReplaceWith (n : node)
| ReplaceWithMultiple (ns : list node)
| Throw.

(** [t.templateLiteral(quasis, expressions)]: the builder checks the
    node it makes and throws a [TypeError] unless there is exactly one
    quasi more than there are expressions. *)
Definition templateLiteral (quasis : list TemplateElement)
    (expressions : list node) : option node :=
  if (length quasis =? S (length expressions))%nat
  then Some (TemplateLiteral quasis expressions false)
  else None.

Inductive plugin := typescript | jsx.

(** ** The state of a run: the registry and the console *)

Definition registry := jsobject (jsobject jsstring).

Inductive console_line :=
| warn_conversion_failed (expression : jsstring)
| warn_error.

Record state := {
  localeMap : registry;
  console : list console_line
}.

Definition with_localeMap (st : state) (m : registry) : state :=
  {| localeMap := m; console := console st |}.

Definition console_warn (st : state) (l : list console_line) : state :=
  {| localeMap := localeMap st; console := console st ++ l |}.

Record Visitor := {
  visit_StringLiteral : NodePath -> state -> action * state;
  visit_TemplateLiteral : NodePath -> state -> action * state;
  visit_JSXText : NodePath -> state -> action * state
}.

Definition no_visit (p : NodePath) (st : state) : action * state :=
  (NoChange, st).

(** The Vue single-file-component descriptor as far as the source reads
    it. *)
Record SFCBlock := {
  content : jsstring;
  attrs : list (jsstring * option jsstring);
  lang : option jsstring;
  scoped : bool
}.

Record SFCDescriptor := {
  template : option SFCBlock;
  script : option SFCBlock;
  scriptSetup : option SFCBlock;
  styles : list SFCBlock
}.

(** [array.map(callback)] with a callback that changes the state. *)
Fixpoint map_st {A B St : Type} (f : A -> St -> B * St) (l : list A) (st : St)
  : list B * St :=
  match l with
  | [] => ([], st)
  | a :: l' =>
      let '(b, st1) := f a st in
      let '(bs, st2) := map_st f l' st1 in
      (b :: bs, st2)
  end.

(** ** The program

    [commonWords] is the set read from [common.json] at start-up, given
    by the list of its members.  [parse], [traverse] and [generate] are
    Babel's, [parseSFC] is Vue's: [None] stands for a thrown exception,
    and [traverse] hands back the state its visitors reached. *)

Section Program.
Variable commonWords : list jsstring.
Variable parse : list plugin -> jsstring -> option node.
Variable traverse : Visitor -> node -> state -> option node * state.
(** The flag is [jsescOption.quotes = single]. *)
Variable generate : bool -> node -> option jsstring.
Variable parseSFC : jsstring -> SFCDescriptor.

Definition commonWords_has (text : jsstring) : bool :=
  existsb (jseqb text) commonWords.

(** *** The registry: [addLocale], [getTCallExpression] *)

Definition targetModule (moduleName text : jsstring) : jsstring :=
  if commonWords_has text then u "common" else moduleName.

(** [!localeMap[targetModule][text]] is false when the table holds a
    non-empty value for [text] or a plain object inherits [text]. *)
Definition table_has (table : jsobject jsstring) (text : jsstring) : bool :=
  inherited text ||
  match own_get table text with
  | Some v => negb (jseqb v [])
  | None => false
  end.

(** [!localeMap[targetModule]] is false when the registry has the
    key or a plain object inherits it. *)
Definition registry_has (localeMap : registry) (k : jsstring) : bool :=
  inherited k ||
  match own_get localeMap k with Some _ => true | None => false end.

(** The two [if]s of the source.  When [targetModule] names an
    inherited property, [localeMap[targetModule]] is the inherited
    value: no table is created and the write lands outside the
    registry, which stays as it is.  With [__proto__] the write lands
    on [Object.prototype] and every later read would see it; the
    model does not follow that, and the statements about runs keep
    inherited names out of the namespaces. *)
Definition addLocale (moduleName text : jsstring) (localeMap : registry)
  : registry :=
  let targetModule := targetModule moduleName text in
  let localeMap :=
    if negb (registry_has localeMap targetModule)
    then obj_set localeMap targetModule []
    else localeMap in
  match own_get localeMap targetModule with
  | Some table =>
      if negb (table_has table text)
      then obj_set localeMap targetModule (obj_set table text text)
      else localeMap
  | None => localeMap
  end.

Definition addLocale_st (moduleName text : jsstring) (st : state) : state :=
  with_localeMap st (addLocale moduleName text (localeMap st)).

(** The key [`${targetModule}.${text}`] of [getTCallExpression]; the
    passes over markup write it out as
    [commonWords.has(text) ? `common.${text}` : `${moduleName}.${text}`]. *)
Definition translationKey (moduleName text : jsstring) : jsstring :=
  targetModule moduleName text ++ u "." ++ text.

Definition getTCallExpression (text moduleName : jsstring) : node :=
  CallExpression (Identifier (u "$t"))
    [StringLiteral (translationKey moduleName text)].

(** *** [writeLocaleFiles]: one document per namespace *)

Definition sorted_table (map : jsobject jsstring) : jsobject jsstring :=
  fold_left
    (fun acc key =>
       if jseqb key (u "__proto__") then acc
       else obj_set acc key
              (match own_get map key with Some v => v | None => [] end))
    (Array_sort (Object_keys map)) [].

(** The file name and the document [{ [moduleName]: sorted }]. *)
Definition writeLocaleFiles (localeMap : registry)
  : list (jsstring * json) :=
  map (fun e =>
         (fst e ++ u ".json",
          JObject [(fst e, json_of_table (sorted_table (snd e)))]))
      (Object_entries localeMap).

(** *** [transformBindingExpression] *)

Definition is_t_call (parent : option node) : bool :=
  match parent with
  | Some (CallExpression (Identifier name) _) => jseqb name (u "$t")
  | _ => false
  end.

Definition bindingVisitor (moduleName : jsstring) : Visitor := {|
  visit_StringLiteral := fun path st =>
    match path_node path with
    | StringLiteral value =>
        let isInsideTCall := is_t_call (path_parent path) in
        if negb isInsideTCall && test zhReg value then
          let value := trim value in
          (ReplaceWith (getTCallExpression value moduleName),
           addLocale_st moduleName value st)
        else (NoChange, st)
    | _ => (NoChange, st)
    end;
  visit_TemplateLiteral := no_visit;
  visit_JSXText := no_visit
|}.

Definition zhPunctCallback (moduleName : jsstring)
    (zhText : jsstring) (_ : captures) (st : state) : jsstring * state :=
  let text := trim zhText in
  if jseqb text [] then (zhText, st)
  else
    (u "${$t('" ++ translationKey moduleName text ++ u "')}",
     addLocale_st moduleName text st).

Definition catch_warn (expression : jsstring) (st : state)
  : jsstring * state :=
  (expression,
   console_warn st [warn_conversion_failed expression; warn_error]).

Definition transformBindingExpression (expression moduleName : jsstring)
    (st : state) : jsstring * state :=
  let fakeCode := u "const __temp = " ++ expression ++ u ";" in
  match parse [typescript] fakeCode with
  | None => catch_warn expression st
  | Some ast =>
      match traverse (bindingVisitor moduleName) ast st with
      | (None, st1) => catch_warn expression st1
      | (Some ast1, st1) =>
          match ast1 with
          | File (Program
              (VariableDeclaration (VariableDeclarator _ expr :: _) :: _)) =>
              match generate true expr with
              | None => catch_warn expression st1
              | Some code =>
                  if includes code (u "$t(") then (code, st1)
                  else replace_all zhPunctReg (zhPunctCallback moduleName)
                         code st1
              end
          | _ => (expression, st1)
          end
      end
  end.

(** *** [transformTemplate]: four passes over the template text *)

Definition attrCallback (moduleName : jsstring)
    (match_ : jsstring) (c : captures) (st : state) : jsstring * state :=
  let prefixSpace := group c 1 in
  let attrName := group c 2 in
  let attrValue := group c 3 in
  let text := trim attrValue in
  if jseqb text [] then (match_, st)
  else
    let isDynamic :=
      startsWith attrName (u ":") || startsWith attrName (u "v-bind") in
    if isDynamic then
      if test tCallReg attrValue then (match_, st)
      else
        let '(newExpr, st1) :=
          transformBindingExpression attrValue moduleName st in
        (prefixSpace ++ attrName ++ u "=" ++ [DQ] ++ newExpr ++ [DQ], st1)
    else
      (prefixSpace ++ u ":" ++ attrName ++ u "=" ++ [DQ] ++ u "$t('"
         ++ translationKey moduleName text ++ u "')" ++ [DQ],
       addLocale_st moduleName text st).

Definition attributePass (moduleName template : jsstring) (st : state)
  : jsstring * state :=
  replace_all attrReg (attrCallback moduleName) template st.

Definition zhRunCallback (moduleName : jsstring)
    (zh : jsstring) (_ : captures) (st : state) : jsstring * state :=
  (u "{{ $t('" ++ translationKey moduleName zh ++ u "') }}",
   addLocale_st moduleName zh st).

Definition tagTextCallback (moduleName : jsstring)
    (match_ : jsstring) (c : captures) (st : state) : jsstring * state :=
  let raw := group c 1 in
  if test commentReg raw || negb (test zhReg raw)
     || test_anchored blankReg raw
     || includes raw (u "$t(")
  then (match_, st)
  else
    let parts := filter_Boolean (split_by mustacheSplitReg 1 raw) in
    let '(transformed, st1) :=
      map_st (fun part st =>
                if startsWith part (u "{{") then (part, st)
                else replace_all zhReg (zhRunCallback moduleName) part st)
             parts st in
    (u ">" ++ join [] transformed ++ u "<", st1).

Definition tagTextPass (moduleName template : jsstring) (st : state)
  : jsstring * state :=
  replace_all tagTextReg (tagTextCallback moduleName) template st.

Definition quotedZhCallback (moduleName : jsstring)
    (m : jsstring) (c : captures) (st : state) : jsstring * state :=
  let zhText := group c 2 in
  (u "$t('" ++ translationKey moduleName zhText ++ u "')",
   addLocale_st moduleName zhText st).

Definition mustacheCallback (moduleName : jsstring)
    (match_ : jsstring) (c : captures) (st : state) : jsstring * state :=
  let expression := group c 1 in
  let '(replaced, st1) :=
    replace_all quotedZhReg (quotedZhCallback moduleName) expression st in
  (u "{{" ++ replaced ++ u "}}", st1).

Definition interpolationPass (moduleName template : jsstring) (st : state)
  : jsstring * state :=
  replace_all mustacheReg (mustacheCallback moduleName) template st.

Definition transformTemplate (template moduleName : jsstring) (st : state)
  : jsstring * state :=
  let '(template, st) := attributePass moduleName template st in
  let '(template, st) := tagTextPass moduleName template st in
  let '(template, st) := interpolationPass moduleName template st in
  tagTextPass moduleName template st.

(** *** [transformScript]: the three visitors *)

Definition scriptStringLiteral (moduleName : jsstring)
    (path : NodePath) (st : state) : action * state :=
  match path_node path with
  | StringLiteral value =>
      if is_t_call (path_parent path) then (NoChange, st)
      else if test zhReg value then
        let text := trim value in
        (ReplaceWith (getTCallExpression text moduleName),
         addLocale_st moduleName text st)
      else (NoChange, st)
  | _ => (NoChange, st)
  end.

(** The variables the [TemplateLiteral] visitor updates while it
    walks the quasis. *)
Record literal_acc := {
  newQuasis : list TemplateElement;
  newExpressions : list node;
  pendingQuasi : jsstring;
  acc_state : state
}.

Definition emptyQuasi : TemplateElement := templateElement [] [] false.

Definition flushPendingQuasi (a : literal_acc) : literal_acc :=
  if negb (jseqb (pendingQuasi a) []) then
    {| newQuasis :=
         newQuasis a
         ++ [templateElement (pendingQuasi a) (pendingQuasi a) false];
       newExpressions := newExpressions a;
       pendingQuasi := [];
       acc_state := acc_state a |}
  else a.

(** The body of [segments.forEach]. *)
Definition segmentStep (moduleName : jsstring)
    (a : literal_acc) (segment : jsstring) : literal_acc :=
  if test zhReg segment then
    let a := flushPendingQuasi a in
    {| newQuasis := newQuasis a ++ [emptyQuasi];
       newExpressions :=
         newExpressions a ++ [getTCallExpression segment moduleName];
       pendingQuasi := pendingQuasi a;
       acc_state := addLocale_st moduleName segment (acc_state a) |}
  else
    {| newQuasis := newQuasis a;
       newExpressions := newExpressions a;
       pendingQuasi := pendingQuasi a ++ segment;
       acc_state := acc_state a |}.

(** The [for] loop: [quasis] and [expressions] from index [i] on. *)
Fixpoint quasiLoop (moduleName : jsstring)
    (quasis : list TemplateElement) (expressions : list node)
    (a : literal_acc) : literal_acc :=
  match quasis with
  | [] => a
  | quasi :: quasis' =>
      let text := raw quasi in
      let segments := filter_Boolean (split_by zhSplitReg 1 text) in
      let a := fold_left (segmentStep moduleName) segments a in
      let a := flushPendingQuasi a in
      match expressions with
      | e :: expressions' =>
          quasiLoop moduleName quasis' expressions'
            {| newQuasis := newQuasis a ++ [emptyQuasi];
               newExpressions := newExpressions a ++ [e];
               pendingQuasi := pendingQuasi a;
               acc_state := acc_state a |}
      | [] => quasiLoop moduleName quasis' [] a
      end
  end.

(** The last quasi becomes the tail. *)
Definition markTail (qs : list TemplateElement) : list TemplateElement :=
  match rev qs with
  | [] => []
  | last :: front =>
      rev front ++ [templateElement (raw last) (cooked last) true]
  end.

(** [while (newQuasis.length <= newExpressions.length) push]: the
    loop adds quasis until there is one more than expressions, and
    none when there already are more. *)
Definition padQuasis (qs : list TemplateElement) (es : list node)
  : list TemplateElement :=
  qs ++ repeat emptyQuasi (S (length es) - length qs).

Definition rewriteTemplateLiteral (moduleName : jsstring)
    (quasis : list TemplateElement) (expressions : list node) (st : state)
  : list TemplateElement * list node * state :=
  let a :=
    quasiLoop moduleName quasis expressions
      {| newQuasis := []; newExpressions := [];
         pendingQuasi := []; acc_state := st |} in
  (padQuasis (markTail (newQuasis a)) (newExpressions a),
   newExpressions a, acc_state a).

Definition scriptTemplateLiteral (moduleName : jsstring)
    (path : NodePath) (st : state) : action * state :=
  match path_node path with
  | TemplateLiteral quasis expressions i18nTransformed =>
      if i18nTransformed then (NoChange, st)
      else
        let hasChinese := existsb (fun q => test zhReg (raw q)) quasis in
        if negb hasChinese then (NoChange, st)
        else
          let '(qs, es, st1) :=
            rewriteTemplateLiteral moduleName quasis expressions st in
          match templateLiteral qs es with
          | Some (TemplateLiteral qs es _) =>
              (ReplaceWith (TemplateLiteral qs es true), st1)
          | _ => (Throw, st1)
          end
  | _ => (NoChange, st)
  end.

Definition jsxPart (moduleName : jsstring) (part : jsstring) (st : state)
  : node * state :=
  if test zhReg part then
    let text := trim part in
    (JSXExpressionContainer (getTCallExpression text moduleName),
     addLocale_st moduleName text st)
  else (JSXText part, st).

Definition scriptJSXText (moduleName : jsstring)
    (path : NodePath) (st : state) : action * state :=
  match path_node path with
  | JSXText raw =>
      if negb (test zhReg raw) then (NoChange, st)
      else
        let parts := filter_Boolean (split_by zhSplitReg 1 raw) in
        let '(nodes, st1) := map_st (jsxPart moduleName) parts st in
        (ReplaceWithMultiple nodes, st1)
  | _ => (NoChange, st)
  end.

Definition scriptVisitor (moduleName : jsstring) : Visitor := {|
  visit_StringLiteral := scriptStringLiteral moduleName;
  visit_TemplateLiteral := scriptTemplateLiteral moduleName;
  visit_JSXText := scriptJSXText moduleName
|}.

(** No [try] here: an exception of Babel leaves the function. *)
Definition transformScript (script moduleName : jsstring) (st : state)
  : option jsstring * state :=
  match parse [typescript; jsx] script with
  | None => (None, st)
  | Some ast =>
      match traverse (scriptVisitor moduleName) ast st with
      | (None, st1) => (None, st1)
      | (Some ast1, st1) => (generate false ast1, st1)
      end
  end.

(** *** [processVueFile], [processTsFile]

    The functions read [srcPath] and write [outPath]; the model maps
    the text read to the text written. *)

Definition styleRegion (style : SFCBlock) : jsstring :=
  u "<style" ++ (if scoped style then u " scoped" else [])
  ++ match lang style with
     | Some l =>
         if jseqb l [] then []
         else u " lang=" ++ [DQ] ++ l ++ [DQ]
     | None => []
     end
  ++ u ">" ++ [LF] ++ content style ++ [LF] ++ u "</style>".

Definition newContent (newScript newTemplate : jsstring)
    (styles : list SFCBlock) : jsstring :=
  trim
    ([LF] ++ u "<script setup lang=" ++ [DQ] ++ u "ts" ++ [DQ] ++ u ">"
     ++ [LF] ++ newScript ++ [LF] ++ u "</script>" ++ [LF]
     ++ u "<template>" ++ [LF] ++ newTemplate ++ [LF] ++ u "</template>"
     ++ [LF] ++ join [LF] (map styleRegion styles) ++ [LF]).

Definition block_content (b : option SFCBlock) : jsstring :=
  match b with Some b => content b | None => [] end.

Definition processVueFile (fileContent moduleName : jsstring) (st : state)
  : option jsstring * state :=
  let descriptor := parseSFC fileContent in
  let template := block_content (template descriptor) in
  let script := block_content (scriptSetup descriptor) in
  let styles := styles descriptor in
  let '(newTemplate, st1) :=
    if negb (jseqb template [])
    then transformTemplate template moduleName st
    else ([], st) in
  let '(newScript, st2) :=
    if negb (jseqb script [])
    then transformScript script moduleName st1
    else (Some [], st1) in
  match newScript with
  | None => (None, st2)
  | Some newScript => (Some (newContent newScript newTemplate styles), st2)
  end.

Definition processTsFile (code moduleName : jsstring) (st : state)
  : option jsstring * state :=
  transformScript code moduleName st.
End Program.

(** ** [JSON.stringify(value, null, 2)]

    The text of a document: [QuoteJSONString] for keys and strings,
    and the layout of [SerializeJSONObject] with a gap of two
    blanks. *)

Definition hex_digit (n : N) : N :=
  if n <? 10 then ch "0" + n else ch "a" + (n - 10).

(** [\uXXXX], in lower-case digits. *)
Definition unicode_escape (c : N) : jsstring :=
  [92; ch "u"; hex_digit (c / 4096 mod 16); hex_digit (c / 256 mod 16);
   hex_digit (c / 16 mod 16); hex_digit (c mod 16)].

Definition high_surrogate (c : N) : bool := in_range 0xd800 0xdbff c.
Definition low_surrogate (c : N) : bool := in_range 0xdc00 0xdfff c.

(** One code unit that is no part of a surrogate pair. *)
Definition quote_unit (c : N) : jsstring :=
  if c =? 8 then [92; ch "b"]
  else if c =? 9 then [92; ch "t"]
  else if c =? 10 then [92; ch "n"]
  else if c =? 12 then [92; ch "f"]
  else if c =? 13 then [92; ch "r"]
  else if c =? DQ then [92; DQ]
  else if c =? 92 then [92; 92]
  else if (c <? 32) || high_surrogate c || low_surrogate c
       then unicode_escape c
  else [c].

Fixpoint quote_units (s : jsstring) : jsstring :=
  match s with
  | [] => []
  | c :: s' =>
      match s' with
      | d :: s'' =>
          if high_surrogate c && low_surrogate d
          then c :: d :: quote_units s''
          else quote_unit c ++ quote_units s'
      | [] => quote_unit c
      end
  end.

Definition QuoteJSONString (s : jsstring) : jsstring :=
  [DQ] ++ quote_units s ++ [DQ].

Definition gap : jsstring := u "  ".

Fixpoint SerializeJSON (indent : jsstring) (v : json) : jsstring :=
  match v with
  | JString s => QuoteJSONString s
  | JObject members =>
      let stepback := indent in
      let indent := indent ++ gap in
      match members with
      | [] => u "{}"
      | _ :: _ =>
          u "{" ++ [LF] ++ indent
          ++ join (u "," ++ [LF] ++ indent)
               (map (fun e =>
                       QuoteJSONString (fst e) ++ u ": "
                       ++ SerializeJSON indent (snd e))
                  members)
          ++ [LF] ++ stepback ++ u "}"
      end
  end.

Definition JSON_stringify (v : json) : jsstring := SerializeJSON [] v.

(** ** The file tree and what a run does to it

    A path is given by its segments.  A directory is read as the list
    of its entries, in the order of [fs.readdir]; an entry is a
    regular file with its text, a directory, or something else (a
    symbolic link, a socket).  The calls to the file system are taken
    to succeed. *)

Definition path := list jsstring.

Inductive Dirent :=
| RegularFile (name : jsstring) (text : jsstring)
| Directory (name : jsstring) (entries : list Dirent)
| OtherEntry (name : jsstring).

Definition entry_name (e : Dirent) : jsstring :=
  match e with
  | RegularFile name _ | Directory name _ | OtherEntry name => name
  end.

Definition endsWith (s p : jsstring) : bool := startsWith (rev s) (rev p).

(** [path.dirname] of a path with a segment. *)
Definition dirname (p : path) : path := removelast p.

(** [path.extname] of a path whose last segment is [name]: from the
    last dot on, unless the dot opens the name or the name is [..]. *)
Fixpoint break_last_dot (s : jsstring) : option (jsstring * jsstring) :=
  match s with
  | [] => None
  | c :: s' =>
      match break_last_dot s' with
      | Some (before, after) => Some (c :: before, after)
      | None => if c =? ch "." then Some ([], s') else None
      end
  end.

Definition extname (name : jsstring) : jsstring :=
  match break_last_dot name with
  | None => []
  | Some (before, after) =>
      if jseqb before [] || jseqb name (u "..") then []
      else u "." ++ after
  end.

(** [s.split(sep)] for a separator of one character. *)
Fixpoint split_on (sep : N) (s cur : jsstring) : list jsstring :=
  match s with
  | [] => [cur]
  | c :: s' =>
      if c =? sep then cur :: split_on sep s' []
      else split_on sep s' (cur ++ [c])
  end.

(** What [console.log] prints; [None] prints as [undefined]. *)
Inductive log_line :=
| log_vue (srcPath outPath : path)
| log_script (fileType : option jsstring) (srcPath outPath : path)
| log_done.

Inductive effect :=
| mkdir (dir : path)                        (* [recursive: true] *)
| writeFile (file : path) (text : jsstring)
| console_log (line : log_line)
| console_error.                            (* the rejection *)

(** The registry and console of the run, the directories that exist,
    and the calls made so far. *)
Record world := {
  run : state;
  dirs : list path;
  trace : list effect
}.

Definition with_run (w : world) (st : state) : world :=
  {| run := st; dirs := dirs w; trace := trace w |}.

Definition emit (e : effect) (w : world) : world :=
  {| run := run w; dirs := dirs w; trace := trace w ++ [e] |}.

(** The path and the directories above it. *)
Fixpoint ancestors (p : path) : list path :=
  match p with
  | [] => []
  | x :: p' => [x] :: map (cons x) (ancestors p')
  end.

Definition mkdir_p (dir : path) (w : world) : world :=
  {| run := run w; dirs := dirs w ++ ancestors dir;
     trace := trace w ++ [mkdir dir] |}.

Definition path_eqb (p q : path) : bool :=
  (length p =? length q)%nat
  && forallb (fun pq => jseqb (fst pq) (snd pq)) (combine p q).

Definition existsSync (dir : path) (w : world) : bool :=
  existsb (path_eqb dir) (dirs w).

(** An asynchronous function: it changes the world, and is fulfilled
    or rejected. *)
Definition async := world -> bool * world.

Definition fulfilled : async := fun w => (true, w).

Definition and_then (a b : async) : async :=
  fun w => match a w with
           | (true, w1) => b w1
           | (false, w1) => (false, w1)
           end.

Section ForOf.
Context {A : Type}.
Variable body : A -> async.

(** [for (const x of l) await body(x)] *)
Fixpoint for_of (l : list A) : async :=
  match l with
  | [] => fulfilled
  | x :: l' => and_then (body x) (for_of l')
  end.
End ForOf.

Section Run.
Variable commonWords : list jsstring.
Variable parse : list plugin -> jsstring -> option node.
Variable traverse : Visitor -> node -> state -> option node * state.
Variable generate : bool -> node -> option jsstring.
Variable parseSFC : jsstring -> SFCDescriptor.

(** [processVueFile] and [processTsFile] with their reads, writes and
    messages; [content] is the text at [srcPath]. *)
Definition processVueFile_at (content : jsstring) (srcPath : path)
    (moduleName : jsstring) (outPath : path) : async :=
  fun w =>
    match processVueFile commonWords parse traverse generate parseSFC
            content moduleName (run w) with
    | (Some newContent, st) =>
        (true,
         emit (console_log (log_vue srcPath outPath))
           (emit (writeFile outPath newContent)
              (mkdir_p (dirname outPath) (with_run w st))))
    | (None, st) => (false, with_run w st)
    end.

Definition fileType (srcPath : path) : option jsstring :=
  nth_error (split_on (ch ".") (extname (List.last srcPath [])) []) 1.

Definition processTsFile_at (code : jsstring) (srcPath : path)
    (moduleName : jsstring) (outPath : path) : async :=
  fun w =>
    match processTsFile commonWords parse traverse generate
            code moduleName (run w) with
    | (Some newCode, st) =>
        (true,
         emit (console_log (log_script (fileType srcPath) srcPath outPath))
           (emit (writeFile outPath newCode)
              (mkdir_p (dirname outPath) (with_run w st))))
    | (None, st) => (false, with_run w st)
    end.

(** The body of the loop of [walkDir], and [walkDir] on the entries
    read from [srcDir]. *)
Fixpoint walkEntry (moduleName : jsstring) (entry : Dirent)
    (srcDir outDir : path) : async :=
  let srcPath := srcDir ++ [entry_name entry] in
  let outPath := outDir ++ [entry_name entry] in
  match entry with
  | Directory _ entries =>
      for_of (fun e => walkEntry moduleName e srcPath outPath) entries
  | RegularFile name text =>
      if endsWith name (u ".vue")
      then processVueFile_at text srcPath moduleName outPath
      else if endsWith name (u ".ts") || endsWith name (u ".tsx")
              || endsWith name (u ".jsx")
      then processTsFile_at text srcPath moduleName outPath
      else fulfilled
  | OtherEntry _ => fulfilled
  end.

Definition walkDir (entries : list Dirent) (srcDir : path)
    (moduleName : jsstring) (outDir : path) : async :=
  for_of (fun e => walkEntry moduleName e srcDir outDir) entries.

(** [writeLocaleFiles] with its calls. *)
Definition writeLocaleFiles_at (outDir : path) (w : world) : world :=
  let outputDir := outDir in
  let w := if existsSync outputDir w then w else mkdir_p outputDir w in
  fold_left
    (fun w file =>
       emit (writeFile (outputDir ++ [fst file]) (JSON_stringify (snd file)))
         w)
    (writeLocaleFiles (localeMap (run w))) w.

(** The entry point, on the entries of [./testFile]. *)
Definition srcDir : path := [u "testFile"].
Definition outDir : path := [u "testResult"].
Definition moduleName : jsstring := u "test".

Definition main (entries : list Dirent) (w : world) : world :=
  match walkDir entries srcDir moduleName outDir w with
  | (true, w1) => writeLocaleFiles_at outDir (emit (console_log log_done) w1)
  | (false, w1) => emit console_error w1
  end.
End Run.

(** ** [JSON.parse] and the override set

    At start-up the program reads [common.json], parses it and takes
    the keys of the value as [commonWords].  The values of JSON: a
    number is kept as it is written, the program reads the keys
    only. *)

Inductive jsvalue :=
| JNull
| JBool (b : bool)
| JNumber (literal : jsstring)
| JStr (s : jsstring)
| JArr (items : list jsvalue)
| JObj (members : jsobject jsvalue).

(** The white space of JSON: tab, line feed, carriage return, blank. *)
Definition json_ws (c : N) : bool :=
  (c =? 9) || (c =? 10) || (c =? 13) || (c =? 32).

Fixpoint skip_ws (s : jsstring) : jsstring :=
  match s with
  | c :: s' => if json_ws c then skip_ws s' else s
  | [] => []
  end.

Definition hex_value (c : N) : option N :=
  if in_range (ch "0") (ch "9") c then Some (c - ch "0")
  else if in_range (ch "a") (ch "f") c then Some (c - ch "a" + 10)
  else if in_range (ch "A") (ch "F") c then Some (c - ch "A" + 10)
  else None.

Definition hex4 (h1 h2 h3 h4 : N) : option N :=
  match hex_value h1, hex_value h2, hex_value h3, hex_value h4 with
  | Some a, Some b, Some c, Some d => Some (4096 * a + 256 * b + 16 * c + d)
  | _, _, _, _ => None
  end.

(** The character after a backslash. *)
Definition unescape (e : N) : option N :=
  if e =? DQ then Some DQ
  else if e =? 92 then Some 92
  else if e =? ch "/" then Some (ch "/")
  else if e =? ch "b" then Some 8
  else if e =? ch "f" then Some 12
  else if e =? ch "n" then Some 10
  else if e =? ch "r" then Some 13
  else if e =? ch "t" then Some 9
  else None.

Definition cons_to (c : N) (r : option (jsstring * jsstring))
  : option (jsstring * jsstring) :=
  match r with
  | Some (str, rest) => Some (c :: str, rest)
  | None => None
  end.

(** The characters of a string up to its closing quote, and the text
    behind it. *)
Fixpoint parse_chars (s : jsstring) : option (jsstring * jsstring) :=
  match s with
  | [] => None
  | c :: s' =>
      if c =? DQ then Some ([], s')
      else if c =? 92 then
        match s' with
        | e :: s'' =>
            if e =? ch "u" then
              match s'' with
              | h1 :: h2 :: h3 :: h4 :: s''' =>
                  match hex4 h1 h2 h3 h4 with
                  | Some v => cons_to v (parse_chars s''')
                  | None => None
                  end
              | _ => None
              end
            else
              match unescape e with
              | Some v => cons_to v (parse_chars s'')
              | None => None
              end
        | [] => None
        end
      else if c <? 32 then None
      else cons_to c (parse_chars s')
  end.

(** The longest prefix of digits. *)
Fixpoint span_digits (s : jsstring) : jsstring * jsstring :=
  match s with
  | c :: s' =>
      if digit c then let '(ds, rest) := span_digits s' in (c :: ds, rest)
      else ([], s)
  | [] => ([], [])
  end.

(** The parts of a number: sign, integer part, fraction, exponent;
    each with the text behind it. *)
Definition number_sign (s : jsstring) : jsstring * jsstring :=
  match s with
  | c :: s' => if c =? ch "-" then ([c], s') else ([], s)
  | [] => ([], s)
  end.

Definition number_int (s : jsstring) : option (jsstring * jsstring) :=
  match s with
  | [] => None
  | c :: s' =>
      if digit c then
        if c =? ch "0" then Some ([c], s')
        else let '(ds, rest) := span_digits s' in Some (c :: ds, rest)
      else None
  end.

Definition number_frac (s : jsstring) : option (jsstring * jsstring) :=
  match s with
  | p :: s' =>
      if p =? ch "." then
        match span_digits s' with
        | ([], _) => None
        | (ds, rest) => Some (p :: ds, rest)
        end
      else Some ([], s)
  | [] => Some ([], s)
  end.

Definition number_exp (s : jsstring) : option (jsstring * jsstring) :=
  match s with
  | e :: s' =>
      if (e =? ch "e") || (e =? ch "E") then
        let '(sign, s'') :=
          match s' with
          | g :: t => if (g =? ch "+") || (g =? ch "-")
                      then ([g], t) else ([], s')
          | [] => ([], s')
          end in
        match span_digits s'' with
        | ([], _) => None
        | (ds, rest) => Some (e :: sign ++ ds, rest)
        end
      else Some ([], s)
  | [] => Some ([], s)
  end.

Definition parse_number (s : jsstring) : option (jsstring * jsstring) :=
  let '(sign, s1) := number_sign s in
  match number_int s1 with
  | Some (int, s2) =>
      match number_frac s2 with
      | Some (frac, s3) =>
          match number_exp s3 with
          | Some (exp, rest) => Some (sign ++ int ++ frac ++ exp, rest)
          | None => None
          end
      | None => None
      end
  | None => None
  end.

(** A value at the head of the text, and the text behind it.  The
    fuel bounds the depth of the calls; twice the length of the text
    is enough. *)
Fixpoint parse_value (fuel : nat) (s : jsstring)
  : option (jsvalue * jsstring) :=
  match fuel with
  | O => None
  | S fuel =>
      match s with
      | [] => None
      | c :: s' =>
          if c =? DQ then
            match parse_chars s' with
            | Some (str, rest) => Some (JStr str, rest)
            | None => None
            end
          else if c =? ch "{" then
            match skip_ws s' with
            | [] => None
            | d :: s1 =>
                if d =? ch "}" then Some (JObj [], s1)
                else parse_members fuel (d :: s1) []
            end
          else if c =? ch "[" then
            match skip_ws s' with
            | [] => None
            | d :: s1 =>
                if d =? ch "]" then Some (JArr [], s1)
                else parse_elements fuel (d :: s1) []
            end
          else if startsWith s (u "true") then Some (JBool true, skipn 4 s)
          else if startsWith s (u "false") then Some (JBool false, skipn 5 s)
          else if startsWith s (u "null") then Some (JNull, skipn 4 s)
          else
            match parse_number s with
            | Some (literal, rest) => Some (JNumber literal, rest)
            | None => None
            end
      end
  end

(** The members of an object from a key on; a key that comes again
    takes the new value and keeps its place. *)
with parse_members (fuel : nat) (s : jsstring) (acc : jsobject jsvalue)
  : option (jsvalue * jsstring) :=
  match fuel with
  | O => None
  | S fuel =>
      match s with
      | [] => None
      | q :: s1 =>
          if q =? DQ then
            match parse_chars s1 with
            | Some (key, s2) =>
                match skip_ws s2 with
                | [] => None
                | colon :: s3 =>
                    if colon =? ch ":" then
                      match parse_value fuel (skip_ws s3) with
                      | Some (v, s4) =>
                          let acc := obj_set acc key v in
                          match skip_ws s4 with
                          | [] => None
                          | d :: s5 =>
                              if d =? ch "," then
                                parse_members fuel (skip_ws s5) acc
                              else if d =? ch "}" then Some (JObj acc, s5)
                              else None
                          end
                      | None => None
                      end
                    else None
                end
            | None => None
            end
          else None
      end
  end

(** The elements of an array from a value on. *)
with parse_elements (fuel : nat) (s : jsstring) (acc : list jsvalue)
  : option (jsvalue * jsstring) :=
  match fuel with
  | O => None
  | S fuel =>
      match parse_value fuel s with
      | Some (v, s1) =>
          let acc := acc ++ [v] in
          match skip_ws s1 with
          | [] => None
          | d :: s2 =>
              if d =? ch "," then parse_elements fuel (skip_ws s2) acc
              else if d =? ch "]" then Some (JArr acc, s2)
              else None
          end
      | None => None
      end
  end.

(** [JSON.parse(text)]; [None] is the [SyntaxError]. *)
Definition JSON_parse (text : jsstring) : option jsvalue :=
  match parse_value (S (2 * length text)) (skip_ws text) with
  | Some (v, rest) =>
      match skip_ws rest with
      | [] => Some v
      | _ :: _ => None
      end
  | None => None
  end.

(** The decimal form of an index. *)
Fixpoint decimal_digits (fuel : nat) (n : N) (acc : jsstring) : jsstring :=
  match fuel with
  | O => acc
  | S fuel =>
      let acc := (ch "0" + n mod 10) :: acc in
      if n / 10 =? 0 then acc else decimal_digits fuel (n / 10) acc
  end.

Definition index_key (i : nat) : jsstring :=
  decimal_digits (S i) (N.of_nat i) [].

(** [Object.keys(value)]; [None] is the [TypeError] for [null]. *)
Definition Object_keys_of (v : jsvalue) : option (list jsstring) :=
  match v with
  | JNull => None
  | JBool _ | JNumber _ => Some []
  | JStr s => Some (map index_key (seq 0 (length s)))
  | JArr items => Some (map index_key (seq 0 (length items)))
  | JObj members => Some (Object_keys members)
  end.

(** What the start of the program prints. *)
Inductive load_line := log_loaded | warn_load_failed.

(** The start of the program: [commonWords] from the text of
    [common.json]; [None] stands for a file that cannot be read. *)
Definition loadCommon (content : option jsstring)
  : list jsstring * load_line :=
  match content with
  | None => ([], warn_load_failed)
  | Some content =>
      match JSON_parse content with
      | None => ([], warn_load_failed)
      | Some commonMap =>
          match Object_keys_of commonMap with
          | None => ([], warn_load_failed)
          | Some keys => (keys, log_loaded)
          end
      end
  end.

(** * Definitions used in the statements *)

Definition initial : state := {| localeMap := []; console := [] |}.

(** Sample texts: 你好, 再见, 确定, 请点击, 按钮. *)
Definition nihao : jsstring := [0x4f60; 0x597d].
Definition zaijian : jsstring := [0x518d; 0x89c1].
Definition queding : jsstring := [0x786e; 0x5b9a].
Definition qingdianji : jsstring := [0x8bf7; 0x70b9; 0x51fb].
Definition anniu : jsstring := [0x6309; 0x94ae].

(** ** The registry *)

(** What [addLocale] does to one table. *)
Definition table_add (table : jsobject jsstring) (text : jsstring)
  : jsobject jsstring :=
  if table_has table text then table else obj_set table text text.

(** The table of [ns] has the key [text]. *)
Definition filed_under (localeMap : registry) (ns text : jsstring) : bool :=
  match own_get localeMap ns with
  | Some table =>
      match own_get table text with Some _ => true | None => false end
  | None => false
  end.

(** The pair is in the registry: the table of [ns] maps [text] to
    itself. *)
Definition entry (localeMap : registry) (ns text : jsstring) : Prop :=
  exists table,
    own_get localeMap ns = Some table /\ own_get table text = Some text.

(** The registry viewed as a map: the order of the keys is forgotten. *)
Definition table_map (table : jsobject jsstring) : gmap jsstring jsstring :=
  list_to_map table.

Definition registry_map (localeMap : registry)
  : gmap jsstring (gmap jsstring jsstring) :=
  list_to_map (map (fun e => (fst e, table_map (snd e))) localeMap).

(** [table_add] and [addLocale] on the map view. *)
Definition map_table_add (T : gmap jsstring jsstring) (text : jsstring)
  : gmap jsstring jsstring :=
  if inherited text
     || match T !! text with
        | Some v => negb (jseqb v [])
        | None => false
        end
  then T else <[text:=text]> T.

Definition map_add (commonWords : list jsstring)
    (m : gmap jsstring (gmap jsstring jsstring))
    (e : jsstring * jsstring) : gmap jsstring (gmap jsstring jsstring) :=
  let t := targetModule commonWords (fst e) (snd e) in
  match m !! t with
  | Some T => <[t := map_table_add T (snd e)]> m
  | None =>
      if inherited t then m else <[t := map_table_add ∅ (snd e)]> m
  end.

(** A run records its texts one after the other: the pairs are the
    arguments [(moduleName, text)] of the calls of [addLocale]. *)
Definition record_all (commonWords : list jsstring)
    (l : list (jsstring * jsstring)) (localeMap : registry) : registry :=
  fold_left (fun m e => addLocale commonWords (fst e) (snd e) m) l localeMap.

(** The order of [sort]. *)
Definition js_lt (a b : jsstring) : Prop := js_ltb a b = true.
Definition js_le (a b : jsstring) : Prop := js_leb a b = true.

(** What every registry built by [addLocale] satisfies when no text is
    an array index: keys are unique, each text is filed with itself, and
    no key is enumerated out of its creation order. *)
Definition plain_key (k : jsstring) : Prop :=
  is_array_index k = false /\ inherited k = false.

Definition wf_table (T : jsobject jsstring) : Prop :=
  NoDup (own_keys T)
  /\ (forall k v, own_get T k = Some v -> v = k)
  /\ Forall plain_key (own_keys T).

Definition wf_registry (localeMap : registry) : Prop :=
  NoDup (own_keys localeMap)
  /\ forall ns T, own_get localeMap ns = Some T -> wf_table T.

(** The table a namespace is serialised to holds each key with itself,
    in the order given. *)
Definition identity_table (keys : list jsstring) : jsobject jsstring :=
  map (fun k => (k, k)) keys.

Definition document (keys : list jsstring) : json :=
  JObject (map (fun k => (k, JString k)) keys).

(** The file written for one namespace. *)
Definition locale_file (e : jsstring * jsobject jsstring) : jsstring * json :=
  (fst e ++ u ".json",
   JObject [(fst e, document (Array_sort (own_keys (snd e))))]).

(** ** Matches

    [commits r a b c c'] : on the input [a ++ b] the regex takes [a]
    at its first try and hands [b] and the captures [c'] to its
    continuation, so that a continuation which accepts them decides
    the match. *)
Definition commits (r : regex) (a b : jsstring) (c c' : captures) : Prop :=
  forall (k : cont) res, k b c' = Some res -> rmatch r k (a ++ b) c = Some res.

(** [matches r c a b c'] : in front of [b] the regex can take [a],
    turning the captures [c] into [c']. *)
Inductive matches
  : regex -> captures -> jsstring -> jsstring -> captures -> Prop :=
| matches_Chr a b c : matches (Chr a) c [a] b c
| matches_Cls p x b c : p x = true -> matches (Cls p) c [x] b c
| matches_Star p run b c :
    forallb p run = true -> matches (Star p) c run b c
| matches_LazyStar p run b c :
    forallb p run = true -> matches (LazyStar p) c run b c
| matches_Seq r1 r2 a1 a2 b c c1 c2 :
    matches r1 c a1 (a2 ++ b) c1 -> matches r2 c1 a2 b c2 ->
    matches (r1 ~~ r2) c (a1 ++ a2) b c2
| matches_Grp i r a b c c1 :
    matches r c a b c1 -> matches (Grp i r) c a b ((i, a) :: c1)
| matches_Ref i t b c : get_cap c i = Some t -> matches (Ref i) c t b c
| matches_Ref_unset i b c : get_cap c i = None -> matches (Ref i) c [] b c
| matches_Eol c : matches Eol c [] [] c.

(** A greedy star over [p] cannot go on into [b]. *)
Definition stops (p : N -> bool) (b : jsstring) : Prop :=
  match b with
  | [] => True
  | x :: _ => p x = false
  end.

(** Some quote of [pre] is directly followed by a target character. *)
Fixpoint opens_literal (pre : jsstring) : bool :=
  match pre with
  | x :: (y :: _) as pre' => (one_of [SQ; DQ] x && zh y) || opens_literal pre'
  | _ => false
  end.

(** ** The scan of a global replace

    [scan_before r f before rest st]: what [(before ++ rest).replace(r, f)]
    has written and the state it has reached when the scan stands
    behind [before]; [None] when a match that starts in [before] goes
    on into [rest], so that the scan never stands there.  [skip]
    counts the characters still covered by the last match, as in
    [replace_from]. *)
Section Scan.
Context {St : Type}.
Variable r : regex.
Variable f : jsstring -> captures -> St -> jsstring * St.

Fixpoint scan_from (before rest : jsstring) (skip : nat) (st : St)
  : option (jsstring * St) :=
  match before with
  | [] =>
      match skip with
      | O => Some ([], st)
      | S _ => None
      end
  | x :: before' =>
      match skip with
      | S n => scan_from before' rest n st
      | O =>
          match exec_at r (before ++ rest) with
          | Some (len, c) =>
              let '(rep, st1) := f (firstn len (before ++ rest)) c st in
              match len with
              | O =>
                  match scan_from before' rest 0 st1 with
                  | Some (out, st2) => Some (rep ++ x :: out, st2)
                  | None => None
                  end
              | S n =>
                  match scan_from before' rest n st1 with
                  | Some (out, st2) => Some (rep ++ out, st2)
                  | None => None
                  end
              end
          | None =>
              match scan_from before' rest 0 st with
              | Some (out, st1) => Some (x :: out, st1)
              | None => None
              end
          end
      end
  end.

Definition scan_before (before rest : jsstring) (st : St)
  : option (jsstring * St) :=
  scan_from before rest 0 st.
End Scan.

(** ** The serialised unit

    The text between the leading and the trailing line feed of the
    template string that builds [newContent], up to the styles. *)
Definition unit_head (newScript newTemplate : jsstring) : jsstring :=
  u "<script setup lang=" ++ [DQ] ++ u "ts" ++ [DQ] ++ u ">"
  ++ [LF] ++ newScript ++ [LF] ++ u "</script>" ++ [LF]
  ++ u "<template>" ++ [LF] ++ newTemplate ++ [LF] ++ u "</template>".

(** The regions the unit processor writes for the script and for the
    template. *)
Definition scriptRegion (newScript : jsstring) : jsstring :=
  u "<script setup lang=" ++ [DQ] ++ u "ts" ++ [DQ] ++ u ">" ++ [LF]
  ++ newScript ++ [LF] ++ u "</script>".

Definition templateRegion (newTemplate : jsstring) : jsstring :=
  u "<template>" ++ [LF] ++ newTemplate ++ [LF] ++ u "</template>".

Definition module_style : SFCBlock :=
  {| content := u ".a{}"; attrs := [(u "module", None)];
     lang := None; scoped := false |}.

Definition plain_style : SFCBlock :=
  {| content := u ".a{}"; attrs := []; lang := None; scoped := false |}.

Definition unit_of_style (style : SFCBlock) : SFCDescriptor :=
  {| template := None; script := None; scriptSetup := None;
     styles := [style] |}.

(** A file whose parse by Vue is known. *)
Definition parsed_as (d : SFCDescriptor) : jsstring -> SFCDescriptor :=
  fun _ => d.

(** ** A small stand-in for Babel

    The theorems hold for every parser, traversal and generator.  To
    run the model on concrete inputs, the stand-in below implements
    the interface on the fragment [const __temp = <string literal>;],
    the literal without escapes, and rejects every other text. *)

Definition declared (init : node) : node :=
  File (Program [VariableDeclaration
                   [VariableDeclarator (Identifier (u "__temp")) init]]).

Fixpoint literal_body (q : N) (s : jsstring) : option jsstring :=
  match s with
  | [] => None
  | x :: s' =>
      if x =? q then (if jseqb s' (u ";") then Some [] else None)
      else if (x =? 92) || (x =? LF) then None
      else match literal_body q s' with
           | Some body => Some (x :: body)
           | None => None
           end
  end.

Definition mini_parse (plugins : list plugin) (code : jsstring) : option node :=
  if startsWith code (u "const __temp = ") then
    match skipn 15 code with
    | q :: s =>
        if one_of [SQ; DQ] q then
          match literal_body q s with
          | Some body => Some (declared (StringLiteral body))
          | None => None
          end
        else None
    | [] => None
    end
  else None.

Definition mini_traverse (v : Visitor) (ast : node) (st : state)
  : option node * state :=
  match ast with
  | File (Program [VariableDeclaration
                     [VariableDeclarator id (StringLiteral value)]]) =>
      let path :=
        {| path_node := StringLiteral value;
           path_parent := Some (VariableDeclarator id (StringLiteral value)) |}
      in
      match visit_StringLiteral v path st with
      | (ReplaceWith n, st1) =>
          (Some (File (Program [VariableDeclaration
                                  [VariableDeclarator id n]])), st1)
      | (Throw, st1) => (None, st1)
      | (_, st1) => (Some ast, st1)
      end
  | _ => (Some ast, st)
  end.

Definition mini_generate (single : bool) (n : node) : option jsstring :=
  let q := if single then SQ else DQ in
  match n with
  | StringLiteral value => Some ([q] ++ value ++ [q])
  | Identifier name => Some name
  | CallExpression (Identifier f) [StringLiteral value] =>
      Some (f ++ u "(" ++ [q] ++ value ++ [q] ++ u ")")
  | _ => None
  end.

(** The stand-in generator on whole files of its fragment: it prints
    [const <name> = <init>;]. *)
Definition mini_generate_file (single : bool) (n : node) : option jsstring :=
  match n with
  | File (Program
      [VariableDeclaration [VariableDeclarator (Identifier name) init]]) =>
      match mini_generate single init with
      | Some code => Some (u "const " ++ name ++ u " = " ++ code ++ u ";")
      | None => None
      end
  | _ => mini_generate single n
  end.

Ltac norm_app :=
  cbn [app];
  repeat first [rewrite <- app_assoc | rewrite <- app_comm_cons].

(** A unit with an options-API script and nothing else. *)
Definition plain_script_unit : SFCDescriptor :=
  {| template := None;
     script := Some {| content := u "export default {}"; attrs := [];
                       lang := None; scoped := false |};
     scriptSetup := None;
     styles := [] |}.

(** A unit with an options-API script and a setup script that has an
    attribute of its own:
    [<script>export default {}</script>]
    [<script setup name=DQ x DQ>const __temp = '你好';</script>]. *)
Definition two_script_unit : SFCDescriptor :=
  {| template := None;
     script := Some {| content := u "export default {}"; attrs := [];
                       lang := None; scoped := false |};
     scriptSetup :=
       Some {| content := u "const __temp = '" ++ nihao ++ u "';";
               attrs := [(u "setup", None); (u "name", Some (u "x"))];
               lang := None; scoped := false |};
     styles := [] |}.

(** 你好 再见: two identifiers side by side, which no parser accepts as
    an expression. *)
Definition two_words : jsstring := nihao ++ u " " ++ zaijian.

(** * Definitions used in the further statements *)

(** ** Runs of target characters

    A piece of a text split at its runs of target characters is not
    empty, and holds target characters only or none; of two pieces
    side by side one is a run and the other is not. *)
Definition homogeneous (p : jsstring) : Prop :=
  p <> [] /\ (forallb zh p = true \/ existsb zh p = false).

Fixpoint alternating (l : list jsstring) : Prop :=
  match l with
  | p :: (q :: _) as l' => existsb zh p <> existsb zh q /\ alternating l'
  | _ => True
  end.

Definition head_free (l : list jsstring) : Prop :=
  match l with [] => True | p :: _ => existsb zh p = false end.

Definition head_zh (l : list jsstring) : Prop :=
  match l with [] => True | p :: _ => existsb zh p = true end.

(** The segments the [TemplateLiteral] visitor walks for one quasi. *)
Definition segments (q : TemplateElement) : list jsstring :=
  filter_Boolean (split_by zhSplitReg 1 (raw q)).

(** The node the [JSXText] visitor writes for one piece. *)
Definition jsxNode (commonWords : list jsstring) (moduleName p : jsstring)
  : node :=
  if existsb zh p
  then JSXExpressionContainer (getTCallExpression commonWords p moduleName)
  else JSXText p.

(** ** What a run keeps *)

(** Every pair of the registry of [st] is in the registry of [st']. *)
Definition keeps (st st' : state) : Prop :=
  forall ns text,
    entry (localeMap st) ns text -> entry (localeMap st') ns text.

(** [st'] keeps the pairs of [st] and has the same console. *)
Definition grows (st st' : state) : Prop :=
  console st' = console st /\ keeps st st'.

(** The traversal changes the state only by calling the visitors:
    whatever the visitors keep, it keeps. *)
Definition by_visitors
    (traverse : Visitor -> node -> state -> option node * state) : Prop :=
  forall v : Visitor,
    (forall p st, keeps st (snd (visit_StringLiteral v p st))) ->
    (forall p st, keeps st (snd (visit_TemplateLiteral v p st))) ->
    (forall p st, keeps st (snd (visit_JSXText v p st))) ->
    forall ast st, keeps st (snd (traverse v ast st)).

(** ** The tree and its mirror *)

(** A name [walkDir] hands to [processVueFile] or [processTsFile]. *)
Definition convertible (name : jsstring) : bool :=
  endsWith name (u ".vue") || endsWith name (u ".ts")
  || endsWith name (u ".tsx") || endsWith name (u ".jsx").

(** The tree holds a regular file with this text at this path. *)
Inductive file_at : list Dirent -> path -> jsstring -> Prop :=
| file_here entries name text :
    RegularFile name text ∈ entries -> file_at entries [name] text
| file_below entries name sub rel text :
    Directory name sub ∈ entries -> file_at sub rel text ->
    file_at entries (name :: rel) text.

Section Mirror.
Variable commonWords : list jsstring.
Variable parse : list plugin -> jsstring -> option node.
Variable traverse : Visitor -> node -> state -> option node * state.
Variable generate : bool -> node -> option jsstring.
Variable parseSFC : jsstring -> SFCDescriptor.
Variable moduleName : jsstring.

(** What [walkDir] runs on a file, by its name. *)
Definition convert (name text : jsstring) (st : state)
  : option jsstring * state :=
  if endsWith name (u ".vue")
  then processVueFile commonWords parse traverse generate parseSFC
         text moduleName st
  else processTsFile commonWords parse traverse generate text moduleName st.

(** The calls [added] mirror the convertible files of [entries] below
    [outDir]: each write is the conversion of such a file at the same
    relative path, each directory is made for a file written into it,
    and when the walk is fulfilled every such file is written. *)
Definition mirrors (entries : list Dirent) (outDir : path)
    (added : list effect) (ok : bool) : Prop :=
  (forall p t,
     writeFile p t ∈ added ->
     exists rel text st,
       p = outDir ++ rel /\ file_at entries rel text
       /\ convertible (List.last rel []) = true
       /\ fst (convert (List.last rel []) text st) = Some t)
  /\ (forall d, mkdir d ∈ added ->
        exists name t, writeFile (d ++ [name]) t ∈ added)
  /\ (ok = true ->
      forall rel text,
        file_at entries rel text -> convertible (List.last rel []) = true ->
        exists t, writeFile (outDir ++ rel) t ∈ added).

(** The result [r] of a walk from the world [w]. *)
Definition walk_ok (entries : list Dirent) (outDir : path)
    (w : world) (r : bool * world) : Prop :=
  exists added,
    trace (snd r) = trace w ++ added /\ mirrors entries outDir added (fst r).
End Mirror.

(** The world a run starts in: nothing recorded, nothing called yet;
    [present] lists the directories there are. *)
Definition start (present : list path) : world :=
  {| run := initial; dirs := present; trace := [] |}.

(** A unit with a template and nothing else, and a template. *)
Definition template_unit (text : jsstring) : SFCDescriptor :=
  {| template := Some {| content := text; attrs := []; lang := None;
                         scoped := false |};
     script := None; scriptSetup := None; styles := [] |}.

Definition greeting : jsstring := u "<p>" ++ nihao ++ u "</p>".

(** ** The text of a dictionary *)

(** The number of line feeds of a text. *)
Definition line_feeds (s : jsstring) : nat := count_occ N.eq_dec s LF.

(** ** Documents read back *)

(** The JSON value a document is read back as. *)
Fixpoint value_of (v : json) : jsvalue :=
  match v with
  | JString s => JStr s
  | JObject members => JObj (map (fun e => (fst e, value_of (snd e))) members)
  end.

(** No key comes twice. *)
Fixpoint distinct (keys : list jsstring) : bool :=
  match keys with
  | [] => true
  | k :: keys' => negb (existsb (jseqb k) keys') && distinct keys'
  end.

(** No object of the document has a key twice. *)
Fixpoint distinct_keys (v : json) : bool :=
  match v with
  | JString _ => true
  | JObject members =>
      distinct (map fst members)
      && forallb (fun e => distinct_keys (snd e)) members
  end.

(** A bound on the depth of the calls that read a document back. *)
Fixpoint weight (v : json) : nat :=
  match v with
  | JString _ => 1
  | JObject members =>
      S (list_sum (map (fun e => S (weight (snd e))) members))
  end.

(** The indentation is made of blanks. *)
Definition blanks (indent : jsstring) : Prop :=
  forallb (N.eqb 32) indent = true.

(** One member of an object, as it is laid out. *)
Definition member_text (indent : jsstring) (e : jsstring * json) : jsstring :=
  QuoteJSONString (fst e) ++ u ": " ++ SerializeJSON indent (snd e).

(** * Equality of strings and own properties *)

Lemma jseqb_eq (a b : jsstring) : jseqb a b = true <-> a = b.
Proof.
  revert b. induction a as [|x a IH]; intros [|y b]; simpl; split; try done.
  - intros [Hxy Hab]%andb_prop. apply N.eqb_eq in Hxy. apply IH in Hab.
    by subst.
  - intros [= -> ->]. rewrite N.eqb_refl. simpl. by apply IH.
Qed.

Lemma jseqb_refl (a : jsstring) : jseqb a a = true.
Proof. by apply jseqb_eq. Qed.

Lemma jseqb_neq (a b : jsstring) : a <> b -> jseqb a b = false.
Proof.
  intros H. destruct (jseqb a b) eqn:E; [|done]. by apply jseqb_eq in E.
Qed.

Section ObjectFacts.
Context {V : Type}.
Implicit Types (o : jsobject V) (k : jsstring) (v : V).

Lemma own_get_obj_set_eq o k v : own_get (obj_set o k v) k = Some v.
Proof.
  induction o as [|[k' v'] o IH]; simpl.
  - by rewrite jseqb_refl.
  - destruct (jseqb k k') eqn:E; simpl; rewrite E; [done|apply IH].
Qed.

Lemma own_get_obj_set_ne o k k' v :
  k <> k' -> own_get (obj_set o k v) k' = own_get o k'.
Proof.
  intros Hne. induction o as [|[k0 v0] o IH]; simpl.
  - rewrite jseqb_neq; [done|congruence].
  - destruct (jseqb k k0) eqn:E; simpl.
    + apply jseqb_eq in E. subst k0.
      rewrite (jseqb_neq k' k); [done|congruence].
    + by rewrite IH.
Qed.

Lemma obj_set_same o k v : own_get o k = Some v -> obj_set o k v = o.
Proof.
  induction o as [|[k0 v0] o IH]; simpl; [done|].
  destruct (jseqb k k0) eqn:E.
  - by intros [= ->].
  - intros H. by rewrite IH.
Qed.

Lemma obj_set_obj_set o k v v' : obj_set (obj_set o k v) k v' = obj_set o k v'.
Proof.
  induction o as [|[k0 v0] o IH]; simpl.
  - by rewrite jseqb_refl.
  - destruct (jseqb k k0) eqn:E; simpl; rewrite E; [done|by rewrite IH].
Qed.

Lemma own_get_None o k : own_get o k = None <-> k ∉ own_keys o.
Proof.
  unfold own_keys. induction o as [|[k0 v0] o IH]; simpl.
  - split; [intros _; apply not_elem_of_nil|done].
  - rewrite not_elem_of_cons. destruct (jseqb k k0) eqn:E.
    + apply jseqb_eq in E. subst. split; [done|]. by intros [? _].
    + rewrite IH. split; [|by intros [_ ?]].
      intros H. split; [|done]. intros ->. by rewrite jseqb_refl in E.
Qed.

Lemma elem_of_own_get o k v :
  NoDup (own_keys o) -> (k, v) ∈ o -> own_get o k = Some v.
Proof.
  unfold own_keys. induction o as [|[k0 v0] o IH]; simpl.
  - intros _ H. by apply elem_of_nil in H.
  - intros [Hk Hnd]%NoDup_cons [[= -> ->]|Hin]%elem_of_cons.
    + by rewrite jseqb_refl.
    + destruct (jseqb k k0) eqn:E; [|by apply IH].
      apply jseqb_eq in E. subst. destruct Hk.
      apply list_elem_of_fmap. by exists (k0, v).
Qed.

Lemma obj_set_absent o k v :
  own_get o k = None -> obj_set o k v = o ++ [(k, v)].
Proof.
  induction o as [|[k0 v0] o IH]; simpl; [done|].
  destruct (jseqb k k0); [done|]. intros H. by rewrite IH.
Qed.

Lemma obj_set_keys_present o k v v0 :
  own_get o k = Some v0 -> own_keys (obj_set o k v) = own_keys o.
Proof.
  unfold own_keys. induction o as [|[k1 v1] o IH]; simpl; [done|].
  destruct (jseqb k k1); simpl; [done|]. intros H. by rewrite IH.
Qed.

Lemma obj_set_keys o k v :
  own_keys (obj_set o k v)
  = match own_get o k with
    | Some _ => own_keys o
    | None => own_keys o ++ [k]
    end.
Proof.
  destruct (own_get o k) eqn:E.
  - by eapply obj_set_keys_present.
  - rewrite obj_set_absent by done. unfold own_keys. by rewrite map_app.
Qed.

Lemma obj_set_NoDup o k v :
  NoDup (own_keys o) -> NoDup (own_keys (obj_set o k v)).
Proof.
  intros H. rewrite obj_set_keys. destruct (own_get o k) eqn:E; [done|].
  apply NoDup_app. split; [done|]. split; [|apply NoDup_singleton].
  intros x Hx ->%list_elem_of_singleton. by apply own_get_None in E.
Qed.

Lemma own_get_lookup o k :
  own_get o k = (list_to_map o : gmap jsstring V) !! k.
Proof.
  induction o as [|[k0 v0] o IH]; simpl; [done|].
  destruct (jseqb k k0) eqn:E.
  - apply jseqb_eq in E. subst. by rewrite lookup_insert_eq.
  - rewrite lookup_insert_ne; [done|]. intros ->.
    by rewrite jseqb_refl in E.
Qed.

Lemma list_to_map_obj_set o k v :
  (list_to_map (obj_set o k v) : gmap jsstring V)
  = <[k:=v]> (list_to_map o).
Proof.
  induction o as [|[k0 v0] o IH]; simpl; [done|].
  destruct (jseqb k k0) eqn:E; simpl.
  - apply jseqb_eq in E. subst. by rewrite insert_insert_eq.
  - rewrite IH. apply insert_insert_ne. intros ->.
    by rewrite jseqb_refl in E.
Qed.

Lemma Object_entries_plain o :
  Forall (fun k => is_array_index k = false) (own_keys o) ->
  Object_entries o = o.
Proof.
  intros H. unfold Object_entries.
  assert (Forall (fun e : jsstring * V => is_array_index (fst e) = false) o)
    as Ho.
  { unfold own_keys in H. by apply Forall_fmap in H. }
  clear H.
  assert (List.filter (fun e : jsstring * V => is_array_index (fst e)) o = [])
    as ->.
  { induction Ho as [|e o He Ho IH]; [done|]. simpl. by rewrite He. }
  simpl. induction Ho as [|e o He Ho IH]; [done|].
  simpl. rewrite He. simpl. by rewrite IH.
Qed.

Lemma insert_index_perm (e : jsstring * V) l : insert_index e l ≡ₚ e :: l.
Proof.
  induction l as [|e' l IH]; simpl; [done|].
  destruct (_ <=? _); [done|]. rewrite IH. apply Permutation_swap.
Qed.

Lemma sort_index_perm o : sort_index o ≡ₚ o.
Proof.
  induction o as [|e l IH]; simpl; [done|].
  by rewrite insert_index_perm, IH.
Qed.

Lemma Object_entries_perm o : Object_entries o ≡ₚ o.
Proof.
  unfold Object_entries. rewrite sort_index_perm.
  induction o as [|e o IH]; simpl; [done|].
  destruct (is_array_index (fst e)); simpl.
  - by rewrite IH.
  - rewrite <- Permutation_middle. by rewrite IH.
Qed.
End ObjectFacts.

(** * The registry *)

Section RegistryFacts.
Variable commonWords : list jsstring.

Lemma addLocale_unfold moduleName text (localeMap : registry) :
  addLocale commonWords moduleName text localeMap =
  match own_get localeMap (targetModule commonWords moduleName text) with
  | Some table =>
      obj_set localeMap (targetModule commonWords moduleName text)
        (table_add table text)
  | None =>
      if inherited (targetModule commonWords moduleName text) then localeMap
      else obj_set localeMap (targetModule commonWords moduleName text)
             (table_add [] text)
  end.
Proof.
  unfold addLocale, registry_has, table_add.
  set (t := targetModule commonWords moduleName text).
  destruct (own_get localeMap t) as [table|] eqn:Ht.
  - rewrite orb_true_r. simpl. rewrite Ht.
    destruct (table_has table text); simpl; [|done].
    symmetry. by apply obj_set_same.
  - rewrite orb_false_r. destruct (inherited t); simpl.
    + by rewrite Ht.
    + rewrite own_get_obj_set_eq.
      destruct (table_has [] text); simpl; [done|].
      by rewrite obj_set_obj_set.
Qed.

Lemma table_add_filed table text :
  inherited text = false ->
  exists v, own_get (table_add table text) text = Some v.
Proof.
  intros Hi. unfold table_add, table_has. rewrite Hi. simpl.
  destruct (own_get table text) as [v|] eqn:E.
  - destruct (negb (jseqb v [])); [eauto|].
    rewrite own_get_obj_set_eq. eauto.
  - rewrite own_get_obj_set_eq. eauto.
Qed.

Lemma addLocale_filed moduleName text (localeMap : registry) :
  inherited text = false ->
  inherited (targetModule commonWords moduleName text) = false ->
  filed_under (addLocale commonWords moduleName text localeMap)
    (targetModule commonWords moduleName text) text = true.
Proof.
  intros Hx Ht. rewrite addLocale_unfold. unfold filed_under.
  destruct (own_get localeMap _) as [table|] eqn:E.
  - rewrite own_get_obj_set_eq.
    by destruct (table_add_filed table text Hx) as [v ->].
  - rewrite Ht, own_get_obj_set_eq.
    by destruct (table_add_filed [] text Hx) as [v ->].
Qed.

Lemma addLocale_other moduleName text (localeMap : registry) ns :
  ns <> targetModule commonWords moduleName text ->
  own_get (addLocale commonWords moduleName text localeMap) ns
  = own_get localeMap ns.
Proof.
  intros Hne. rewrite addLocale_unfold.
  destruct (own_get localeMap (targetModule _ _ _)) as [table|] eqn:E.
  - by rewrite own_get_obj_set_ne.
  - destruct (inherited _); [done|]. by rewrite own_get_obj_set_ne.
Qed.

Lemma table_add_idem table text :
  table_add (table_add table text) text = table_add table text.
Proof.
  unfold table_add. destruct (table_has table text) eqn:E.
  - by rewrite E.
  - destruct (table_has (obj_set table text text) text); [done|].
    by rewrite obj_set_obj_set.
Qed.

Lemma addLocale_idempotent moduleName text (localeMap : registry) :
  addLocale commonWords moduleName text
    (addLocale commonWords moduleName text localeMap)
  = addLocale commonWords moduleName text localeMap.
Proof.
  rewrite (addLocale_unfold _ _ (addLocale _ _ _ _)).
  rewrite (addLocale_unfold _ _ localeMap).
  set (t := targetModule commonWords moduleName text).
  destruct (own_get localeMap t) as [table|] eqn:E.
  - rewrite own_get_obj_set_eq, obj_set_obj_set. by rewrite table_add_idem.
  - destruct (inherited t) eqn:Hi.
    + by rewrite E.
    + rewrite own_get_obj_set_eq, obj_set_obj_set. by rewrite table_add_idem.
Qed.

Lemma addLocale_present moduleName text (localeMap : registry) :
  entry localeMap (targetModule commonWords moduleName text) text ->
  addLocale commonWords moduleName text localeMap = localeMap.
Proof.
  intros (table & Ht & Hx). rewrite addLocale_unfold, Ht.
  apply obj_set_same. rewrite Ht. f_equal.
  unfold table_add. destruct (table_has table text); [done|].
  by rewrite obj_set_same.
Qed.

(** ** The map view *)

Lemma registry_map_lookup (localeMap : registry) ns :
  registry_map localeMap !! ns = table_map <$> own_get localeMap ns.
Proof.
  unfold registry_map.
  induction localeMap as [|[k0 t0] o IH]; simpl; [done|].
  destruct (jseqb ns k0) eqn:E.
  - apply jseqb_eq in E. subst. by rewrite lookup_insert_eq.
  - rewrite lookup_insert_ne; [done|]. intros ->.
    by rewrite jseqb_refl in E.
Qed.

Lemma registry_map_obj_set (localeMap : registry) ns table :
  registry_map (obj_set localeMap ns table)
  = <[ns := table_map table]> (registry_map localeMap).
Proof.
  unfold registry_map.
  induction localeMap as [|[k0 t0] o IH]; simpl; [done|].
  destruct (jseqb ns k0) eqn:E; simpl.
  - apply jseqb_eq in E. subst. by rewrite insert_insert_eq.
  - rewrite IH. apply insert_insert_ne. intros ->.
    by rewrite jseqb_refl in E.
Qed.

Lemma table_map_add table text :
  table_map (table_add table text) = map_table_add (table_map table) text.
Proof.
  unfold table_add, map_table_add, table_has, table_map.
  rewrite <- own_get_lookup.
  destruct (inherited text || _); [done|].
  apply list_to_map_obj_set.
Qed.

Lemma registry_map_addLocale moduleName text (localeMap : registry) :
  registry_map (addLocale commonWords moduleName text localeMap)
  = map_add commonWords (registry_map localeMap) (moduleName, text).
Proof.
  rewrite addLocale_unfold. unfold map_add. simpl.
  rewrite registry_map_lookup.
  destruct (own_get localeMap _) as [table|]; simpl.
  - by rewrite registry_map_obj_set, table_map_add.
  - destruct (inherited _); [done|].
    by rewrite registry_map_obj_set, table_map_add.
Qed.

Lemma map_table_add_comm T x y :
  map_table_add (map_table_add T x) y = map_table_add (map_table_add T y) x.
Proof.
  destruct (decide (x = y)) as [->|Hne]; [done|].
  unfold map_table_add.
  destruct (inherited x), (inherited y); simpl; try done.
  destruct (match T !! x with Some v => _ | None => _ end) eqn:Ex;
    destruct (match T !! y with Some v => _ | None => _ end) eqn:Ey;
    rewrite ?lookup_insert_ne by done; rewrite ?Ex, ?Ey; try done.
  by apply insert_insert_ne.
Qed.

Lemma map_add_comm m a b :
  map_add commonWords (map_add commonWords m a) b
  = map_add commonWords (map_add commonWords m b) a.
Proof.
  unfold map_add.
  set (ta := targetModule commonWords a.1 a.2).
  set (tb := targetModule commonWords b.1 b.2).
  destruct (decide (ta = tb)) as [Heq|Hne].
  - rewrite <- Heq.
    destruct (m !! ta) as [T|] eqn:E.
    + rewrite !lookup_insert_eq, !insert_insert_eq.
      by rewrite map_table_add_comm.
    + destruct (inherited ta) eqn:Hi.
      * by rewrite E.
      * rewrite !lookup_insert_eq, !insert_insert_eq.
        by rewrite map_table_add_comm.
  - destruct (m !! ta) as [Ta|] eqn:Ea; destruct (m !! tb) as [Tb|] eqn:Eb;
      destruct (inherited ta) eqn:Ha; destruct (inherited tb) eqn:Hb;
      rewrite ?lookup_insert_ne by done;
      rewrite ?Ea, ?Eb, ?Ha, ?Hb; try done;
      by apply insert_insert_ne.
Qed.

Lemma registry_map_record_all l (localeMap : registry) :
  registry_map (record_all commonWords l localeMap)
  = fold_left (map_add commonWords) l (registry_map localeMap).
Proof.
  revert localeMap. induction l as [|[ns x] l IH]; intros m; simpl; [done|].
  unfold record_all in *. simpl. by rewrite IH, registry_map_addLocale.
Qed.

Lemma fold_map_add_perm l1 l2 :
  l1 ≡ₚ l2 ->
  forall m,
    fold_left (map_add commonWords) l1 m = fold_left (map_add commonWords) l2 m.
Proof.
  induction 1 as [|e l1 l2 _ IH|a b l|l1 l2 l3 _ IH1 _ IH2]; intros m; simpl.
  - done.
  - apply IH.
  - by rewrite map_add_comm.
  - by rewrite IH1.
Qed.

(** ** Registries a run can reach *)

Lemma wf_table_nil : wf_table [].
Proof. split; [constructor|]. split; [done|constructor]. Qed.

Lemma wf_table_add T x :
  wf_table T -> is_array_index x = false -> wf_table (table_add T x).
Proof.
  intros (Hnd & Hv & Hk) Hx. unfold table_add, table_has.
  destruct (inherited x) eqn:Hi; simpl; [done|].
  destruct (own_get T x) as [v|] eqn:E.
  - destruct (negb (jseqb v [])); [done|].
    split; [by apply obj_set_NoDup|]. split.
    + intros k w. destruct (decide (x = k)) as [->|Hne].
      * rewrite own_get_obj_set_eq. by intros [= ->].
      * rewrite own_get_obj_set_ne by done. apply Hv.
    + by erewrite obj_set_keys_present.
  - split; [by apply obj_set_NoDup|]. split.
    + intros k w. destruct (decide (x = k)) as [->|Hne].
      * rewrite own_get_obj_set_eq. by intros [= ->].
      * rewrite own_get_obj_set_ne by done. apply Hv.
    + rewrite obj_set_keys, E. apply Forall_app. split; [done|].
      by repeat constructor.
Qed.

Lemma wf_registry_nil : wf_registry [].
Proof. split; [constructor|done]. Qed.

Lemma wf_registry_set (localeMap : registry) ns T :
  wf_registry localeMap -> wf_table T ->
  wf_registry (obj_set localeMap ns T).
Proof.
  intros [Hnd Ht] HT. split; [by apply obj_set_NoDup|].
  intros ns' T'. destruct (decide (ns = ns')) as [->|Hne].
  - rewrite own_get_obj_set_eq. by intros [= <-].
  - rewrite own_get_obj_set_ne by done. apply Ht.
Qed.

Lemma wf_addLocale moduleName text (localeMap : registry) :
  wf_registry localeMap -> is_array_index text = false ->
  wf_registry (addLocale commonWords moduleName text localeMap).
Proof.
  intros Hwf Hx. rewrite addLocale_unfold.
  destruct (own_get localeMap _) as [T|] eqn:E.
  - apply wf_registry_set; [done|]. apply wf_table_add; [|done].
    by apply (proj2 Hwf) in E.
  - destruct (inherited _); [done|].
    apply wf_registry_set; [done|]. apply wf_table_add; [|done].
    apply wf_table_nil.
Qed.

Lemma wf_record_all l (localeMap : registry) :
  wf_registry localeMap ->
  Forall (fun e => is_array_index (snd e) = false) l ->
  wf_registry (record_all commonWords l localeMap).
Proof.
  intros Hwf Hl. revert localeMap Hwf.
  induction Hl as [|e l He Hl IH]; intros m Hwf; simpl; [done|].
  apply IH. by apply wf_addLocale.
Qed.
End RegistryFacts.

(** * The default order of [sort] *)

Lemma js_ltb_cotrans a b c :
  js_ltb a c = true -> js_ltb a b = true \/ js_ltb b c = true.
Proof.
  revert b c. induction a as [|x a IH]; intros [|y b] [|z c]; simpl;
    try (intros; (done || (by left) || (by right))).
  intros [H|[H1 H2]%andb_prop]%orb_prop.
  - apply N.ltb_lt in H.
    destruct (N.lt_trichotomy x y) as [Hxy|[->|Hxy]].
    + left. apply orb_true_iff. left. by apply N.ltb_lt.
    + right. apply orb_true_iff. left. by apply N.ltb_lt.
    + right. apply orb_true_iff. left. apply N.ltb_lt. lia.
  - apply N.eqb_eq in H1. subst z.
    destruct (N.lt_trichotomy x y) as [Hxy|[->|Hxy]].
    + left. apply orb_true_iff. left. by apply N.ltb_lt.
    + destruct (IH b c H2) as [H|H].
      * left. rewrite N.eqb_refl. simpl. rewrite H. apply orb_true_r.
      * right. rewrite N.eqb_refl. simpl. rewrite H. apply orb_true_r.
    + right. apply orb_true_iff. left. by apply N.ltb_lt.
Qed.

Lemma js_ltb_trichotomy a b :
  js_ltb a b = false -> js_ltb b a = false -> a = b.
Proof.
  revert b. induction a as [|x a IH]; intros [|y b]; simpl; try done.
  intros [H1 H2]%orb_false_elim [H3 H4]%orb_false_elim.
  apply N.ltb_ge in H1, H3. assert (x = y) as -> by lia.
  rewrite N.eqb_refl in H2, H4. simpl in *. f_equal. by apply IH.
Qed.

Lemma js_ltb_asym a b : js_ltb a b = true -> js_ltb b a = false.
Proof.
  revert b. induction a as [|x a IH]; intros [|y b]; simpl; try done.
  intros [H|[H1 H2]%andb_prop]%orb_prop.
  - apply N.ltb_lt in H. apply orb_false_intro; [apply N.ltb_ge; lia|].
    apply andb_false_intro1. apply N.eqb_neq. lia.
  - apply N.eqb_eq in H1. subst y. rewrite N.ltb_irrefl, N.eqb_refl. simpl.
    by apply IH.
Qed.

Global Instance js_le_trans : Transitive js_le.
Proof.
  intros a b c. unfold js_le, js_leb. rewrite !negb_true_iff.
  intros Hab Hbc. destruct (js_ltb c a) eqn:E; [|done].
  destruct (js_ltb_cotrans c b a E); congruence.
Qed.

Global Instance js_le_antisym : AntiSymm (=) js_le.
Proof.
  intros a b. unfold js_le, js_leb. rewrite !negb_true_iff.
  intros Hab Hba. by apply js_ltb_trichotomy.
Qed.

Lemma js_le_total a b : js_leb a b = false -> js_le b a.
Proof.
  unfold js_le, js_leb. rewrite negb_false_iff, negb_true_iff.
  apply js_ltb_asym.
Qed.

Lemma js_le_neq_lt a b : js_le a b -> a <> b -> js_lt a b.
Proof.
  unfold js_le, js_lt, js_leb. rewrite negb_true_iff. intros H Hne.
  destruct (js_ltb a b) eqn:E; [done|].
  destruct Hne. by apply js_ltb_trichotomy.
Qed.

Lemma sort_insert_perm k l : sort_insert k l ≡ₚ k :: l.
Proof.
  induction l as [|k' l IH]; simpl; [done|].
  destruct (js_leb k k'); [done|]. rewrite IH. apply Permutation_swap.
Qed.

Lemma Array_sort_perm l : Array_sort l ≡ₚ l.
Proof.
  induction l as [|k l IH]; simpl; [done|].
  by rewrite sort_insert_perm, IH.
Qed.

Lemma sort_insert_sorted k l :
  StronglySorted js_le l -> StronglySorted js_le (sort_insert k l).
Proof.
  induction 1 as [|k' l Hs IH Hall]; simpl.
  - repeat constructor.
  - destruct (js_leb k k') eqn:E.
    + constructor; [by constructor|].
      constructor; [done|].
      eapply Forall_impl; [exact Hall|]. intros z Hz. by trans k'.
    + constructor; [done|].
      rewrite sort_insert_perm. constructor; [|done].
      by apply js_le_total.
Qed.

Lemma Array_sort_sorted l : StronglySorted js_le (Array_sort l).
Proof.
  induction l as [|k l IH]; simpl; [constructor|].
  by apply sort_insert_sorted.
Qed.

Lemma StronglySorted_le_lt l :
  NoDup l -> StronglySorted js_le l -> StronglySorted js_lt l.
Proof.
  intros Hnd Hs. induction Hs as [|k l Hs IH Hall]; [constructor|].
  apply NoDup_cons in Hnd as [Hk Hnd].
  constructor; [by apply IH|].
  apply Forall_forall. intros z Hz.
  apply js_le_neq_lt; [by eapply Forall_forall in Hall|].
  intros ->. done.
Qed.

Lemma Array_sort_strict l : NoDup l -> StronglySorted js_lt (Array_sort l).
Proof.
  intros Hnd. apply StronglySorted_le_lt; [|apply Array_sort_sorted].
  by rewrite Array_sort_perm.
Qed.

Lemma Array_sort_unique l1 l2 : l1 ≡ₚ l2 -> Array_sort l1 = Array_sort l2.
Proof.
  intros Hp. apply (StronglySorted_unique js_le);
    [apply Array_sort_sorted..|].
  by rewrite !Array_sort_perm.
Qed.

(** * The documents of [writeLocaleFiles] *)

Lemma own_keys_identity_table keys : own_keys (identity_table keys) = keys.
Proof.
  unfold own_keys, identity_table. rewrite map_map. simpl. apply map_id.
Qed.

Lemma sorted_fold (T : jsobject jsstring) ks acc :
  NoDup (own_keys acc ++ ks) ->
  Forall (fun k => inherited k = false /\ own_get T k = Some k) ks ->
  fold_left
    (fun acc key =>
       if jseqb key (u "__proto__") then acc
       else obj_set acc key
              (match own_get T key with Some v => v | None => [] end))
    ks acc
  = acc ++ identity_table ks.
Proof.
  intros Hnd Hks. revert acc Hnd.
  induction Hks as [|k ks [Hi Hk] Hks IH]; intros acc Hnd;
    cbn [fold_left].
  - unfold identity_table. simpl. by rewrite app_nil_r.
  - assert (jseqb k (u "__proto__") = false) as ->.
    { destruct (jseqb k (u "__proto__")) eqn:E; [|done].
      apply jseqb_eq in E. subst. by vm_compute in Hi. }
    rewrite Hk. assert (own_get acc k = None) as Hnone.
    { apply own_get_None. apply NoDup_app in Hnd as (_ & Hd & _).
      intros Hin. apply (Hd k Hin). left. }
    rewrite obj_set_absent by done. rewrite IH.
    + unfold identity_table. simpl. by rewrite <- app_assoc.
    + unfold own_keys in *. rewrite map_app. simpl.
      by rewrite <- app_assoc.
Qed.

Lemma wf_table_keys T k :
  wf_table T -> k ∈ own_keys T -> own_get T k = Some k.
Proof.
  intros (Hnd & Hv & _) Hin.
  destruct (own_get T k) as [v|] eqn:E.
  - by rewrite (Hv k v E).
  - by apply own_get_None in E.
Qed.

Lemma sorted_table_wf T :
  wf_table T ->
  sorted_table T = identity_table (Array_sort (own_keys T)).
Proof.
  intros HT. pose proof HT as (Hnd & Hv & Hk).
  unfold sorted_table, Object_keys.
  rewrite Object_entries_plain.
  2:{ eapply Forall_impl; [exact Hk|]. by intros k [? _]. }
  change (map fst T) with (own_keys T).
  rewrite sorted_fold; [done| |].
  - simpl. by rewrite Array_sort_perm.
  - apply Forall_forall. intros k Hin. rewrite Array_sort_perm in Hin.
    split; [|by apply wf_table_keys].
    eapply Forall_forall in Hk; [|done]. apply Hk.
Qed.

Lemma json_of_sorted_table T :
  wf_table T ->
  json_of_table (sorted_table T) = document (Array_sort (own_keys T)).
Proof.
  intros HT. rewrite sorted_table_wf by done.
  unfold json_of_table, document. rewrite Object_entries_plain.
  - unfold identity_table. by rewrite map_map.
  - rewrite own_keys_identity_table.
    apply Forall_forall. intros k Hin. rewrite Array_sort_perm in Hin.
    destruct HT as (_ & _ & Hk). eapply Forall_forall in Hk; [|done].
    apply Hk.
Qed.

Lemma wf_registry_elem (localeMap : registry) e :
  wf_registry localeMap -> e ∈ localeMap -> wf_table (snd e).
Proof.
  intros [Hnd Ht] Hin. destruct e as [ns T]. apply (Ht ns).
  by apply elem_of_own_get.
Qed.

Lemma writeLocaleFiles_wf (localeMap : registry) :
  wf_registry localeMap ->
  writeLocaleFiles localeMap = map locale_file (Object_entries localeMap).
Proof.
  intros Hwf. unfold writeLocaleFiles. apply map_ext_in.
  intros e Hin. unfold locale_file. rewrite json_of_sorted_table; [done|].
  apply (wf_registry_elem localeMap); [done|].
  apply list_elem_of_In in Hin. by rewrite Object_entries_perm in Hin.
Qed.

(** Two registries with the same map view are written to the same
    files. *)
Lemma locale_file_map_view (localeMap1 localeMap2 : registry) :
  wf_registry localeMap1 -> wf_registry localeMap2 ->
  registry_map localeMap1 = registry_map localeMap2 ->
  map locale_file localeMap1 ≡ₚ map locale_file localeMap2.
Proof.
  intros Hwf1 Hwf2 Heq.
  set (view := fun e : jsstring * jsobject jsstring =>
                 (fst e, table_map (snd e))).
  set (file := fun e : jsstring * gmap jsstring jsstring =>
                 (fst e ++ u ".json",
                  JObject [(fst e, document
                    (Array_sort (map fst (map_to_list (snd e)))))])).
  assert (forall m : registry, wf_registry m ->
            map locale_file m = map file (map view m)) as Hfile.
  { intros m Hm. rewrite map_map. apply map_ext_in. intros e Hin.
    apply list_elem_of_In in Hin.
    pose proof (wf_registry_elem m e Hm Hin) as (Hnd & _).
    unfold locale_file, file, view. simpl. do 5 f_equal.
    apply Array_sort_unique. unfold table_map, own_keys.
    apply Permutation_map. symmetry. by apply map_to_list_to_map. }
  rewrite (Hfile _ Hwf1), (Hfile _ Hwf2). apply Permutation_map.
  apply (list_to_map_inj (M := gmap jsstring)); [| |exact Heq].
  - destruct Hwf1 as [Hnd _]. unfold own_keys in Hnd.
    by rewrite <- list_fmap_compose.
  - destruct Hwf2 as [Hnd _]. unfold own_keys in Hnd.
    by rewrite <- list_fmap_compose.
Qed.

(** Every text the rewriters record holds a character of the class of
    [zhPunctReg]; such a text is neither an array index nor the name of
    an inherited property. *)
Lemma extracted_text_plain text :
  existsb zh_punct text = true -> plain_key text.
Proof.
  intros H. split.
  - destruct (is_array_index text) eqn:E; [|done].
    destruct text as [|c text]; [done|].
    unfold is_array_index in E.
    apply andb_prop in E as [[E _]%andb_prop _].
    apply existsb_exists in H as (x & Hin & Hx).
    rewrite forallb_forall in E. specialize (E x Hin).
    unfold digit, zh_punct, zh, one_of, in_range in *.
    change (ch "0") with 48 in E. change (ch "9") with 57 in E.
    change (ch ":") with 58 in Hx. change (ch ",") with 44 in Hx.
    change (ch "!") with 33 in Hx. simpl in Hx.
    apply andb_prop in E as [E1 E2]. apply N.leb_le in E1, E2.
    rewrite !orb_true_iff, andb_true_iff, !N.eqb_eq, !N.leb_le in Hx. lia.
  - destruct (inherited text) eqn:E; [|done].
    unfold inherited in E. apply existsb_exists in E as (name & Hin & Hn).
    apply jseqb_eq in Hn. subst name.
    unfold Object_prototype_names in Hin. simpl in Hin.
    repeat (destruct Hin as [<-|Hin]; [by vm_compute in H|]).
    done.
Qed.

(** * Matches and replacements *)

Lemma firstn_length_diff {A} (a b : list A) :
  firstn (length (a ++ b) - length b) (a ++ b) = a.
Proof.
  rewrite length_app.
  replace (length a + length b - length b)%nat with (length a) by lia.
  by rewrite firstn_app, Nat.sub_diag, firstn_all, firstn_O, app_nil_r.
Qed.

Lemma star_greedy_app p k run rest c res :
  forallb p run = true ->
  star_greedy p k rest c = Some res ->
  star_greedy p k (run ++ rest) c = Some res.
Proof.
  intros Hrun Hrest. induction run as [|x run IH]; simpl; [done|].
  simpl in Hrun. apply andb_prop in Hrun as [-> Hrun].
  by rewrite IH.
Qed.

Lemma star_greedy_stop p k b c : stops p b -> star_greedy p k b c = k b c.
Proof. destruct b as [|x b]; simpl; [done|]. by intros ->. Qed.

Lemma commits_Chr a b c : commits (Chr a) [a] b c c.
Proof. intros k res Hk. simpl. by rewrite N.eqb_refl. Qed.

Lemma commits_Cls p x b c : p x = true -> commits (Cls p) [x] b c c.
Proof. intros Hp k res Hk. simpl. by rewrite Hp. Qed.

Lemma commits_Star p run b c :
  forallb p run = true -> stops p b -> commits (Star p) run b c c.
Proof.
  intros Hrun Hb k res Hk. simpl. apply star_greedy_app; [done|].
  by rewrite star_greedy_stop.
Qed.

Lemma commits_Plus p x run b c :
  p x = true -> forallb p run = true -> stops p b ->
  commits (Plus p) (x :: run) b c c.
Proof.
  intros Hx Hrun Hb k res Hk. unfold Plus. simpl. rewrite Hx.
  apply star_greedy_app; [done|]. by rewrite star_greedy_stop.
Qed.

Lemma commits_Seq r1 r2 a1 a2 b c c1 c2 :
  commits r1 a1 (a2 ++ b) c c1 -> commits r2 a2 b c1 c2 ->
  commits (r1 ~~ r2) (a1 ++ a2) b c c2.
Proof.
  intros H1 H2 k res Hk. simpl. rewrite <- app_assoc.
  apply H1. by apply H2.
Qed.

Lemma commits_Grp i r a b c c1 :
  commits r a b c c1 -> commits (Grp i r) a b c ((i, a) :: c1).
Proof.
  intros H k res Hk. cbn [rmatch]. apply H.
  by rewrite firstn_length_diff.
Qed.

Lemma startsWith_app t b : startsWith (t ++ b) t = true.
Proof.
  induction t as [|x t IH]; simpl; [by destruct b|]. by rewrite N.eqb_refl.
Qed.


Lemma commits_exec r a b c' :
  commits r a b [] c' -> exec_at r (a ++ b) = Some (length a, c').
Proof.
  intros H. unfold exec_at. apply H. do 2 f_equal.
  rewrite length_app. lia.
Qed.

(** ** Soundness of the matcher *)

Lemma star_greedy_sound p (k : cont) s c res :
  star_greedy p k s c = Some res ->
  exists run b, s = run ++ b /\ forallb p run = true /\ k b c = Some res.
Proof.
  induction s as [|x s IH]; simpl.
  - intros H. by exists [], [].
  - destruct (p x) eqn:Hp.
    + destruct (star_greedy p k s c) as [r|] eqn:E.
      * intros [= ->]. destruct (IH eq_refl) as (run & b & -> & Hrun & Hk).
        exists (x :: run), b. simpl. by rewrite Hp.
      * intros H. by exists [], (x :: s).
    + intros H. by exists [], (x :: s).
Qed.

Lemma star_lazy_sound p (k : cont) s c res :
  star_lazy p k s c = Some res ->
  exists run b, s = run ++ b /\ forallb p run = true /\ k b c = Some res.
Proof.
  induction s as [|x s IH]; simpl.
  - destruct (k [] c) eqn:E; [|done]. intros [= ->]. by exists [], [].
  - destruct (k (x :: s) c) eqn:E.
    + intros [= ->]. by exists [], (x :: s).
    + destruct (p x) eqn:Hp; [|done].
      intros H. destruct (IH H) as (run & b & -> & Hrun & Hk).
      exists (x :: run), b. simpl. by rewrite Hp.
Qed.

Lemma startsWith_split s t :
  startsWith s t = true -> s = t ++ skipn (length t) s.
Proof.
  revert s. induction t as [|y t IH]; intros s; simpl; [by destruct s|].
  destruct s as [|x s]; [done|].
  intros [->%N.eqb_eq H]%andb_prop. simpl. f_equal. by apply IH.
Qed.

(** Whatever the matcher returns comes from a match and from the
    continuation. *)
Lemma rmatch_sound r (k : cont) s c res :
  rmatch r k s c = Some res ->
  exists a b c', s = a ++ b /\ matches r c a b c' /\ k b c' = Some res.
Proof.
  revert k s c res.
  induction r as [a|p|p|p|r1 IH1 r2 IH2|i r IH|i|]; intros k s c res H;
    cbn [rmatch] in H.
  - destruct s as [|x s]; [done|]. destruct (x =? a) eqn:E; [|done].
    apply N.eqb_eq in E. subst. exists [a], s, c. split; [done|].
    split; [constructor|done].
  - destruct s as [|x s]; [done|]. destruct (p x) eqn:E; [|done].
    exists [x], s, c. split; [done|]. split; [by constructor|done].
  - apply star_greedy_sound in H as (run & b & -> & Hrun & Hk).
    exists run, b, c. split; [done|]. split; [by constructor|done].
  - apply star_lazy_sound in H as (run & b & -> & Hrun & Hk).
    exists run, b, c. split; [done|]. split; [by constructor|done].
  - apply IH1 in H as (a1 & b1 & c1 & -> & H1 & H).
    apply IH2 in H as (a2 & b & c2 & -> & H2 & H).
    exists (a1 ++ a2), b, c2. split; [by rewrite app_assoc|].
    split; [by econstructor|done].
  - apply IH in H as (a & b & c1 & -> & H1 & H).
    rewrite firstn_length_diff in H.
    exists a, b, ((i, a) :: c1). split; [done|].
    split; [by constructor|done].
  - destruct (get_cap c i) as [t|] eqn:E.
    + destruct (startsWith s t) eqn:Hs; [|done].
      exists t, (skipn (length t) s), c. split; [by apply startsWith_split|].
      split; [by constructor|done].
    + exists [], s, c. split; [done|]. split; [by constructor|done].
  - destruct s; [|done]. exists [], [], c. split; [done|].
    split; [constructor|done].
Qed.

Lemma exec_at_sound r s len c' :
  exec_at r s = Some (len, c') ->
  exists a b, s = a ++ b /\ matches r [] a b c' /\ len = length a.
Proof.
  unfold exec_at. intros H.
  apply rmatch_sound in H as (a & b & c1 & -> & Hm & [= <- <-]).
  exists a, b. split; [done|]. split; [done|].
  rewrite length_app. lia.
Qed.

Section ReplaceFacts.
Context {St : Type}.
Variable r : regex.
Variable f : jsstring -> captures -> St -> jsstring * St.

Lemma replace_from_skip m post st :
  replace_from r f (m ++ post) (length m) st = replace_from r f post 0 st.
Proof. induction m as [|x m IH]; simpl; [by destruct post|done]. Qed.

(** A match at the start is replaced and the scan goes on behind it. *)
Lemma replace_all_match m post c st :
  m <> [] ->
  exec_at r (m ++ post) = Some (length m, c) ->
  replace_all r f (m ++ post) st =
  let '(rep, st1) := f m c st in
  let '(out, st2) := replace_all r f post st1 in
  (rep ++ out, st2).
Proof.
  intros Hm He. unfold replace_all. destruct m as [|x m]; [done|].
  cbn [app replace_from]. cbn [app] in He. rewrite He.
  change (x :: m ++ post) with ((x :: m) ++ post).
  rewrite firstn_app, Nat.sub_diag, firstn_all, firstn_O, app_nil_r.
  destruct (f (x :: m) c st) as [rep st1].
  cbn [length]. by rewrite replace_from_skip.
Qed.

Lemma replace_all_skip x s st :
  exec_at r (x :: s) = None ->
  replace_all r f (x :: s) st =
  let '(out, st1) := replace_all r f s st in (x :: out, st1).
Proof. intros He. unfold replace_all. simpl. by rewrite He. Qed.

(** A text in which no match starts is copied. *)
Lemma replace_all_before before rest st :
  (forall b1 x b2,
     before = b1 ++ x :: b2 -> exec_at r ((x :: b2) ++ rest) = None) ->
  replace_all r f (before ++ rest) st =
  let '(out, st1) := replace_all r f rest st in (before ++ out, st1).
Proof.
  induction before as [|x before IH]; intros H.
  - simpl. by destruct (replace_all r f rest st).
  - cbn [app]. rewrite replace_all_skip by (by apply (H [])).
    rewrite IH; [by destruct (replace_all r f rest st)|].
    intros b1 y b2 ->. by apply (H (x :: b1)).
Qed.

(** So is a prefix none of whose characters can start a match. *)
Lemma replace_all_prefix (p : N -> bool) pre rest st :
  (forall x s, p x = true -> exec_at r (x :: s) = None) ->
  forallb p pre = true ->
  replace_all r f (pre ++ rest) st =
  let '(out, st1) := replace_all r f rest st in (pre ++ out, st1).
Proof.
  intros Hp Hpre. apply replace_all_before. intros b1 x b2 ->.
  apply Hp. rewrite forallb_app in Hpre. simpl in Hpre.
  by apply andb_prop in Hpre as [_ [? _]%andb_prop].
Qed.

(** A text in which every match lies inside the text and is replaced
    by itself, the state being kept, is copied. *)
Lemma replace_all_copy before rest st :
  (forall b1 x b2,
     before = b1 ++ x :: b2 ->
     exec_at r ((x :: b2) ++ rest) = None
     \/ exists m l c,
          x :: b2 = m ++ l /\ m <> []
          /\ exec_at r ((x :: b2) ++ rest) = Some (length m, c)
          /\ f m c st = (m, st)) ->
  replace_all r f (before ++ rest) st =
  let '(out, st1) := replace_all r f rest st in (before ++ out, st1).
Proof.
  remember (length before) as n eqn:Hn.
  revert before Hn. induction (lt_wf n) as [n _ IH]. intros before -> H.
  destruct before as [|x before].
  { simpl. by destruct (replace_all r f rest st). }
  destruct (H [] x before eq_refl) as [He|(m & l & c & Hml & Hm & He & Hf)].
  - rewrite <- app_comm_cons, replace_all_skip by done.
    rewrite (IH (length before));
      [by destruct (replace_all r f rest st)| |done|].
    + simpl. lia.
    + intros b1 y b2 ->. by apply (H (x :: b1)).
  - rewrite Hml in He |- *. rewrite <- app_assoc in He |- *.
    rewrite (replace_all_match m (l ++ rest) c st Hm He), Hf.
    rewrite (IH (length l));
      [destruct (replace_all r f rest st) as [out st1];
       by rewrite <- app_assoc| |done|].
    + rewrite Hml, length_app. destruct m; [done|]. simpl. lia.
    + intros b1 y b2 ->.
      apply (H (m ++ b1)). by rewrite Hml, <- app_assoc.
Qed.
End ReplaceFacts.

(** ** Where the scan stands *)

Section ScanFacts.
Context {St : Type}.
Variable r : regex.
Variable f : jsstring -> captures -> St -> jsstring * St.

(** Where the scan stands, the replacement is what the scan has
    written followed by the replacement of the rest. *)
Lemma replace_from_scan before rest skip st out0 st0 :
  scan_from r f before rest skip st = Some (out0, st0) ->
  replace_from r f (before ++ rest) skip st
  = let '(out, st1) := replace_from r f rest 0 st0 in (out0 ++ out, st1).
Proof.
  revert skip st out0 st0.
  induction before as [|x before IH]; intros skip st out0 st0.
  - cbn [scan_from app]. destruct skip; [|done]. intros [= <- <-].
    by destruct (replace_from r f rest 0 st).
  - cbn [scan_from app replace_from]. destruct skip as [|n].
    + destruct (exec_at r (x :: before ++ rest)) as [[len c]|].
      * destruct (f _ c st) as [rep st1]. destruct len as [|n].
        -- destruct (scan_from r f before rest 0 st1) as [[o s]|] eqn:E;
             [|done].
           intros [= <- <-]. rewrite (IH _ _ _ _ E).
           destruct (replace_from r f rest 0 s) as [out st2].
           by rewrite <- app_assoc.
        -- destruct (scan_from r f before rest n st1) as [[o s]|] eqn:E;
             [|done].
           intros [= <- <-]. rewrite (IH _ _ _ _ E).
           destruct (replace_from r f rest 0 s) as [out st2].
           by rewrite <- app_assoc.
      * destruct (scan_from r f before rest 0 st) as [[o s]|] eqn:E;
          [|done].
        intros [= <- <-]. rewrite (IH _ _ _ _ E).
        by destruct (replace_from r f rest 0 s) as [out st2].
    + apply IH.
Qed.

Lemma replace_all_scan before rest st out0 st0 :
  scan_before r f before rest st = Some (out0, st0) ->
  replace_all r f (before ++ rest) st
  = let '(out, st1) := replace_all r f rest st0 in (out0 ++ out, st1).
Proof. apply replace_from_scan. Qed.

(** The scan copies a text in which no match starts. *)
Lemma scan_before_unmatched before rest st :
  (forall b1 x b2,
     before = b1 ++ x :: b2 -> exec_at r ((x :: b2) ++ rest) = None) ->
  scan_before r f before rest st = Some (before, st).
Proof.
  unfold scan_before. induction before as [|x before IH]; intros H; [done|].
  cbn [scan_from]. rewrite (H [] x before eq_refl).
  rewrite IH; [done|]. intros b1 y b2 ->. by apply (H (x :: b1)).
Qed.

(** The scan takes a match that lies in the text and goes on behind
    it. *)
Lemma scan_before_match m before rest c st :
  m <> [] ->
  exec_at r (m ++ before ++ rest) = Some (length m, c) ->
  scan_before r f (m ++ before) rest st
  = let '(rep, st1) := f m c st in
    match scan_before r f before rest st1 with
    | Some (out, st2) => Some (rep ++ out, st2)
    | None => None
    end.
Proof.
  intros Hm He. unfold scan_before. destruct m as [|x m]; [done|].
  cbn [app scan_from]. rewrite <- app_assoc. cbn [app] in He. rewrite He.
  change (x :: m ++ before ++ rest) with ((x :: m) ++ before ++ rest).
  rewrite firstn_app, Nat.sub_diag, firstn_all, firstn_O, app_nil_r.
  destruct (f (x :: m) c st) as [rep st1]. cbn [length].
  assert (forall k st', scan_from r f (k ++ before) rest (length k) st'
                        = scan_from r f before rest 0 st') as Hk.
  { induction k as [|y k IHk]; intros st'; [by destruct before|].
    cbn [app length scan_from]. apply IHk. }
  by rewrite Hk.
Qed.
(** A scan that stands behind [a] goes on in [b]. *)
Lemma scan_from_app a b rest skip st out st1 :
  scan_from r f a (b ++ rest) skip st = Some (out, st1) ->
  scan_from r f (a ++ b) rest skip st
  = match scan_from r f b rest 0 st1 with
    | Some (out', st2) => Some (out ++ out', st2)
    | None => None
    end.
Proof.
  revert skip st out st1.
  induction a as [|x a IH]; intros skip st out st1.
  - cbn [scan_from app]. destruct skip; [|done]. intros [= <- <-].
    by destruct (scan_from r f b rest 0 st) as [[o s]|].
  - cbn [scan_from app]. rewrite <- app_assoc. destruct skip as [|n].
    + destruct (exec_at r (x :: a ++ b ++ rest)) as [[len c]|].
      * destruct (f _ c st) as [rep s1]. destruct len as [|n].
        -- destruct (scan_from r f a (b ++ rest) 0 s1) as [[o s]|] eqn:E;
             [|done].
           intros [= <- <-]. rewrite (IH _ _ _ _ E).
           destruct (scan_from r f b rest 0 s) as [[o' s']|]; [|done].
           by rewrite <- app_assoc.
        -- destruct (scan_from r f a (b ++ rest) n s1) as [[o s]|] eqn:E;
             [|done].
           intros [= <- <-]. rewrite (IH _ _ _ _ E).
           destruct (scan_from r f b rest 0 s) as [[o' s']|]; [|done].
           by rewrite <- app_assoc.
      * destruct (scan_from r f a (b ++ rest) 0 st) as [[o s]|] eqn:E;
          [|done].
        intros [= <- <-]. rewrite (IH _ _ _ _ E).
        by destruct (scan_from r f b rest 0 s) as [[o' s']|].
    + apply IH.
Qed.
End ScanFacts.

(** ** Matches of [attrReg] *)

Lemma value_tail_commits (k : cont) t post c res :
  forallb (none_of [DQ]) t = true ->
  k (DQ :: post) c = Some res ->
  star_greedy zh (star_greedy (none_of [DQ]) k) (t ++ DQ :: post) c = Some res.
Proof.
  intros Ht Hk. induction t as [|x t IH]; simpl.
  - exact Hk.
  - simpl in Ht. apply andb_prop in Ht as [Hx Ht].
    destruct (zh x).
    + by rewrite IH.
    + rewrite Hx.
      rewrite (star_greedy_app _ _ t (DQ :: post) c res); [done|done|].
      exact Hk.
Qed.

(** The value of an attribute: the first star gives characters back
    until a target character follows. *)
Lemma value_commits value post c :
  forallb (none_of [DQ]) value = true ->
  existsb zh value = true ->
  commits (Star (none_of [DQ]) ~~ Plus zh ~~ Star (none_of [DQ]))
    value (DQ :: post) c c.
Proof.
  intros Hv Hz k res Hk.
  change (rmatch (Star (none_of [DQ]) ~~ Plus zh ~~ Star (none_of [DQ])) k)
    with (star_greedy (none_of [DQ])
            (rmatch (Plus zh ~~ Star (none_of [DQ])) k)).
  set (K := rmatch (Plus zh ~~ Star (none_of [DQ])) k).
  assert (forall x s, K (x :: s) c =
            if zh x then star_greedy zh (star_greedy (none_of [DQ]) k) s c
            else None) as HK by done.
  assert (forall t, forallb (none_of [DQ]) t = true ->
            existsb zh t = false ->
            star_greedy (none_of [DQ]) K (t ++ DQ :: post) c = None) as Hnone.
  { induction t as [|y t IH]; intros Ht E.
    - simpl. by rewrite HK.
    - simpl in Ht, E. apply andb_prop in Ht as [Hy Ht].
      apply orb_false_elim in E as [Hzy E].
      cbn [app star_greedy]. rewrite Hy, (IH Ht E). by rewrite HK, Hzy. }
  induction value as [|x value IH]; [done|].
  simpl in Hv, Hz. apply andb_prop in Hv as [Hx Hv].
  cbn [app star_greedy]. rewrite Hx.
  destruct (existsb zh value) eqn:E.
  - by rewrite IH.
  - rewrite orb_false_r in Hz. rewrite (Hnone value Hv E), HK, Hz.
    by apply value_tail_commits.
Qed.

Lemma attrReg_commits w n name value post :
  ws w = true ->
  forallb name_char (n :: name) = true ->
  forallb (none_of [DQ]) value = true ->
  existsb zh value = true ->
  commits attrReg
    ([w] ++ (n :: name) ++ [61] ++ [DQ] ++ value ++ [DQ]) post []
    [(3%nat, value); (2%nat, n :: name); (1%nat, [w])].
Proof.
  intros Hw Hn Hv Hz. unfold attrReg.
  simpl in Hn. apply andb_prop in Hn as [Hn Hname].
  eapply commits_Seq; [by apply commits_Grp, commits_Cls|].
  eapply commits_Seq.
  { apply commits_Grp, commits_Plus; done. }
  eapply commits_Seq; [apply commits_Chr|].
  eapply commits_Seq; [apply commits_Chr|].
  eapply commits_Seq; [|apply commits_Chr].
  apply commits_Grp. by apply value_commits.
Qed.

(** ** Trimming keeps the target characters *)

Lemma zh_not_ws c : zh c = true -> ws c = false.
Proof.
  unfold zh, ws, in_range. intros [H1 H2]%andb_prop.
  apply N.leb_le in H1, H2.
  repeat (apply orb_false_intro);
    try (apply andb_false_iff; (left; apply N.leb_gt; lia)
                               || (right; apply N.leb_gt; lia));
    try (apply N.eqb_neq; lia).
Qed.

Lemma trimStart_zh s : existsb zh s = true -> existsb zh (trimStart s) = true.
Proof.
  induction s as [|x s IH]; simpl; [done|].
  destruct (ws x) eqn:Hw; [|done].
  destruct (zh x) eqn:Hz; [|done].
  apply zh_not_ws in Hz. congruence.
Qed.

Lemma existsb_rev {A} (p : A -> bool) l : existsb p (rev l) = existsb p l.
Proof.
  induction l as [|x l IH]; simpl; [done|].
  rewrite existsb_app, IH. simpl. rewrite orb_false_r. apply orb_comm.
Qed.

Lemma trim_zh s : existsb zh s = true -> existsb zh (trim s) = true.
Proof.
  intros H. unfold trim, trimEnd. rewrite existsb_rev.
  apply trimStart_zh. rewrite existsb_rev. by apply trimStart_zh.
Qed.

Lemma trim_zh_nonempty s : existsb zh s = true -> jseqb (trim s) [] = false.
Proof.
  intros H. apply trim_zh in H. by destruct (trim s).
Qed.

(** ** No match of [attrReg] before the first target character *)

(** What a match of [attrReg] looks like. *)
Lemma attrReg_inv a b c' :
  matches attrReg [] a b c' ->
  exists w name value,
    a = [w] ++ name ++ [61; DQ] ++ value ++ [DQ]
    /\ ws w = true /\ name <> [] /\ forallb name_char name = true
    /\ forallb (none_of [DQ]) value = true /\ existsb zh value = true.
Proof.
  unfold attrReg, Plus. intros H.
  repeat match goal with
         | H : matches (_ ~~ _) _ _ _ _ |- _ => inversion H; subst; clear H
         | H : matches (Grp _ _) _ _ _ _ |- _ => inversion H; subst; clear H
         | H : matches (Chr _) _ _ _ _ |- _ => inversion H; subst; clear H
         | H : matches (Cls _) _ _ _ _ |- _ => inversion H; subst; clear H
         | H : matches (Star _) _ _ _ _ |- _ => inversion H; subst; clear H
         end.
  match goal with
  | |- context [ [?w] ++ ([?n] ++ ?name) ++ _ ++ _
                   ++ (?v1 ++ ([?z] ++ ?v2) ++ ?v3) ++ _ ] =>
      exists w, (n :: name), (v1 ++ (z :: v2) ++ v3)
  end.
  split; [by norm_app|]. split; [done|]. split; [done|].
  split; [simpl; by rewrite andb_true_iff|].
  split.
  - rewrite !forallb_app. simpl.
    assert (forall y, zh y = true -> none_of [DQ] y = true) as Hz.
    { intros y Hy. unfold none_of, one_of. simpl.
      rewrite orb_false_r, negb_true_iff. apply N.eqb_neq. by intros ->. }
    repeat (apply andb_true_intro; split); auto.
    rewrite forallb_forall in *. auto.
  - rewrite !existsb_app. simpl.
    match goal with H : zh _ = true |- _ => rewrite H end.
    by rewrite orb_true_r.
Qed.

Lemma name_char_not_ws c : name_char c = true -> ws c = false.
Proof.
  unfold name_char, ws, in_range.
  change (ch "a") with 97. change (ch "z") with 122.
  change (ch "A") with 65. change (ch "Z") with 90.
  change (ch "0") with 48. change (ch "9") with 57.
  change (ch "-") with 45. change (ch "_") with 95. change (ch ":") with 58.
  rewrite !orb_true_iff, !andb_true_iff, !N.leb_le, !N.eqb_eq.
  intros H.
  repeat (apply orb_false_intro);
    rewrite ?andb_false_iff, ?N.leb_gt, ?N.eqb_neq; lia.
Qed.

Lemma name_char_not_zh c : name_char c = true -> zh c = false.
Proof.
  unfold name_char, zh, in_range.
  change (ch "a") with 97. change (ch "z") with 122.
  change (ch "A") with 65. change (ch "Z") with 90.
  change (ch "0") with 48. change (ch "9") with 57.
  change (ch "-") with 45. change (ch "_") with 95. change (ch ":") with 58.
  rewrite !orb_true_iff, !andb_true_iff, !N.leb_le, !N.eqb_eq.
  intros H. rewrite andb_false_iff, !N.leb_gt. lia.
Qed.

Lemma ws_not_zh c : ws c = true -> zh c = false.
Proof.
  intros H. destruct (zh c) eqn:E; [|done].
  apply zh_not_ws in E. congruence.
Qed.

(** A text without double quote in front of a double quote is a prefix
    of any other text in front of a double quote, when the whole is
    the same. *)
Lemma unquoted_prefix V b M R :
  forallb (none_of [DQ]) V = true ->
  V ++ DQ :: b = M ++ DQ :: R ->
  exists l, M = V ++ l.
Proof.
  intros HV H. apply app_eq_app in H as [l [[-> H]|[-> H]]].
  - destruct l as [|y l]; [exists []; by rewrite !app_nil_r|].
    injection H as Hy _. subst y. rewrite forallb_app in HV. simpl in HV.
    apply andb_prop in HV as [_ HV]. done.
  - by exists l.
Qed.

Lemma existsb_false_forall {A} (p : A -> bool) l :
  existsb p l = false <-> forallb (fun x => negb (p x)) l = true.
Proof.
  induction l as [|x l IH]; simpl; [done|].
  rewrite orb_false_iff, andb_true_iff, negb_true_iff. by rewrite IH.
Qed.

(** No match of [attrReg] starts in a text without target characters
    that comes before an attribute. *)
Lemma attrReg_no_early_match x b2 w name rest :
  existsb zh (x :: b2) = false ->
  ws w = true ->
  forallb name_char name = true ->
  exec_at attrReg ((x :: b2) ++ [w] ++ name ++ [61; DQ] ++ rest) = None.
Proof.
  intros Hb Hw Hname.
  destruct (exec_at attrReg _) as [[len c']|] eqn:E; [exfalso|done].
  apply exec_at_sound in E as (a & b & Hs & Hm & _).
  apply attrReg_inv in Hm as (w' & N & V & -> & Hw' & HN & HNc & HV & Hz).
  simpl in Hb. apply orb_false_elim in Hb as [_ Hb].
  cbn [app] in Hs. rewrite <- !app_assoc in Hs. cbn [app] in Hs.
  injection Hs as -> Hs.
  apply app_eq_app in Hs as [l [[-> Hs]|[-> Hs]]].
  - (* the name of the match ends inside the text before *)
    rewrite existsb_app in Hb. apply orb_false_elim in Hb as [_ Hb].
    destruct l as [|y1 [|y2 l]].
    + injection Hs as Hy _. subst w. done.
    + injection Hs as _ Hy _. subst w. done.
    + injection Hs as Hy1 Hy2 Hs. subst y1 y2. simpl in Hb.
      replace (l ++ w :: name ++ 61 :: DQ :: rest)
        with ((l ++ w :: name ++ [61]) ++ DQ :: rest) in Hs
        by (by norm_app).
      rewrite <- (app_assoc V) in Hs. cbn [app] in Hs.
      destruct (unquoted_prefix V b _ rest HV Hs) as [l' Hl].
      assert (existsb zh (l ++ w :: name ++ [61]) = true) as Hex.
      { rewrite Hl, existsb_app, Hz. done. }
      rewrite existsb_app in Hex. simpl in Hex.
      rewrite existsb_app in Hex. simpl in Hex.
      rewrite Hb, (ws_not_zh w Hw) in Hex. simpl in Hex.
      rewrite orb_false_r in Hex.
      apply existsb_exists in Hex as (y & Hy & Hzy).
      rewrite forallb_forall in Hname.
      rewrite (name_char_not_zh y (Hname y Hy)) in Hzy. done.
  - (* the name of the match reaches the white space *)
    destruct l as [|y l].
    + injection Hs as Hy _. subst w. done.
    + injection Hs as Hy _. subst y.
      rewrite forallb_app in HNc. simpl in HNc.
      apply andb_prop in HNc as [_ [Hc _]%andb_prop].
      apply name_char_not_ws in Hc. congruence.
Qed.

(** ** Matches of [quotedZhReg] and [mustacheReg] *)



Lemma quotedZhReg_no_match x s :
  (one_of [SQ; DQ] x && match s with y :: _ => zh y | [] => false end) = false ->
  exec_at quotedZhReg (x :: s) = None.
Proof.
  intros H. unfold exec_at, quotedZhReg. cbn [rmatch].
  destruct (one_of [SQ; DQ] x); [|done].
  destruct s as [|y s]; [done|]. simpl in H. by rewrite H.
Qed.

Lemma opens_literal_app_r a b :
  opens_literal (a ++ b) = false -> opens_literal b = false.
Proof.
  induction a as [|x a IH]; [done|]. intros H. apply IH.
  destruct (a ++ b) as [|y t] eqn:E; [done|].
  cbn [app opens_literal] in H. rewrite E in H.
  by apply orb_false_elim in H as [_ ?].
Qed.

Lemma opens_literal_app_l a b :
  opens_literal (a ++ b) = false -> opens_literal a = false.
Proof.
  induction a as [|x a IH]; [done|]. intros H.
  destruct a as [|y a]; [done|].
  cbn [app opens_literal] in H |- *.
  apply orb_false_elim in H as [-> H]. by apply IH.
Qed.

Section QuotedPrefix.
Context {St : Type}.
Variable f : jsstring -> captures -> St -> jsstring * St.


(** An expression in which no quote is directly followed by a target
    character is left as it is. *)
Lemma replace_quoted_copy E st :
  opens_literal E = false -> replace_all quotedZhReg f E st = (E, st).
Proof.
  intros HE.
  rewrite <- (app_nil_r E) at 1. rewrite replace_all_before.
  - unfold replace_all. simpl. by rewrite app_nil_r.
  - intros b1 x b2 ->. apply opens_literal_app_r in HE.
    rewrite app_nil_r. apply quotedZhReg_no_match.
    destruct b2 as [|y b2]; [apply andb_false_r|].
    cbn [opens_literal] in HE. by apply orb_false_elim in HE as [? _].
Qed.
End QuotedPrefix.



(** What a match of [mustacheReg] looks like. *)
Lemma mustacheReg_inv a b c' :
  matches mustacheReg [] a b c' ->
  exists E, a = [123; 123] ++ E ++ [125; 125] /\ c' = [(1%nat, E)]
            /\ forallb (none_of [123; 125]) E = true.
Proof.
  unfold mustacheReg. intros H.
  repeat match goal with
         | H : matches (_ ~~ _) _ _ _ _ |- _ => inversion H; subst; clear H
         | H : matches (Grp _ _) _ _ _ _ |- _ => inversion H; subst; clear H
         | H : matches (Chr _) _ _ _ _ |- _ => inversion H; subst; clear H
         | H : matches (Star _) _ _ _ _ |- _ => inversion H; subst; clear H
         end.
  eexists. split; [|split; [reflexivity|eassumption]]. done.
Qed.


Section InterpolationCopy.
Variable commonWords : list jsstring.

End InterpolationCopy.

(** * The serialised unit *)

Lemma trimEnd_keep s x : ws x = false -> trimEnd (s ++ [x]) = s ++ [x].
Proof.
  intros Hx. unfold trimEnd. rewrite rev_app_distr. simpl. rewrite Hx.
  simpl. by rewrite rev_involutive.
Qed.

Lemma trimEnd_drop s x : ws x = true -> trimEnd (s ++ [x]) = trimEnd s.
Proof.
  intros Hx. unfold trimEnd. rewrite rev_app_distr. simpl. by rewrite Hx.
Qed.

Lemma styleRegion_end style :
  exists front, styleRegion style = front ++ [62].
Proof.
  unfold styleRegion.
  exists (u "<style" ++ (if scoped style then u " scoped" else [])
          ++ match lang style with
             | Some l =>
                 if jseqb l [] then [] else u " lang=" ++ [DQ] ++ l ++ [DQ]
             | None => []
             end
          ++ u ">" ++ [LF] ++ content style ++ [LF] ++ u "</style").
  rewrite <- !app_assoc. do 6 f_equal.
Qed.

Lemma join_styles_end style styles :
  exists front,
    join [LF] (map styleRegion (style :: styles)) = front ++ [62].
Proof.
  revert style. induction styles as [|s2 styles IH]; intros style.
  - simpl. apply styleRegion_end.
  - destruct (IH s2) as [front Hf].
    exists (styleRegion style ++ [LF] ++ front).
    change (join [LF] (map styleRegion (style :: s2 :: styles)))
      with (styleRegion style ++ [LF]
            ++ join [LF] (map styleRegion (s2 :: styles))).
    rewrite Hf. by rewrite <- !app_assoc.
Qed.

(** [trim] takes the line feed at the start, and the line feeds at the
    end up to the last tag. *)
Lemma newContent_shape newScript newTemplate styles :
  newContent newScript newTemplate styles =
  unit_head newScript newTemplate
  ++ match styles with
     | [] => []
     | _ :: _ => [LF] ++ join [LF] (map styleRegion styles)
     end.
Proof.
  unfold newContent, trim.
  set (S := join [LF] (map styleRegion styles)).
  assert (exists front, unit_head newScript newTemplate = front ++ [62])
    as [hfront Hh].
  { exists (u "<script setup lang=" ++ [DQ] ++ u "ts" ++ [DQ] ++ u ">"
            ++ [LF] ++ newScript ++ [LF] ++ u "</script>" ++ [LF]
            ++ u "<template>" ++ [LF] ++ newTemplate ++ [LF]
            ++ u "</template").
    unfold unit_head. rewrite <- !app_assoc. do 12 f_equal. }
  replace ([LF] ++ u "<script setup lang=" ++ [DQ] ++ u "ts" ++ [DQ]
           ++ u ">" ++ [LF] ++ newScript ++ [LF] ++ u "</script>" ++ [LF]
           ++ u "<template>" ++ [LF] ++ newTemplate ++ [LF]
           ++ u "</template>" ++ [LF] ++ S ++ [LF])
    with (LF :: (unit_head newScript newTemplate ++ [LF] ++ S) ++ [LF]).
  2:{ unfold unit_head. by norm_app. }
  assert (trimStart (LF :: (unit_head newScript newTemplate ++ [LF] ++ S)
                     ++ [LF])
          = (unit_head newScript newTemplate ++ [LF] ++ S) ++ [LF]) as ->.
  { done. }
  rewrite trimEnd_drop by done.
  subst S. destruct styles as [|style styles].
  - simpl join. rewrite app_nil_r. rewrite trimEnd_drop by done.
    rewrite Hh. rewrite trimEnd_keep by done. by rewrite app_nil_r.
  - destruct (join_styles_end style styles) as [front ->].
    rewrite !app_assoc. by rewrite trimEnd_keep.
Qed.

(** * The [TemplateLiteral] visitor *)

Section TemplateLiteralFacts.
Variable commonWords : list jsstring.
Variable moduleName : jsstring.

Lemma flushPendingQuasi_expressions a :
  newExpressions (flushPendingQuasi a) = newExpressions a.
Proof. unfold flushPendingQuasi. by destruct (negb _). Qed.

Lemma segmentStep_expressions a segment :
  exists ext,
    newExpressions (segmentStep commonWords moduleName a segment)
    = newExpressions a ++ ext.
Proof.
  unfold segmentStep. destruct (test zhReg segment).
  - simpl. rewrite flushPendingQuasi_expressions. eauto.
  - simpl. exists []. by rewrite app_nil_r.
Qed.

Lemma segments_expressions segments a :
  exists ext,
    newExpressions (fold_left (segmentStep commonWords moduleName) segments a)
    = newExpressions a ++ ext.
Proof.
  revert a. induction segments as [|s segments IH]; intros a; simpl.
  - exists []. by rewrite app_nil_r.
  - destruct (IH (segmentStep commonWords moduleName a s)) as [ext2 ->].
    destruct (segmentStep_expressions a s) as [ext1 ->].
    exists (ext1 ++ ext2). by rewrite app_assoc.
Qed.

Lemma quasiLoop_expressions quasis expressions a :
  (length expressions <= length quasis)%nat ->
  exists ext,
    newExpressions (quasiLoop commonWords moduleName quasis expressions a)
    = newExpressions a ++ ext
    /\ expressions `sublist_of` ext.
Proof.
  revert expressions a.
  induction quasis as [|quasi quasis IH]; intros expressions a Hlen.
  - destruct expressions; [|simpl in Hlen; lia].
    exists []. by rewrite app_nil_r.
  - cbn [quasiLoop].
    set (a1 := flushPendingQuasi (fold_left _ _ a)).
    assert (exists ext, newExpressions a1 = newExpressions a ++ ext)
      as [ext1 H1].
    { subst a1. rewrite flushPendingQuasi_expressions.
      apply segments_expressions. }
    destruct expressions as [|e expressions].
    + destruct (IH [] a1) as (ext2 & -> & _); [simpl; lia|].
      rewrite H1. exists (ext1 ++ ext2).
      split; [by rewrite app_assoc|]. apply sublist_nil_l.
    + simpl in Hlen.
      edestruct (IH expressions) as (ext2 & -> & Hsub); [lia|].
      cbn [newExpressions]. rewrite H1.
      exists (ext1 ++ e :: ext2). split.
      * by rewrite <- !app_assoc.
      * apply sublist_inserts_l. by apply sublist_skip.
Qed.

(** The original expressions stay, in their order, among the new
    ones. *)
Lemma rewriteTemplateLiteral_keeps_expressions quasis expressions st :
  (length expressions <= length quasis)%nat ->
  expressions `sublist_of`
    snd (fst (rewriteTemplateLiteral commonWords moduleName
                quasis expressions st)).
Proof.
  intros Hlen. unfold rewriteTemplateLiteral. simpl.
  destruct (quasiLoop_expressions quasis expressions
              {| newQuasis := []; newExpressions := [];
                 pendingQuasi := []; acc_state := st |} Hlen)
    as (ext & -> & Hsub).
  done.
Qed.

(** The padding loop never leaves fewer quasis than the dialect
    wants; it takes none away. *)
Lemma padQuasis_length qs es :
  (length es < length (padQuasis qs es))%nat
  /\ (length qs <= length (padQuasis qs es))%nat.
Proof.
  unfold padQuasis. rewrite length_app, repeat_length. lia.
Qed.
End TemplateLiteralFacts.

(** * The claims *)

(** The stand-in runs the model through a dynamic attribute:
    [:title] bound to the literal 你好. *)
Example dynamic_attribute_runs :
  transformTemplate [] mini_parse mini_traverse mini_generate
    (u "<a :title=" ++ [DQ; SQ] ++ nihao ++ [SQ; DQ] ++ u "></a>")
    (u "test") initial
  = (u "<a :title=" ++ [DQ] ++ u "$t('test." ++ nihao ++ u "')" ++ [DQ]
       ++ u "></a>",
     {| localeMap := [(u "test", [(nihao, nihao)])]; console := [] |}).
Proof. vm_compute. reflexivity. Qed.

(** The tag-text pass gives each run of target characters its own
    call: [<p>前<b>后</b></p>]. *)
Example tag_text_runs :
  tagTextPass [] (u "test")
    (u "<p>" ++ [0x524d] ++ u "<b>" ++ [0x540e] ++ u "</b></p>") initial
  = (u "<p>{{ $t('test." ++ [0x524d] ++ u "') }}<b>{{ $t('test."
       ++ [0x540e] ++ u "') }}</b></p>",
     {| localeMap := [(u "test", [([0x524d], [0x524d]); ([0x540e], [0x540e])])];
        console := [] |}).
Proof. vm_compute. reflexivity. Qed.

(** A text of the override set goes to [common], here from a template
    literal with one expression: [`你好${x}`]. *)
Example template_literal_runs :
  scriptTemplateLiteral [nihao] (u "test")
    {| path_node :=
         TemplateLiteral [templateElement nihao nihao false;
                          templateElement [] [] true]
           [Identifier (u "x")] false;
       path_parent := None |}
    initial
  = (ReplaceWith
       (TemplateLiteral
          [templateElement [] [] false; templateElement [] [] true;
           templateElement [] [] false]
          [CallExpression (Identifier (u "$t"))
             [StringLiteral (u "common." ++ nihao)];
           Identifier (u "x")]
          true),
     {| localeMap := [(u "common", [(nihao, nihao)])]; console := [] |}).
Proof. vm_compute. reflexivity. Qed.

(** C1, which the code breaks: a second run is meant to leave the
    output of the first as it is.  On the template
    [<p>{{ '请点击DQ确定DQ按钮' }}</p>] (DQ the double quote), with an empty
    override set and the namespace [test], the first run wraps the
    inner quoted 确定; the second run then finds a quoted literal that
    starts at the opening single quote and ends at the quote of the
    call inserted before, wraps it again and records the new key
    [请点击$t(].  The same happens when the region is read back with
    a line feed on either side, as the unit processor writes it.
    Babel is never called on this input. *)
Theorem C1_second_run_rewraps
    (parse : list plugin -> jsstring -> option node)
    (traverse : Visitor -> node -> state -> option node * state)
    (generate : bool -> node -> option jsstring) :
  let template :=
    u "<p>{{ '" ++ qingdianji ++ [DQ] ++ queding ++ [DQ] ++ anniu
      ++ u "' }}</p>" in
  let run1 :=
    transformTemplate [] parse traverse generate
      template (u "test") initial in
  let run2 :=
    transformTemplate [] parse traverse generate
      (fst run1) (u "test") (snd run1) in
  let run2_lf :=
    transformTemplate [] parse traverse generate
      ([LF] ++ fst run1 ++ [LF]) (u "test") (snd run1) in
  fst run1
  = u "<p>{{ '" ++ qingdianji ++ u "$t('test." ++ queding ++ u "')"
      ++ anniu ++ u "' }}</p>"
  /\ localeMap (snd run1) = [(u "test", [(queding, queding)])]
  /\ fst run2
     = u "<p>{{ $t('test." ++ qingdianji ++ u "$t(')test." ++ queding
         ++ u "')" ++ anniu ++ u "' }}</p>"
  /\ localeMap (snd run2)
     = [(u "test",
         [(queding, queding);
          (qingdianji ++ u "$t(", qingdianji ++ u "$t(")])]
  /\ fst run2 <> fst run1
  /\ run2_lf = ([LF] ++ fst run2 ++ [LF], snd run2).
Proof. vm_compute. repeat split; done. Qed.

(** C2, which the code breaks: the rewritten literal is meant to have
    one more static segment than expressions.  For the literal
    [`a你好b`] the visitor builds three quasis for one expression: a
    quasi is pushed after the inserted call and another when the
    pending text is flushed, and the padding loop only ever adds. *)
Theorem C2_extra_static_segments :
  let text := u "a" ++ nihao ++ u "b" in
  rewriteTemplateLiteral [] (u "test")
    [templateElement text text true] [] initial
  = ([templateElement (u "a") (u "a") false;
      templateElement [] [] false;
      templateElement (u "b") (u "b") true],
     [CallExpression (Identifier (u "$t"))
        [StringLiteral (u "test." ++ nihao)]],
     {| localeMap := [(u "test", [(nihao, nihao)])]; console := [] |}).
Proof. vm_compute. reflexivity. Qed.

Section RegistryClaims.
Variable commonWords : list jsstring.

(** C3: [addLocale] files a text of the override set under [common],
    whatever the namespace of the file, and any other text under the
    namespace of the file; no other namespace changes, and
    [getTCallExpression] builds the key with the same namespace.  The
    text is not the name of a property every object inherits, and the
    namespace it is filed under is not one either. *)
Theorem C3_namespace_precedence moduleName text (localeMap : registry) :
  inherited text = false ->
  commonWords_has commonWords text = true \/ inherited moduleName = false ->
  let target :=
    if commonWords_has commonWords text then u "common" else moduleName in
  filed_under (addLocale commonWords moduleName text localeMap) target text
  = true
  /\ (forall ns, ns <> target ->
        own_get (addLocale commonWords moduleName text localeMap) ns
        = own_get localeMap ns)
  /\ getTCallExpression commonWords text moduleName
     = CallExpression (Identifier (u "$t"))
         [StringLiteral (target ++ u "." ++ text)].
Proof.
  intros Hx Hns target.
  assert (target = targetModule commonWords moduleName text) as -> by done.
  split; [|split].
  - apply addLocale_filed; [done|]. unfold targetModule.
    destruct Hns as [-> | Hns]; [done|].
    by destruct (commonWords_has commonWords text).
  - intros ns Hne. by apply addLocale_other.
  - done.
Qed.

(** C4: inserting twice is inserting once; inserting a pair the
    registry holds changes nothing; and the registry as a map does not
    depend on the order of the insertions.  The namespaces of a run
    are not names every object inherits: with [__proto__] a write
    would land on [Object.prototype], which the model of the registry
    does not follow. *)
Theorem C4_insertion_idempotent_commutative :
  (forall moduleName text (localeMap : registry),
     addLocale commonWords moduleName text
       (addLocale commonWords moduleName text localeMap)
     = addLocale commonWords moduleName text localeMap)
  /\ (forall moduleName text (localeMap : registry),
        entry localeMap (targetModule commonWords moduleName text) text ->
        addLocale commonWords moduleName text localeMap = localeMap)
  /\ (forall l1 l2 (localeMap : registry),
        Forall (fun e => inherited (fst e) = false) l1 ->
        l1 ≡ₚ l2 ->
        registry_map (record_all commonWords l1 localeMap)
        = registry_map (record_all commonWords l2 localeMap)).
Proof.
  split; [|split].
  - apply addLocale_idempotent.
  - apply addLocale_present.
  - intros l1 l2 m _ Hp. rewrite !registry_map_record_all.
    by apply fold_map_add_perm.
Qed.

(** C5: [writeLocaleFiles] writes one file per namespace, named after
    it; the document has the namespace as its only key, over a table
    that maps each text of the namespace to itself, the keys strictly
    ascending in the order of [sort]; and the files do not depend on
    the order of the insertions.  The texts are not array indices,
    which an object lists first and by value, and the namespaces are
    not names every object inherits. *)
Theorem C5_dictionary_serialization (l1 l2 : list (jsstring * jsstring)) :
  Forall (fun e => inherited (fst e) = false
                   /\ is_array_index (snd e) = false) l1 ->
  l1 ≡ₚ l2 ->
  let localeMap := record_all commonWords l1 [] in
  map fst (writeLocaleFiles localeMap)
    = map (fun ns => ns ++ u ".json") (Object_keys localeMap)
  /\ (forall file,
        file ∈ writeLocaleFiles localeMap ->
        exists ns table keys,
          own_get localeMap ns = Some table
          /\ file = (ns ++ u ".json",
                     JObject [(ns, JObject
                                     (map (fun k => (k, JString k)) keys))])
          /\ keys ≡ₚ own_keys table
          /\ StronglySorted js_lt keys)
  /\ writeLocaleFiles localeMap
     ≡ₚ writeLocaleFiles (record_all commonWords l2 []).
Proof.
  intros Hl Hp localeMap.
  assert (Forall (fun e : jsstring * jsstring =>
                    is_array_index (snd e) = false) l1) as Hl1.
  { eapply Forall_impl; [exact Hl|]. by intros e [_ ?]. }
  assert (wf_registry localeMap) as Hwf.
  { apply wf_record_all; [apply wf_registry_nil|done]. }
  assert (wf_registry (record_all commonWords l2 [])) as Hwf2.
  { apply wf_record_all; [apply wf_registry_nil|]. by rewrite <- Hp. }
  split; [|split].
  - unfold writeLocaleFiles, Object_keys. by rewrite !map_map.
  - intros file Hin. rewrite writeLocaleFiles_wf in Hin by done.
    apply list_elem_of_fmap in Hin as ([ns table] & -> & Hin).
    rewrite Object_entries_perm in Hin.
    pose proof (wf_registry_elem _ _ Hwf Hin) as Ht.
    exists ns, table, (Array_sort (own_keys table)).
    split; [by apply elem_of_own_get; [apply Hwf|]|].
    split; [done|]. split; [apply Array_sort_perm|].
    apply Array_sort_strict. apply Ht.
  - rewrite !writeLocaleFiles_wf by done.
    rewrite !Object_entries_perm. apply locale_file_map_view; [done..|].
    subst localeMap. rewrite !registry_map_record_all.
    by apply fold_map_add_perm.
Qed.
End RegistryClaims.

Lemma C3_witness :
  inherited nihao = false
  /\ inherited zaijian = false
  /\ filed_under (addLocale [nihao] (u "test") nihao []) (u "common") nihao
     = true
  /\ filed_under (addLocale [nihao] (u "test") zaijian []) (u "test") zaijian
     = true.
Proof.
  split; [reflexivity|]. split; [reflexivity|]. split.
  - apply (C3_namespace_precedence [nihao] (u "test") nihao []);
      [reflexivity|left; reflexivity].
  - apply (C3_namespace_precedence [nihao] (u "test") zaijian []);
      [reflexivity|right; reflexivity].
Defined.

Lemma C4_witness :
  addLocale [] (u "test") nihao (addLocale [] (u "test") nihao [])
  = addLocale [] (u "test") nihao []
  /\ addLocale [] (u "test") nihao [(u "test", [(nihao, nihao)])]
     = [(u "test", [(nihao, nihao)])]
  /\ registry_map
       (record_all [nihao] [(u "test", zaijian); (u "test", nihao)] [])
     = registry_map
         (record_all [nihao] [(u "test", nihao); (u "test", zaijian)] []).
Proof.
  destruct (C4_insertion_idempotent_commutative []) as (H1 & H2 & _).
  destruct (C4_insertion_idempotent_commutative [nihao]) as (_ & _ & H3).
  split; [apply H1|]. split.
  - apply H2. exists [(nihao, nihao)]. split; reflexivity.
  - apply H3.
    + repeat constructor.
    + apply Permutation_swap.
Defined.

Lemma C5_witness :
  writeLocaleFiles
    (record_all [] [(u "test", zaijian); (u "test", nihao)] [])
  = [(u "test.json",
      JObject [(u "test",
                JObject [(nihao, JString nihao);
                         (zaijian, JString zaijian)])])]
  /\ js_lt nihao zaijian
  /\ writeLocaleFiles
       (record_all [] [(u "test", zaijian); (u "test", nihao)] [])
     ≡ₚ writeLocaleFiles
          (record_all [] [(u "test", nihao); (u "test", zaijian)] []).
Proof.
  split; [reflexivity|]. split; [reflexivity|].
  apply (C5_dictionary_serialization []
           [(u "test", zaijian); (u "test", nihao)]
           [(u "test", nihao); (u "test", zaijian)]).
  - repeat constructor.
  - apply Permutation_swap.
Defined.

Section MarkupClaims.
Variable commonWords : list jsstring.
Variable parse : list plugin -> jsstring -> option node.
Variable traverse : Visitor -> node -> state -> option node * state.
Variable generate : bool -> node -> option jsstring.

(** C6: when the fragment does not parse, [transformBindingExpression]
    warns, returns the fragment as it is and leaves the registry
    alone; the attribute pass then writes the dynamic attribute back
    unchanged and goes on with the rest of the template (the
    attribute being the first with a target character). *)
Theorem C6_parse_failure expression moduleName st :
  parse [typescript] (u "const __temp = " ++ expression ++ u ";") = None ->
  transformBindingExpression commonWords parse traverse generate
    expression moduleName st
  = (expression,
     {| localeMap := localeMap st;
        console := console st
                   ++ [warn_conversion_failed expression; warn_error] |})
  /\ forall before w name post,
       existsb zh before = false ->
       ws w = true ->
       name <> [] ->
       forallb name_char name = true ->
       startsWith name (u ":") = true ->
       forallb (none_of [DQ]) expression = true ->
       existsb zh expression = true ->
       test tCallReg expression = false ->
       attributePass commonWords parse traverse generate moduleName
         (before ++ [w] ++ name ++ u "=" ++ [DQ] ++ expression ++ [DQ]
            ++ post) st
       = let '(out, st') :=
           attributePass commonWords parse traverse generate moduleName post
             {| localeMap := localeMap st;
                console := console st
                           ++ [warn_conversion_failed expression;
                               warn_error] |} in
         (before ++ [w] ++ name ++ u "=" ++ [DQ] ++ expression ++ [DQ]
            ++ out, st').
Proof.
  intros Hp.
  assert (transformBindingExpression commonWords parse traverse generate
            expression moduleName st
          = (expression,
             {| localeMap := localeMap st;
                console := console st
                           ++ [warn_conversion_failed expression;
                               warn_error] |})) as Hb.
  { unfold transformBindingExpression. by rewrite Hp. }
  split; [exact Hb|].
  intros before w name post Hbefore Hw Hne Hname Hc Hv Hz Ht.
  destruct name as [|n name]; [done|].
  unfold attributePass.
  rewrite replace_all_before.
  2:{ intros b1 x b2 ->. rewrite existsb_app in Hbefore.
      apply orb_false_elim in Hbefore as [_ Hbefore].
      by apply (attrReg_no_early_match x b2 w (n :: name)). }
  pose proof (attrReg_commits w n name expression post Hw Hname Hv Hz) as Hm.
  apply commits_exec in Hm.
  replace ([w] ++ (n :: name) ++ u "=" ++ [DQ] ++ expression ++ [DQ] ++ post)
    with (([w] ++ (n :: name) ++ [61] ++ [DQ] ++ expression ++ [DQ]) ++ post)
    by (by rewrite <- !app_assoc).
  erewrite replace_all_match; [|done|exact Hm].
  unfold attrCallback at 1. unfold group. cbn [get_cap Nat.eqb].
  rewrite (trim_zh_nonempty expression Hz), Hc, Ht, Hb. cbn [orb].
  destruct (replace_all _ _ post _) as [out st'].
  by rewrite <- !app_assoc.
Qed.

(** The attribute the scan stands in front of is handed to the
    callback, and the pass goes on behind it. *)
Lemma attributePass_at moduleName before w name value post st out0 st0 :
  scan_before attrReg
    (attrCallback commonWords parse traverse generate moduleName)
    before ([w] ++ name ++ u "=" ++ [DQ] ++ value ++ [DQ] ++ post) st
  = Some (out0, st0) ->
  ws w = true -> name <> [] -> forallb name_char name = true ->
  forallb (none_of [DQ]) value = true -> existsb zh value = true ->
  attributePass commonWords parse traverse generate moduleName
    (before ++ [w] ++ name ++ u "=" ++ [DQ] ++ value ++ [DQ] ++ post) st
  = let '(rep, st1) :=
      attrCallback commonWords parse traverse generate moduleName
        ([w] ++ name ++ u "=" ++ [DQ] ++ value ++ [DQ])
        [(3%nat, value); (2%nat, name); (1%nat, [w])] st0 in
    let '(out, st2) :=
      attributePass commonWords parse traverse generate moduleName
        post st1 in
    (out0 ++ rep ++ out, st2).
Proof.
  intros Hscan Hw Hne Hname Hv Hz.
  destruct name as [|n name]; [done|].
  unfold attributePass.
  rewrite (replace_all_scan _ _ _ _ _ _ _ Hscan).
  pose proof (attrReg_commits w n name value post Hw Hname Hv Hz) as Hm.
  apply commits_exec in Hm.
  replace ([w] ++ (n :: name) ++ u "=" ++ [DQ] ++ value ++ [DQ] ++ post)
    with (([w] ++ (n :: name) ++ [61] ++ [DQ] ++ value ++ [DQ]) ++ post)
    by (by rewrite <- !app_assoc).
  erewrite replace_all_match; [|done|exact Hm].
  destruct (attrCallback _ _ _ _ _ _ _ _) as [rep st1].
  by destruct (replace_all _ _ post _) as [out st2].
Qed.




(** ** The unit processor *)

Lemma newContent_regions newScript newTemplate styles :
  newContent newScript newTemplate styles
  = join [LF]
      (scriptRegion newScript :: templateRegion newTemplate
       :: map styleRegion styles).
Proof.
  rewrite newContent_shape. unfold unit_head, scriptRegion, templateRegion.
  destruct styles as [|style styles].
  - cbn [map join]. by rewrite <- !app_assoc, app_nil_r.
  - change (join [LF] (?a :: ?b :: map styleRegion (style :: styles)))
      with (a ++ [LF] ++ b ++ [LF]
            ++ join [LF] (map styleRegion (style :: styles))).
    by rewrite <- !app_assoc.
Qed.

(** C10: whenever the unit processor writes, the output is the script
    region, the template region and the style regions, one line feed
    between them: one script region, under the fixed tag
    [<script setup lang=DQ ts DQ>], that holds the transformed content
    of the setup script (nothing when there is none) between two line
    feeds.  It writes unless the transformation of the setup script
    throws.  And the result is the same for every file that agrees on
    the content of the template, the content of the setup script and
    the styles, whatever the attributes of the setup script and
    whatever other script region the file has. *)
Theorem C10_script_region parseSFC fileContent moduleName st :
  let d := parseSFC fileContent in
  let setup := block_content (scriptSetup d) in
  let '(newTemplate, st1) :=
    if negb (jseqb (block_content (template d)) [])
    then transformTemplate commonWords parse traverse generate
           (block_content (template d)) moduleName st
    else ([], st) in
  processVueFile commonWords parse traverse generate parseSFC
    fileContent moduleName st
  = match
      (if negb (jseqb setup [])
       then transformScript commonWords parse traverse generate
              setup moduleName st1
       else (Some [], st1))
    with
    | (Some newScript, st2) =>
        (Some (join [LF]
                 (scriptRegion newScript :: templateRegion newTemplate
                  :: map styleRegion (styles d))),
         st2)
    | (None, st2) => (None, st2)
    end
  /\ forall parseSFC' fileContent',
       let d' := parseSFC' fileContent' in
       block_content (template d') = block_content (template d) ->
       block_content (scriptSetup d') = setup ->
       styles d' = styles d ->
       processVueFile commonWords parse traverse generate parseSFC'
         fileContent' moduleName st
       = processVueFile commonWords parse traverse generate parseSFC
           fileContent moduleName st.
Proof.
  intros d setup.
  destruct (if negb (jseqb (block_content (template d)) []) then _ else _)
    as [newTemplate st1] eqn:Ht.
  split.
  - unfold processVueFile. fold d. rewrite Ht. fold setup.
    destruct (if negb (jseqb setup []) then _ else _)
      as [[newScript|] st2]; [|done].
    by rewrite newContent_regions.
  - intros parseSFC' fileContent' d' H1 H2 H3.
    unfold processVueFile. fold d' d. by rewrite H1, H2, H3.
Qed.
End MarkupClaims.

Lemma C6_witness :
  mini_parse [typescript] (u "const __temp = " ++ two_words ++ u ";") = None
  /\ transformBindingExpression [] mini_parse mini_traverse mini_generate
       two_words (u "test") initial
     = (two_words,
        {| localeMap := [];
           console := [warn_conversion_failed two_words; warn_error] |})
  /\ attributePass [] mini_parse mini_traverse mini_generate (u "test")
       (u "<a id=" ++ [DQ] ++ u "x" ++ [DQ] ++ u " :title=" ++ [DQ]
          ++ two_words ++ [DQ] ++ u "></a>") initial
     = (u "<a id=" ++ [DQ] ++ u "x" ++ [DQ] ++ u " :title=" ++ [DQ]
          ++ two_words ++ [DQ] ++ u "></a>",
        {| localeMap := [];
           console := [warn_conversion_failed two_words; warn_error] |}).
Proof.
  assert (mini_parse [typescript] (u "const __temp = " ++ two_words ++ u ";")
          = None) as H by reflexivity.
  split; [exact H|].
  destruct (C6_parse_failure [] mini_parse mini_traverse mini_generate
              two_words (u "test") initial H) as [H1 H2].
  split; [exact H1|].
  exact (H2 (u "<a id=" ++ [DQ] ++ u "x" ++ [DQ]) 32 (u ":title")
           (u "></a>") eq_refl eq_refl
           ltac:(discriminate) eq_refl eq_refl eq_refl eq_refl eq_refl).
Defined.





(** C9, which the code breaks: a style region is meant to keep its
    attributes.  The serialiser writes [scoped] and [lang] back and no
    other attribute: the region [<style module>.a{}</style>] comes out
    as [<style>], exactly as a region without the attribute does; and
    two regions that agree on content, [scoped] and [lang] are written
    the same whatever their attributes.  Babel is never called on
    these units. *)
Theorem C9_style_attributes_dropped
    (parse : list plugin -> jsstring -> option node)
    (traverse : Visitor -> node -> state -> option node * state)
    (generate : bool -> node -> option jsstring) :
  let run style :=
    processVueFile [] parse traverse generate
      (parsed_as (unit_of_style style))
      (u "<style module>.a{}</style>") (u "test") initial in
  run module_style
  = (Some (u "<script setup lang=" ++ [DQ] ++ u "ts" ++ [DQ] ++ u ">"
           ++ [LF; LF] ++ u "</script>" ++ [LF] ++ u "<template>"
           ++ [LF; LF] ++ u "</template>" ++ [LF] ++ u "<style>" ++ [LF]
           ++ u ".a{}" ++ [LF] ++ u "</style>"),
     initial)
  /\ run module_style = run plain_style
  /\ attrs module_style <> attrs plain_style
  /\ forall style1 style2,
       content style1 = content style2 ->
       scoped style1 = scoped style2 ->
       lang style1 = lang style2 ->
       run style1 = run style2.
Proof.
  repeat split; [done..|].
  intros style1 style2 H1 H2 H3.
  unfold processVueFile, parsed_as, unit_of_style.
  cbn [template scriptSetup styles block_content jseqb negb].
  unfold newContent. cbn [map]. unfold styleRegion.
  by rewrite H1, H2, H3.
Qed.

(** The unit [<script>export default {}</script>] with
    [<script setup name=DQ x DQ>const __temp = '你好';</script>]: the
    one script region holds the transformed setup script, and the
    unit without the other script and without the attributes of the
    setup script gives the same. *)
Lemma C10_witness :
  processVueFile [] mini_parse mini_traverse mini_generate_file
    (parsed_as two_script_unit)
    (u "<script>export default {}</script>" ++ [LF]
       ++ u "<script setup name=" ++ [DQ] ++ u "x" ++ [DQ] ++ u ">"
       ++ u "const __temp = '" ++ nihao ++ u "';</script>")
    (u "test") initial
  = (Some (u "<script setup lang=" ++ [DQ] ++ u "ts" ++ [DQ] ++ u ">" ++ [LF]
           ++ u "const __temp = $t(" ++ [DQ] ++ u "test." ++ nihao ++ [DQ]
           ++ u ");" ++ [LF] ++ u "</script>" ++ [LF]
           ++ u "<template>" ++ [LF; LF] ++ u "</template>"),
     {| localeMap := [(u "test", [(nihao, nihao)])]; console := [] |})
  /\ processVueFile [] mini_parse mini_traverse mini_generate_file
       (parsed_as
          {| template := None; script := None;
             scriptSetup :=
               Some {| content := u "const __temp = '" ++ nihao ++ u "';";
                       attrs := [(u "setup", None)];
                       lang := None; scoped := false |};
             styles := [] |})
       (u "<script setup>const __temp = '" ++ nihao ++ u "';</script>")
       (u "test") initial
     = processVueFile [] mini_parse mini_traverse mini_generate_file
         (parsed_as two_script_unit)
         (u "<script>export default {}</script>" ++ [LF]
            ++ u "<script setup name=" ++ [DQ] ++ u "x" ++ [DQ] ++ u ">"
            ++ u "const __temp = '" ++ nihao ++ u "';</script>")
         (u "test") initial.
Proof.
  pose proof (C10_script_region [] mini_parse mini_traverse
                mini_generate_file (parsed_as two_script_unit)
                (u "<script>export default {}</script>" ++ [LF]
                   ++ u "<script setup name=" ++ [DQ] ++ u "x" ++ [DQ]
                   ++ u ">" ++ u "const __temp = '" ++ nihao
                   ++ u "';</script>")
                (u "test") initial) as H.
  split; [exact (proj1 H)|].
  exact (proj2 H _ _ eq_refl eq_refl eq_refl).
Defined.

(** * Further properties of the code *)

(** * Runs of target characters *)

Lemma exec_at_zhReg_None x s : zh x = false -> exec_at zhReg (x :: s) = None.
Proof. intros H. unfold exec_at, zhReg, Plus. cbn [rmatch]. by rewrite H. Qed.

Lemma exec_at_Plus_Some p x s :
  p x = true -> exists len c, exec_at (Plus p) (x :: s) = Some (len, c).
Proof.
  intros H. destruct (exec_at (Plus p) (x :: s)) as [[len c]|] eqn:E; [eauto|].
  exfalso. revert E. unfold exec_at, Plus. cbn [rmatch]. rewrite H.
  generalize (length (x :: s)). intros n.
  induction s as [|y s IH]; simpl; [done|].
  destruct (p y); [|done].
  destruct (star_greedy p _ s []) eqn:E; done.
Qed.

Lemma test_zhReg s : test zhReg s = existsb zh s.
Proof.
  induction s as [|x s IH]; [done|].
  cbn [test existsb]. destruct (zh x) eqn:Hx.
  - destruct (exec_at_Plus_Some zh x s Hx) as (len & c & E).
    unfold zhReg. by rewrite E.
  - by rewrite exec_at_zhReg_None.
Qed.

(** * Splitting on a regex that is one capture group *)

Lemma exec_at_Grp_group r s len c :
  exec_at (Grp 1 r) s = Some (len, c) -> group c 1 = firstn len s.
Proof.
  intros H. apply exec_at_sound in H as (a & b & -> & Hm & ->).
  inversion Hm; subst. unfold group. cbn [get_cap Nat.eqb].
  by rewrite firstn_app, Nat.sub_diag, firstn_all, firstn_O, app_nil_r.
Qed.

Lemma join_nil_concat (l : list jsstring) : join [] l = concat l.
Proof.
  induction l as [|x [|y l] IH]; [done|by simpl; rewrite app_nil_r|].
  change (join [] (x :: y :: l)) with (x ++ [] ++ join [] (y :: l)).
  by rewrite IH.
Qed.

Lemma concat_filter_Boolean (l : list jsstring) :
  concat (filter_Boolean l) = concat l.
Proof.
  unfold filter_Boolean. induction l as [|x l IH]; [done|].
  cbn [List.filter concat]. destruct x as [|c x]; [done|].
  cbn [jseqb negb concat]. by rewrite IH.
Qed.

Lemma split_from_concat r s skip cur :
  concat (split_from (Grp 1 r) 1 s skip cur) = cur ++ skipn skip s.
Proof.
  revert skip cur. induction s as [|x s IH]; intros skip cur.
  - simpl. by rewrite skipn_nil.
  - cbn [split_from]. destruct skip as [|n]; [|by rewrite IH].
    cbn [skipn].
    destruct (exec_at (Grp 1 r) (x :: s)) as [[[|n] c]|] eqn:E.
    + destruct cur as [|y cur]; [by rewrite IH|].
      cbn [concat]. rewrite concat_app, IH.
      unfold groups_of. cbn [seq map concat].
      by rewrite (exec_at_Grp_group _ _ _ _ E).
    + cbn [concat]. rewrite concat_app, IH.
      unfold groups_of. cbn [seq map concat].
      rewrite (exec_at_Grp_group _ _ _ _ E). cbn [firstn app].
      by rewrite app_nil_r, firstn_skipn.
    + rewrite IH. by rewrite <- app_assoc.
Qed.

Lemma split_by_concat r s : concat (split_by (Grp 1 r) 1 s) = s.
Proof.
  destruct s as [|x s].
  - unfold split_by. by destruct (exec_at _ _).
  - unfold split_by. by rewrite split_from_concat.
Qed.

Lemma split_join r s :
  join [] (filter_Boolean (split_by (Grp 1 r) 1 s)) = s.
Proof. by rewrite join_nil_concat, concat_filter_Boolean, split_by_concat. Qed.

(** * The pieces of a text split at its runs of target characters *)

Lemma exec_at_zhSplitReg_run x run b :
  zh x = true -> forallb zh run = true -> stops zh b ->
  exec_at zhSplitReg ((x :: run) ++ b)
  = Some (length (x :: run), [(1%nat, x :: run)]).
Proof.
  intros Hx Hrun Hb. apply commits_exec. unfold zhSplitReg.
  by apply commits_Grp, commits_Plus.
Qed.

Lemma exec_at_zhSplitReg_None x s :
  zh x = false -> exec_at zhSplitReg (x :: s) = None.
Proof.
  intros H. unfold exec_at, zhSplitReg, Plus. cbn [rmatch]. by rewrite H.
Qed.

(** The longest prefix of target characters. *)
Lemma zh_span s :
  exists run b, s = run ++ b /\ forallb zh run = true /\ stops zh b.
Proof.
  induction s as [|x s (run & b & -> & Hrun & Hb)].
  - by exists [], [].
  - destruct (zh x) eqn:Hx.
    + exists (x :: run), b. simpl. by rewrite Hx.
    + by exists [], (x :: run ++ b).
Qed.

Lemma split_from_skip r g s skip cur :
  split_from r g s skip cur = split_from r g (skipn skip s) 0 cur.
Proof.
  revert skip. induction s as [|x s IH]; intros [|n]; try done.
  cbn [split_from skipn]. apply IH.
Qed.

Lemma existsb_forallb_zh (p : jsstring) :
  p <> [] -> forallb zh p = true -> existsb zh p = true.
Proof. destruct p as [|x p]; [done|]. simpl. by intros _ [-> _]%andb_prop. Qed.

Lemma split_from_zh_runs s cur :
  existsb zh cur = false ->
  let l := filter_Boolean (split_from zhSplitReg 1 s 0 cur) in
  Forall homogeneous l /\ alternating l
  /\ (cur <> [] \/ stops zh s -> head_free l).
Proof.
  remember (length s) as n eqn:Hn. revert s cur Hn.
  induction (lt_wf n) as [n _ IH]. intros s cur -> Hcur.
  destruct s as [|x s].
  - cbn [split_from]. unfold filter_Boolean. cbn [List.filter].
    destruct cur as [|y cur]; [done|]. cbn [jseqb negb].
    split; [|done]. constructor; [|done]. split; [done|by right].
  - destruct (zh x) eqn:Hx.
    + destruct (zh_span s) as (run & b & -> & Hrun & Hb).
      cbn [split_from].
      change (x :: run ++ b) with ((x :: run) ++ b).
      rewrite (exec_at_zhSplitReg_run x run b Hx Hrun Hb).
      cbn [length]. rewrite split_from_skip, drop_app_length.
      unfold groups_of, group. cbn [seq map get_cap Nat.eqb app].
      destruct (IH (length b)) with (s := b) (cur := @nil N)
        as (H1 & H2 & H3); [simpl; rewrite length_app; lia|done|done|].
      specialize (H3 (or_intror Hb)).
      assert (homogeneous (x :: run)) as Hh.
      { split; [done|]. left. simpl. by rewrite Hx. }
      assert (existsb zh (x :: run) = true) as He by (simpl; by rewrite Hx).
      unfold filter_Boolean in *. cbn [List.filter].
      set (lb := List.filter _ (split_from zhSplitReg 1 b 0 [])) in *.
      assert (alternating ((x :: run) :: lb)) as Ha.
      { destruct lb as [|q lb]; [done|]. split; [|done].
        simpl in H3. rewrite He, H3. done. }
      destruct cur as [|y cur]; cbn [jseqb negb].
      * split; [by constructor|]. split; [done|].
        intros [?|Hs]; [done|]. simpl in Hs. congruence.
      * split; [constructor; [|by constructor]|].
        { split; [done|by right]. }
        split; [|done]. split; [|done]. rewrite He, Hcur. done.
    + cbn [split_from]. rewrite (exec_at_zhSplitReg_None x s Hx).
      destruct (IH (length s)) with (s := s) (cur := cur ++ [x])
        as (H1 & H2 & H3); [simpl; lia|done| |].
      { rewrite existsb_app. simpl. by rewrite Hcur, Hx. }
      split; [done|]. split; [done|]. intros _. apply H3. left.
      by destruct cur.
Qed.

(** The non-empty pieces are the maximal runs of target characters
    and the texts between them, in their order. *)
Lemma segments_runs s :
  let l := filter_Boolean (split_by zhSplitReg 1 s) in
  concat l = s /\ Forall homogeneous l /\ alternating l.
Proof.
  intros l. split.
  - subst l. unfold zhSplitReg.
    by rewrite concat_filter_Boolean, split_by_concat.
  - subst l. destruct s as [|x s]; [by split; [constructor|]|].
    unfold split_by.
    destruct (split_from_zh_runs (x :: s) [] eq_refl) as (H1 & H2 & _).
    done.
Qed.

Lemma trimStart_zh_head x s : zh x = true -> trimStart (x :: s) = x :: s.
Proof. intros H. simpl. by rewrite (zh_not_ws x H). Qed.

Lemma trim_all_zh p : forallb zh p = true -> trim p = p.
Proof.
  intros H. destruct p as [|x p]; [done|].
  simpl in H. apply andb_prop in H as [Hx Hp].
  unfold trim. rewrite trimStart_zh_head by done. unfold trimEnd.
  destruct (rev (x :: p)) as [|y t] eqn:E.
  { apply (f_equal (@length N)) in E. rewrite length_rev in E. done. }
  assert (zh y = true) as Hy.
  { assert (forallb zh (rev (x :: p)) = true) as Hr.
    { rewrite forallb_forall. intros z Hz. apply in_rev in Hz.
      destruct Hz as [<-|Hz]; [done|].
      rewrite forallb_forall in Hp. by apply Hp. }
    rewrite E in Hr. simpl in Hr. by apply andb_prop in Hr as [? _]. }
  rewrite trimStart_zh_head by done. by rewrite <- E, rev_involutive.
Qed.

Lemma homogeneous_zh p :
  homogeneous p -> existsb zh p = true -> forallb zh p = true.
Proof. intros [_ [H|H]] He; [done|congruence]. Qed.

Section Visitors.
Variable commonWords : list jsstring.
Variable moduleName : jsstring.

Lemma record_all_st l st :
  fold_left (fun st p => addLocale_st commonWords moduleName p st) l st
  = with_localeMap st
      (record_all commonWords (map (pair moduleName) l) (localeMap st)).
Proof.
  revert st. induction l as [|p l IH]; intros st; [by destruct st|].
  cbn [fold_left map]. rewrite IH. done.
Qed.

Lemma map_st_jsxPart parts st :
  Forall homogeneous parts ->
  map_st (jsxPart commonWords moduleName) parts st
  = (map (jsxNode commonWords moduleName) parts,
     fold_left (fun st p => addLocale_st commonWords moduleName p st)
       (List.filter (existsb zh) parts) st).
Proof.
  intros H. revert st. induction H as [|p parts Hp _ IH]; intros st; [done|].
  cbn [map_st map List.filter]. unfold jsxPart at 1, jsxNode at 1.
  rewrite test_zhReg. destruct (existsb zh p) eqn:E.
  - rewrite (trim_all_zh p) by by apply homogeneous_zh.
    rewrite IH. done.
  - by rewrite IH.
Qed.

(** X8: the [JSXText] visitor cuts the text at its maximal runs of
    target characters: the pieces give the text back when put
    together, each run becomes a call on the run itself (trimming
    takes nothing off), every other piece stays a text node, and the
    runs are recorded in their order. *)
Theorem jsx_text_runs raw parent st :
  existsb zh raw = true ->
  let parts := filter_Boolean (split_by zhSplitReg 1 raw) in
  concat parts = raw /\ Forall homogeneous parts /\ alternating parts
  /\ scriptJSXText commonWords moduleName
       {| path_node := JSXText raw; path_parent := parent |} st
     = (ReplaceWithMultiple (map (jsxNode commonWords moduleName) parts),
        with_localeMap st
          (record_all commonWords
             (map (pair moduleName) (List.filter (existsb zh) parts))
             (localeMap st))).
Proof.
  intros Hraw parts.
  destruct (segments_runs raw) as (H1 & H2 & H3).
  split; [done|]. split; [done|]. split; [done|].
  unfold scriptJSXText. cbn [path_node]. rewrite test_zhReg, Hraw.
  cbn [negb]. fold parts. rewrite map_st_jsxPart by done.
  by rewrite record_all_st.
Qed.
End Visitors.

Section Literal.
Variable commonWords : list jsstring.
Variable moduleName : jsstring.

Abbreviation step := (segmentStep commonWords moduleName).
Abbreviation record := (fun st p => addLocale_st commonWords moduleName p st).

Lemma flushPendingQuasi_pending a : pendingQuasi (flushPendingQuasi a) = [].
Proof.
  unfold flushPendingQuasi.
  destruct (jseqb (pendingQuasi a) []) eqn:E; [|done].
  by apply jseqb_eq in E.
Qed.

Lemma alternating_tail p l : alternating (p :: l) -> alternating l.
Proof. destruct l; [done|]. by intros [_ ?]. Qed.

Lemma fold_segments l a :
  Forall homogeneous l -> alternating l ->
  pendingQuasi a = [] \/ head_zh l ->
  let a' := flushPendingQuasi (fold_left step l a) in
  length (newQuasis a')
  = (length (newQuasis a) + length l
     + (if jseqb (pendingQuasi a) [] then 0 else 1))%nat
  /\ length (newExpressions a')
     = (length (newExpressions a)
        + length (List.filter (existsb zh) l))%nat
  /\ pendingQuasi a' = []
  /\ acc_state a'
     = fold_left record (List.filter (existsb zh) l) (acc_state a).
Proof.
  intros Hh. revert a. induction Hh as [|p l Hp _ IH]; intros a Ha Hpend.
  - cbn [fold_left List.filter length]. unfold flushPendingQuasi.
    destruct (jseqb (pendingQuasi a) []) eqn:E; cbn [negb].
    + apply jseqb_eq in E. split; [lia|]. split; [lia|]. done.
    + cbn [newQuasis newExpressions pendingQuasi acc_state].
      rewrite length_app. simpl. split; [lia|]. split; [lia|]. done.
  - cbn [fold_left List.filter]. destruct (existsb zh p) eqn:Ep.
    + destruct (IH (step a p)) as (H1 & H2 & H3 & H4).
      { by apply alternating_tail in Ha. }
      { left. unfold segmentStep. rewrite test_zhReg, Ep.
        cbn [pendingQuasi]. apply flushPendingQuasi_pending. }
      rewrite H1, H2, H4. clear H1 H2 H4. split; [|split; [|split; [done|]]].
      * unfold segmentStep. rewrite test_zhReg, Ep.
        cbn [newQuasis pendingQuasi]. unfold flushPendingQuasi.
        destruct (jseqb (pendingQuasi a) []) eqn:E; cbn [negb];
          cbn [newQuasis pendingQuasi]; rewrite ?length_app; simpl;
          rewrite ?E; lia.
      * unfold segmentStep. rewrite test_zhReg, Ep.
        cbn [newExpressions]. rewrite flushPendingQuasi_expressions.
        rewrite length_app. simpl. lia.
      * unfold segmentStep at 1. rewrite test_zhReg, Ep.
        cbn [acc_state]. unfold flushPendingQuasi.
        by destruct (negb _).
    + destruct Hpend as [Hpend|Hpend]; [|simpl in Hpend; congruence].
      destruct (IH (step a p)) as (H1 & H2 & H3 & H4).
      { by apply alternating_tail in Ha. }
      { right. destruct l as [|q l]; [done|]. destruct Ha as [Ha _].
        simpl. rewrite Ep in Ha. by destruct (existsb zh q). }
      rewrite H1, H2, H4. clear H1 H2 H4.
      split; [|split; [|split; [done|]]];
        unfold segmentStep; rewrite test_zhReg, Ep;
        cbn [newQuasis newExpressions pendingQuasi acc_state]; [|lia|done].
      rewrite Hpend. cbn [app jseqb].
      destruct Hp as [Hp _]. destruct p as [|c p]; [done|].
      cbn [jseqb length]. lia.
Qed.

Lemma markTail_length qs : length (markTail qs) = length qs.
Proof.
  unfold markTail. destruct (rev qs) as [|x front] eqn:E.
  - by rewrite <- (rev_involutive qs), E.
  - rewrite length_app, length_rev. simpl.
    rewrite <- (length_rev qs), E. simpl. lia.
Qed.

Lemma quasiLoop_counts quasis expressions a :
  pendingQuasi a = [] ->
  let segs := flat_map segments quasis in
  let a' := quasiLoop commonWords moduleName quasis expressions a in
  length (newQuasis a')
  = (length (newQuasis a) + length segs
     + length expressions `min` length quasis)%nat
  /\ length (newExpressions a')
     = (length (newExpressions a) + length (List.filter (existsb zh) segs)
        + length expressions `min` length quasis)%nat
  /\ acc_state a'
     = fold_left record (List.filter (existsb zh) segs) (acc_state a).
Proof.
  revert expressions a.
  induction quasis as [|quasi quasis IH]; intros expressions a Hpend.
  - cbn [quasiLoop flat_map List.filter length fold_left].
    rewrite Nat.min_0_r. split; [lia|]. split; [lia|done].
  - cbn [quasiLoop flat_map]. fold (segments quasi).
    destruct (segments_runs (raw quasi)) as (_ & Hh & Ha).
    fold (segments quasi) in Hh, Ha.
    destruct (fold_segments (segments quasi) a Hh Ha (or_introl Hpend))
      as (H1 & H2 & H3 & H4).
    rewrite Hpend in H1. cbn [jseqb] in H1.
    set (a1 := flushPendingQuasi (fold_left step (segments quasi) a)) in *.
    rewrite List.filter_app, !length_app, fold_left_app.
    destruct expressions as [|e expressions].
    + destruct (IH [] a1 H3) as (G1 & G2 & G3).
      rewrite G1, G2, G3, H1, H2, H4. cbn [length Nat.min].
      split; [lia|]. split; [lia|done].
    + edestruct (IH expressions) as (G1 & G2 & G3); [|rewrite G1, G2, G3].
      { done. }
      cbn [newQuasis newExpressions acc_state length Nat.min].
      rewrite !length_app, H1, H2, H4. cbn [length].
      split; [lia|]. split; [lia|done].
Qed.

Lemma hasChinese_zh quasis :
  existsb (fun q => test zhReg (raw q)) quasis
  = existsb (fun q => existsb zh (raw q)) quasis.
Proof.
  induction quasis as [|q quasis IH]; [done|].
  cbn [existsb]. by rewrite test_zhReg, IH.
Qed.

(** X9: for a template literal not yet marked whose quasis hold a
    target character, the arrays the visitor builds have one
    expression for each run of target characters and each original
    expression (as far as there are quasis), and as many quasis as
    expressions plus the number of non-empty texts between the runs,
    or plus one when there is no such text; the runs are recorded in
    their order.  With at most one such text [t.templateLiteral]
    takes the arrays and the node is replaced by the marked literal;
    with two or more it throws, the runs being recorded already. *)
Theorem template_literal_counts quasis expressions parent st :
  existsb (fun q => existsb zh (raw q)) quasis = true ->
  let segs := flat_map segments quasis in
  let runs := List.filter (existsb zh) segs in
  let texts := List.filter (fun p => negb (existsb zh p)) segs in
  let '(qs, es, st') :=
    rewriteTemplateLiteral commonWords moduleName quasis expressions st in
  length es = (length runs + length expressions `min` length quasis)%nat
  /\ length qs = (length es + 1 `max` length texts)%nat
  /\ st' = with_localeMap st
             (record_all commonWords (map (pair moduleName) runs)
                (localeMap st))
  /\ scriptTemplateLiteral commonWords moduleName
       {| path_node := TemplateLiteral quasis expressions false;
          path_parent := parent |} st
     = if (length texts <=? 1)%nat
       then (ReplaceWith (TemplateLiteral qs es true), st')
       else (Throw, st').
Proof.
  intros Hzh segs runs texts.
  unfold scriptTemplateLiteral. cbn [path_node].
  rewrite hasChinese_zh, Hzh. cbn [negb].
  unfold rewriteTemplateLiteral.
  destruct (quasiLoop_counts quasis expressions
              {| newQuasis := []; newExpressions := [];
                 pendingQuasi := []; acc_state := st |} eq_refl)
    as (H1 & H2 & H3).
  cbn [newQuasis newExpressions acc_state length] in H1, H2, H3.
  fold segs in H1, H2, H3. fold runs in H2, H3.
  set (a := quasiLoop _ _ _ _ _) in *.
  assert (length segs = (length runs + length texts)%nat) as Hs.
  { subst runs texts. clear. induction segs as [|p segs IH]; [done|].
    cbn [List.filter length]. destruct (existsb zh p); simpl; lia. }
  assert (length (padQuasis (markTail (newQuasis a)) (newExpressions a))
          = (length (newExpressions a) + 1 `max` length texts)%nat) as Hq.
  { unfold padQuasis. rewrite length_app, repeat_length, markTail_length.
    lia. }
  split; [lia|]. split; [exact Hq|]. split.
  { rewrite H3. apply record_all_st. }
  unfold templateLiteral. rewrite Hq.
  destruct (length texts <=? 1)%nat eqn:E.
  - apply Nat.leb_le in E.
    replace (_ =? _)%nat with true
      by (symmetry; apply Nat.eqb_eq; lia).
    by rewrite H3, record_all_st.
  - apply Nat.leb_gt in E.
    replace (_ =? _)%nat with false
      by (symmetry; apply Nat.eqb_neq; lia).
    by rewrite H3, record_all_st.
Qed.
End Literal.

Section ReplaceFixed.
Context {St : Type}.
Variable r : regex.
Variable f : jsstring -> captures -> St -> jsstring * St.

(** A text whose every match is replaced by itself, the state being
    kept, comes out as it is. *)
Lemma replace_all_fixed s st :
  exec_at r [] = None ->
  (forall b1 b2 a b c,
     s = b1 ++ b2 -> b2 = a ++ b -> matches r [] a b c ->
     exec_at r b2 = Some (length a, c) ->
     a <> [] /\ f a c st = (a, st)) ->
  replace_all r f s st = (s, st).
Proof.
  intros Hnil H. rewrite <- (app_nil_r s) at 1.
  rewrite replace_all_copy.
  - unfold replace_all. simpl. by rewrite Hnil, app_nil_r.
  - intros b1 x b2 ->. rewrite app_nil_r.
    destruct (exec_at r (x :: b2)) as [[len c]|] eqn:E; [right|by left].
    pose proof E as E'.
    apply exec_at_sound in E' as (a & b & Hs & Hm & ->).
    destruct (H b1 (x :: b2) a b c eq_refl Hs Hm E) as [Ha Hf].
    by exists a, b, c.
Qed.
End ReplaceFixed.

Lemma existsb_app_false {A} (p : A -> bool) l1 l2 :
  existsb p (l1 ++ l2) = false ->
  existsb p l1 = false /\ existsb p l2 = false.
Proof. rewrite existsb_app. apply orb_false_elim. Qed.

(** What a match of [tagTextReg] looks like. *)
Lemma tagTextReg_inv a b c' :
  matches tagTextReg [] a b c' ->
  exists raw, a = [62] ++ raw ++ [60] /\ c' = [(1%nat, raw)]
              /\ forallb (none_of [60]) raw = true.
Proof.
  unfold tagTextReg. intros H.
  repeat match goal with
         | H : matches (_ ~~ _) _ _ _ _ |- _ => inversion H; subst; clear H
         | H : matches (Grp _ _) _ _ _ _ |- _ => inversion H; subst; clear H
         | H : matches (Chr _) _ _ _ _ |- _ => inversion H; subst; clear H
         | H : matches (Star _) _ _ _ _ |- _ => inversion H; subst; clear H
         end.
  eexists. split; [|split; [reflexivity|eassumption]]. done.
Qed.

Lemma opens_literal_no_zh s : existsb zh s = false -> opens_literal s = false.
Proof.
  induction s as [|x s IH]; [done|]. intros H. simpl in H.
  apply orb_false_elim in H as [Hx Hs]. destruct s as [|y s]; [done|].
  change (opens_literal (x :: y :: s))
    with ((one_of [SQ; DQ] x && zh y) || opens_literal (y :: s)).
  rewrite IH by done. simpl in Hs.
  apply orb_false_elim in Hs as [-> _]. by rewrite andb_false_r.
Qed.

Section NoTarget.
Variable commonWords : list jsstring.
Variable parse : list plugin -> jsstring -> option node.
Variable traverse : Visitor -> node -> state -> option node * state.
Variable generate : bool -> node -> option jsstring.
Variable moduleName : jsstring.

Lemma attributePass_no_target s st :
  existsb zh s = false ->
  attributePass commonWords parse traverse generate moduleName s st = (s, st).
Proof.
  intros Hs. unfold attributePass. apply replace_all_fixed; [done|].
  intros b1 b2 a b c -> -> Hm _. exfalso.
  apply attrReg_inv in Hm as (w & name & value & -> & _ & _ & _ & _ & Hz).
  apply existsb_app_false in Hs as [_ Hs].
  apply existsb_app_false in Hs as [Hs _].
  rewrite !existsb_app, Hz in Hs. simpl in Hs.
  by rewrite !orb_true_r in Hs.
Qed.

Lemma tagTextPass_no_target s st :
  existsb zh s = false ->
  tagTextPass commonWords moduleName s st = (s, st).
Proof.
  intros Hs. unfold tagTextPass. apply replace_all_fixed; [done|].
  intros b1 b2 a b c -> -> Hm _.
  apply tagTextReg_inv in Hm as (raw & -> & -> & Hraw).
  split; [done|]. unfold tagTextCallback, group. cbn [get_cap Nat.eqb].
  rewrite test_zhReg.
  apply existsb_app_false in Hs as [_ Hs].
  apply existsb_app_false in Hs as [Hs _].
  apply (existsb_app_false _ [62]) in Hs as [_ Hs].
  apply existsb_app_false in Hs as [-> _]. cbn [negb].
  by rewrite orb_true_r.
Qed.

Lemma interpolationPass_no_literal s st :
  opens_literal s = false ->
  interpolationPass commonWords moduleName s st = (s, st).
Proof.
  intros Hs. unfold interpolationPass. apply replace_all_fixed; [done|].
  intros b1 b2 a b c -> -> Hm _.
  apply mustacheReg_inv in Hm as (E & -> & -> & HE).
  split; [done|]. unfold mustacheCallback, group. cbn [get_cap Nat.eqb].
  rewrite replace_quoted_copy; [done|].
  apply opens_literal_app_r, opens_literal_app_l in Hs.
  by apply (opens_literal_app_r [123; 123]), opens_literal_app_l in Hs.
Qed.

(** X1: a template without target character comes out of
    [transformTemplate] as it is, and nothing is recorded or
    reported, whatever the parser, the traversal and the generator
    are: they are not called. *)
Theorem template_without_target template st :
  existsb zh template = false ->
  transformTemplate commonWords parse traverse generate
    template moduleName st
  = (template, st).
Proof.
  intros H. unfold transformTemplate.
  rewrite attributePass_no_target, tagTextPass_no_target by done.
  rewrite interpolationPass_no_literal by by apply opens_literal_no_zh.
  by apply tagTextPass_no_target.
Qed.
End NoTarget.

(** * Matches of [tagTextReg] and the tests of the tag-text pass *)

Lemma tagTextReg_commits raw rest :
  forallb (none_of [ch "<"]) raw = true ->
  commits tagTextReg ([62] ++ raw ++ [60]) rest [] [(1%nat, raw)].
Proof.
  intros H. unfold tagTextReg.
  eapply commits_Seq; [apply commits_Chr|].
  eapply commits_Seq; [|apply commits_Chr].
  apply commits_Grp. by apply commits_Star.
Qed.

Lemma tagTextReg_no_match x s :
  none_of [ch ">"] x = true -> exec_at tagTextReg (x :: s) = None.
Proof.
  unfold none_of, one_of. cbn [existsb].
  rewrite orb_false_r, negb_true_iff.
  intros H. unfold exec_at, tagTextReg. cbn [rmatch]. by rewrite H.
Qed.

Lemma test_commentReg s :
  forallb (none_of [ch "<"]) s = true -> test commentReg s = false.
Proof.
  induction s as [|x s IH]; [done|]. intros [Hx Hs]%andb_prop.
  cbn [test]. rewrite IH by done.
  unfold none_of, one_of in Hx. cbn [existsb] in Hx.
  rewrite orb_false_r, negb_true_iff in Hx.
  unfold exec_at, commentReg. cbn [rmatch]. by rewrite Hx.
Qed.

Lemma blankReg_zh s :
  existsb zh s = true -> test_anchored blankReg s = false.
Proof.
  intros H. unfold test_anchored.
  destruct (exec_at blankReg s) as [[len c]|] eqn:E; [exfalso|done].
  apply exec_at_sound in E as (a & b & -> & Hm & _).
  unfold blankReg in Hm. inversion Hm; subst; clear Hm.
  repeat match goal with
         | H : matches (Star _) _ _ _ _ |- _ => inversion H; subst; clear H
         | H : matches Eol _ _ _ _ |- _ => inversion H; subst; clear H
         end.
  rewrite !app_nil_r in H.
  apply existsb_exists in H as (x & Hx & Hz).
  match goal with H : forallb ws _ = true |- _ =>
    rewrite forallb_forall in H; apply H in Hx end.
  apply zh_not_ws in Hz. congruence.
Qed.

Lemma includes_no_dollar s :
  forallb (none_of [ch "$"]) s = true -> includes s (u "$t(") = false.
Proof.
  induction s as [|x s IH]; [done|]. intros [Hx Hs]%andb_prop.
  cbn [includes]. rewrite IH by done.
  unfold none_of, one_of in Hx. cbn [existsb] in Hx.
  rewrite orb_false_r, negb_true_iff in Hx.
  cbn [startsWith u]. fold (ch "$"). by rewrite Hx.
Qed.

Lemma split_from_no_brace s cur :
  forallb (none_of [ch "{"]) s = true ->
  split_from mustacheSplitReg 1 s 0 cur = [cur ++ s].
Proof.
  revert cur. induction s as [|x s IH]; intros cur.
  - by rewrite app_nil_r.
  - intros [Hx Hs]%andb_prop. cbn [split_from].
    unfold none_of, one_of in Hx. cbn [existsb] in Hx.
    rewrite orb_false_r, negb_true_iff in Hx.
    assert (exec_at mustacheSplitReg (x :: s) = None) as ->.
    { unfold exec_at, mustacheSplitReg. cbn [rmatch]. by rewrite Hx. }
    rewrite IH by done. by rewrite <- app_assoc.
Qed.

Lemma split_by_no_brace s :
  s <> [] -> forallb (none_of [ch "{"]) s = true ->
  filter_Boolean (split_by mustacheSplitReg 1 s) = [s].
Proof.
  intros Hne H. destruct s as [|x s]; [done|].
  unfold split_by. by rewrite split_from_no_brace.
Qed.

Section ZhRuns.
Context {St : Type}.
Variable f : jsstring -> captures -> St -> jsstring * St.

(** The first run of target characters is replaced; the text before
    it is kept. *)
Lemma replace_zh_run pre run post st :
  existsb zh pre = false -> run <> [] -> forallb zh run = true ->
  stops zh post ->
  replace_all zhReg f (pre ++ run ++ post) st =
  let '(rep, st1) := f run [] st in
  let '(out, st2) := replace_all zhReg f post st1 in
  (pre ++ rep ++ out, st2).
Proof.
  intros Hpre Hne Hrun Hpost.
  rewrite (replace_all_prefix _ _ (fun c => negb (zh c))).
  - destruct run as [|x run]; [done|]. simpl in Hrun.
    apply andb_prop in Hrun as [Hx Hrun].
    assert (exec_at zhReg ((x :: run) ++ post)
            = Some (length (x :: run), [])) as He.
    { apply commits_exec. by apply commits_Plus. }
    rewrite (replace_all_match _ _ (x :: run) post [] st) by done.
    destruct (f (x :: run) [] st) as [rep st1].
    by destruct (replace_all zhReg f post st1).
  - intros x s Hx. apply exec_at_zhReg_None. by apply negb_true_iff.
  - by apply existsb_false_forall.
Qed.
End ZhRuns.

(** A text that ends with [<] is cut at its first [<]. *)
Lemma first_tag_open t :
  exists inner tail,
    t ++ [60] = inner ++ 60 :: tail
    /\ forallb (none_of [ch "<"]) inner = true
    /\ (tail = [] \/ exists t', tail = t' ++ [60]).
Proof.
  induction t as [|x t (inner & tail & E & Hi & Ht)].
  - exists [], []. split; [done|]. split; [done|by left].
  - destruct (x =? 60) eqn:Ex.
    + apply N.eqb_eq in Ex. subst x. exists [], (t ++ [60]).
      split; [done|]. split; [done|]. right. by exists t.
    + exists (x :: inner), tail. cbn [app]. rewrite E.
      split; [done|]. split; [|done]. cbn [forallb]. rewrite Hi.
      unfold none_of, one_of. cbn [existsb].
      change (ch "<") with 60. by rewrite Ex.
Qed.

Section TagScan.
Context {St : Type}.
Variable f : jsstring -> captures -> St -> jsstring * St.

(** In a text that ends with [<] every match of [tagTextReg] ends in
    the text, whatever follows: the scan stands behind it, having
    done what the replacement does on the text alone. *)
Lemma tag_scan_closed t rest st :
  t = [] \/ (exists t', t = t' ++ [60]) ->
  scan_before tagTextReg f t rest st = Some (replace_all tagTextReg f t st).
Proof.
  remember (length t) as n eqn:Hn. revert t Hn st.
  induction (lt_wf n) as [n _ IH]. intros t -> st [->|[t' ->]]; [done|].
  destruct (first_tag_open t') as (inner & tail & E & Hi & Ht).
  destruct inner as [|x inner].
  - (* the text starts with [<] *)
    cbn [app] in E. rewrite E.
    unfold scan_before. cbn [scan_from]. rewrite replace_all_skip by done.
    assert (exec_at tagTextReg ((60 :: tail) ++ rest) = None) as -> by done.
    fold (scan_before tagTextReg f tail rest st).
    rewrite (IH (length tail));
        [|rewrite E, ?length_app; simpl; lia|done|exact Ht].
    by destruct (replace_all tagTextReg f tail st).
  - destruct (x =? 62) eqn:Ex.
    + (* a match, up to the first [<] *)
      apply N.eqb_eq in Ex. subst x.
      cbn [forallb] in Hi. apply andb_prop in Hi as [_ Hi].
      rewrite E.
      replace ((62 :: inner) ++ 60 :: tail)
        with (([62] ++ inner ++ [60]) ++ tail)
        by (cbn [app]; by rewrite <- app_assoc).
      pose proof (commits_exec _ _ _ _
                    (tagTextReg_commits inner (tail ++ rest) Hi)) as H1.
      pose proof (commits_exec _ _ _ _
                    (tagTextReg_commits inner tail Hi)) as H2.
      rewrite (scan_before_match _ _ ([62] ++ inner ++ [60]) tail rest _ st
                 ltac:(done) H1).
      rewrite (replace_all_match _ _ ([62] ++ inner ++ [60]) tail _ st
                 ltac:(done) H2).
      destruct (f _ _ st) as [rep st1].
      rewrite (IH (length tail));
        [|rewrite E, ?length_app; simpl; lia|done|exact Ht].
      by destruct (replace_all tagTextReg f tail st1).
    + (* no match starts here *)
      assert (none_of [ch ">"] x = true) as Hx.
      { unfold none_of, one_of. cbn [existsb]. change (ch ">") with 62.
        by rewrite Ex. }
      rewrite E. cbn [app].
      unfold scan_before. cbn [scan_from].
      rewrite replace_all_skip by (by apply tagTextReg_no_match).
      cbn [app]. rewrite (tagTextReg_no_match x _ Hx).
      fold (scan_before tagTextReg f (inner ++ 60 :: tail) rest st).
      rewrite (IH (length (inner ++ 60 :: tail)));
        [|rewrite E, ?length_app; simpl; lia|done|].
      * by destruct (replace_all tagTextReg f (inner ++ 60 :: tail) st).
      * right. destruct Ht as [->|[t2 ->]].
        -- by exists inner.
        -- exists (inner ++ 60 :: t2). by rewrite <- app_assoc.
Qed.

(** The scan stands in front of every [>] with no other [>] between
    it and the [<] before it: in front of the [>] that closes a
    tag. *)
Lemma tag_scan_stands b1 b2 rest st :
  forallb (none_of [ch ">"]) b2 = true ->
  scan_before tagTextReg f (b1 ++ u "<" ++ b2) rest st
  = let '(out, st1) := replace_all tagTextReg f (b1 ++ u "<") st in
    Some (out ++ b2, st1).
Proof.
  intros H2. unfold scan_before. rewrite app_assoc.
  pose proof (tag_scan_closed (b1 ++ u "<") (b2 ++ rest) st
                (or_intror (ex_intro _ b1 eq_refl))) as H.
  unfold scan_before in H.
  destruct (replace_all tagTextReg f (b1 ++ u "<") st) as [out st1].
  rewrite (scan_from_app _ _ _ _ _ _ _ _ _ H).
  fold (scan_before tagTextReg f b2 rest st1).
  rewrite scan_before_unmatched; [done|].
  intros c x c' ->. apply tagTextReg_no_match.
  rewrite forallb_app in H2. cbn [forallb] in H2.
  by apply andb_prop in H2 as [_ [? _]%andb_prop].
Qed.

(** It stands in front of the first [>] of the text as well. *)
Lemma tag_scan_first before rest st :
  forallb (none_of [ch ">"]) before = true ->
  scan_before tagTextReg f before rest st = Some (before, st).
Proof.
  intros H. apply scan_before_unmatched. intros c x c' ->.
  apply tagTextReg_no_match.
  rewrite forallb_app in H. cbn [forallb] in H.
  by apply andb_prop in H as [_ [? _]%andb_prop].
Qed.
End TagScan.

Section TagText.
Variable commonWords : list jsstring.
Variable moduleName : jsstring.

(** The text between [>] and [<] the scan stands in front of is
    handed to the callback, and the pass goes on behind the [<]. *)
Lemma tagTextPass_at before raw rest st out0 st0 :
  scan_before tagTextReg (tagTextCallback commonWords moduleName)
    before (u ">" ++ raw ++ u "<" ++ rest) st
  = Some (out0, st0) ->
  forallb (none_of [ch "<"]) raw = true ->
  tagTextPass commonWords moduleName
    (before ++ u ">" ++ raw ++ u "<" ++ rest) st
  = let '(rep, st1) :=
      tagTextCallback commonWords moduleName
        (u ">" ++ raw ++ u "<") [(1%nat, raw)] st0 in
    let '(out, st2) := tagTextPass commonWords moduleName rest st1 in
    (out0 ++ rep ++ out, st2).
Proof.
  intros Hscan H1. unfold tagTextPass.
  rewrite (replace_all_scan _ _ _ _ _ _ _ Hscan).
  pose proof (commits_exec _ _ _ _ (tagTextReg_commits raw rest H1)) as Hm.
  replace (u ">" ++ raw ++ u "<" ++ rest)
    with (([62] ++ raw ++ [60]) ++ rest) by (by rewrite <- !app_assoc).
  erewrite replace_all_match; [|done|exact Hm].
  change ([62] ++ raw ++ [60]) with (u ">" ++ raw ++ u "<").
  destruct (tagTextCallback _ _ _ _ _) as [rep st1].
  by destruct (replace_all tagTextReg _ rest st1) as [out st2].
Qed.

(** X2: a text between [>] and [<] in front of which the scan of the
    tag-text pass stands, when it holds neither brace nor dollar
    sign: its first run of target characters becomes an interpolation
    of a call on the run, the run is recorded, the text before it is
    kept, and the pass goes on behind it and behind the [<]; what the
    scan wrote and recorded before stays.  The scan stands in front
    of the first [>] of a template, and in front of every [>] with no
    other [>] between it and the [<] before it, where it has done
    what the pass does on the template up to that [<]. *)
Theorem tag_text_first_run :
  (forall before pre run post rest st out0 st0,
     scan_before tagTextReg (tagTextCallback commonWords moduleName)
       before (u ">" ++ (pre ++ run ++ post) ++ u "<" ++ rest) st
     = Some (out0, st0) ->
     forallb (none_of [ch "<"; ch "{"; ch "$"]) (pre ++ run ++ post)
       = true ->
     existsb zh pre = false ->
     run <> [] -> forallb zh run = true -> stops zh post ->
     tagTextPass commonWords moduleName
       (before ++ u ">" ++ (pre ++ run ++ post) ++ u "<" ++ rest) st
     = let '(post', st1) :=
         replace_all zhReg (zhRunCallback commonWords moduleName) post
           (addLocale_st commonWords moduleName run st0) in
       let '(out, st2) := tagTextPass commonWords moduleName rest st1 in
       (out0 ++ u ">" ++ pre ++ u "{{ $t('"
          ++ translationKey commonWords moduleName run ++ u "') }}"
          ++ post' ++ u "<" ++ out,
        st2))
  /\ (forall before rest st,
        forallb (none_of [ch ">"]) before = true ->
        scan_before tagTextReg (tagTextCallback commonWords moduleName)
          before rest st
        = Some (before, st))
  /\ (forall b1 b2 rest st,
        forallb (none_of [ch ">"]) b2 = true ->
        scan_before tagTextReg (tagTextCallback commonWords moduleName)
          (b1 ++ u "<" ++ b2) rest st
        = let '(out, st1) :=
            tagTextPass commonWords moduleName (b1 ++ u "<") st in
          Some (out ++ b2, st1)).
Proof.
  split; [|split; [apply tag_scan_first|apply tag_scan_stands]].
  intros before pre run post rest st out0 st0 Hscan Hraw Hpre Hne Hrun Hpost.
  set (raw := pre ++ run ++ post) in *.
  assert (forallb (none_of [ch "<"]) raw = true
          /\ forallb (none_of [ch "{"]) raw = true
          /\ forallb (none_of [ch "$"]) raw = true) as (H1 & H2 & H3).
  { rewrite !forallb_forall in *. repeat split; intros x Hx;
      specialize (Hraw x Hx); unfold none_of, one_of in *;
      cbn [existsb] in *; rewrite !negb_true_iff, !orb_false_iff in *;
      tauto. }
  assert (existsb zh raw = true) as Hz.
  { subst raw. rewrite !existsb_app, (existsb_forallb_zh run) by done.
    by rewrite orb_true_r. }
  rewrite (tagTextPass_at _ _ _ _ _ _ Hscan H1).
  unfold tagTextCallback at 1. unfold group. cbn [get_cap Nat.eqb].
  rewrite test_commentReg, test_zhReg, Hz, blankReg_zh, includes_no_dollar
    by done.
  cbn [negb orb].
  rewrite split_by_no_brace; [|by destruct raw|done].
  cbn [map_st].
  assert (startsWith raw (u "{{") = false) as ->.
  { destruct raw as [|x raw']; [done|]. cbn [forallb] in H2.
    apply andb_prop in H2 as [H2 _]. unfold none_of, one_of in H2.
    cbn [existsb] in H2. rewrite orb_false_r, negb_true_iff in H2.
    cbn [startsWith u]. change (N_of_ascii "{") with (ch "{").
    by rewrite H2. }
  subst raw. rewrite replace_zh_run by done.
  unfold zhRunCallback at 1.
  destruct (replace_all zhReg _ post _) as [post' st1].
  cbn [join].
  destruct (tagTextPass commonWords moduleName rest st1) as [out st2].
  by rewrite <- !app_assoc.
Qed.

(** X3: a text between [>] and [<] in front of which the scan stands
    and that holds [$t(] is left as it is by the tag-text pass,
    target characters or not, and nothing is recorded for it. *)
Theorem tag_text_with_call before raw rest st out0 st0 :
  scan_before tagTextReg (tagTextCallback commonWords moduleName)
    before (u ">" ++ raw ++ u "<" ++ rest) st
  = Some (out0, st0) ->
  forallb (none_of [ch "<"]) raw = true ->
  includes raw (u "$t(") = true ->
  tagTextPass commonWords moduleName
    (before ++ u ">" ++ raw ++ u "<" ++ rest) st
  = let '(out, st1) := tagTextPass commonWords moduleName rest st0 in
    (out0 ++ u ">" ++ raw ++ u "<" ++ out, st1).
Proof.
  intros Hscan H1 Hcall.
  rewrite (tagTextPass_at _ _ _ _ _ _ Hscan H1).
  unfold tagTextCallback at 1. unfold group. cbn [get_cap Nat.eqb].
  rewrite Hcall, !orb_true_r.
  destruct (tagTextPass commonWords moduleName rest st0) as [out st1].
  by rewrite <- !app_assoc.
Qed.
End TagText.

Lemma test_app_r r a b : test r b = true -> test r (a ++ b) = true.
Proof.
  intros H. induction a as [|x a IH]; [done|].
  cbn [app test]. by destruct (exec_at r (x :: a ++ b)).
Qed.

(** A call [$t('key')], the key without quote, passes the test of
    the attribute pass. *)
Lemma tCallReg_call pre q k key post :
  one_of [SQ; DQ] q = true ->
  forallb (none_of [SQ; DQ]) (k :: key) = true ->
  test tCallReg (pre ++ u "$t(" ++ [q] ++ (k :: key) ++ [q] ++ u ")" ++ post)
  = true.
Proof.
  intros Hq Hkey. apply test_app_r.
  simpl in Hkey. apply andb_prop in Hkey as [Hk Hkey].
  assert (commits tCallReg
            ([36] ++ [116] ++ [40] ++ [q] ++ (k :: key) ++ [q] ++ [41])
            post [] []) as Hc.
  { unfold tCallReg.
    repeat (eapply commits_Seq; [apply commits_Chr|]).
    eapply commits_Seq; [by apply commits_Cls|].
    eapply commits_Seq.
    { apply commits_Plus; [done..|]. simpl. unfold none_of. by rewrite Hq. }
    eapply commits_Seq; [by apply commits_Cls|]. apply commits_Chr. }
  apply commits_exec in Hc.
  replace (u "$t(" ++ [q] ++ (k :: key) ++ [q] ++ u ")" ++ post)
    with (([36] ++ [116] ++ [40] ++ [q] ++ (k :: key) ++ [q] ++ [41]) ++ post)
    by (by norm_app).
  destruct (_ ++ post) as [|x s] eqn:E; [done|].
  cbn [test]. by rewrite Hc.
Qed.

Lemma forallb_trimStart (p : N -> bool) s :
  forallb p s = true -> forallb p (trimStart s) = true.
Proof.
  induction s as [|x s IH]; [done|]. intros H. simpl.
  destruct (ws x); [|done]. apply IH. simpl in H.
  by apply andb_prop in H as [_ ?].
Qed.

Lemma forallb_rev {A} (p : A -> bool) l : forallb p (rev l) = forallb p l.
Proof.
  induction l as [|x l IH]; [done|]. simpl.
  rewrite forallb_app, IH. simpl. rewrite andb_true_r. apply andb_comm.
Qed.

Lemma forallb_trim (p : N -> bool) s :
  forallb p s = true -> forallb p (trim s) = true.
Proof.
  intros H. unfold trim, trimEnd. rewrite forallb_rev.
  apply forallb_trimStart. rewrite forallb_rev. by apply forallb_trimStart.
Qed.

Section Attributes.
Variable commonWords : list jsstring.
Variable parse : list plugin -> jsstring -> option node.
Variable traverse : Visitor -> node -> state -> option node * state.
Variable generate : bool -> node -> option jsstring.
Variable moduleName : jsstring.

Abbreviation attributePass' :=
  (attributePass commonWords parse traverse generate moduleName).

(** The first attribute with a target character is handed to the
    callback, and the pass goes on behind it. *)
Lemma attributePass_first before w name value post st :
  existsb zh before = false ->
  ws w = true -> name <> [] -> forallb name_char name = true ->
  forallb (none_of [DQ]) value = true -> existsb zh value = true ->
  attributePass' (before ++ [w] ++ name ++ u "=" ++ [DQ] ++ value ++ [DQ]
                    ++ post) st
  = let '(rep, st1) :=
      attrCallback commonWords parse traverse generate moduleName
        ([w] ++ name ++ u "=" ++ [DQ] ++ value ++ [DQ])
        [(3%nat, value); (2%nat, name); (1%nat, [w])] st in
    let '(out, st2) := attributePass' post st1 in
    (before ++ rep ++ out, st2).
Proof.
  intros Hbefore Hw Hne Hname Hv Hz.
  destruct name as [|n name]; [done|].
  unfold attributePass.
  rewrite replace_all_before.
  2:{ intros b1 x b2 ->. rewrite existsb_app in Hbefore.
      apply orb_false_elim in Hbefore as [_ Hbefore].
      by apply (attrReg_no_early_match x b2 w (n :: name)). }
  pose proof (attrReg_commits w n name value post Hw Hname Hv Hz) as Hm.
  apply commits_exec in Hm.
  replace ([w] ++ (n :: name) ++ u "=" ++ [DQ] ++ value ++ [DQ] ++ post)
    with (([w] ++ (n :: name) ++ [61] ++ [DQ] ++ value ++ [DQ]) ++ post)
    by (by rewrite <- !app_assoc).
  erewrite replace_all_match; [|done|exact Hm].
  destruct (attrCallback _ _ _ _ _ _ _ _) as [rep st1].
  by destruct (replace_all _ _ post _) as [out st2].
Qed.

(** X4: a dynamic attribute in front of which the scan of the
    attribute pass stands, and whose value holds a call [$t('...')],
    is left as it is; the value is not handed to the parser and
    nothing is recorded or reported for it. *)
Theorem dynamic_attribute_with_call
    before w name value post st out0 st0 :
  scan_before attrReg
    (attrCallback commonWords parse traverse generate moduleName)
    before ([w] ++ name ++ u "=" ++ [DQ] ++ value ++ [DQ] ++ post) st
  = Some (out0, st0) ->
  ws w = true -> name <> [] -> forallb name_char name = true ->
  startsWith name (u ":") || startsWith name (u "v-bind") = true ->
  forallb (none_of [DQ]) value = true -> existsb zh value = true ->
  test tCallReg value = true ->
  attributePass' (before ++ [w] ++ name ++ u "=" ++ [DQ] ++ value ++ [DQ]
                    ++ post) st
  = let '(out, st') := attributePass' post st0 in
    (out0 ++ [w] ++ name ++ u "=" ++ [DQ] ++ value ++ [DQ] ++ out, st').
Proof.
  intros Hscan Hw Hne Hname Hd Hv Hz Hcall.
  rewrite (attributePass_at _ _ _ _ _ _ _ _ _ _ _ _ _ Hscan) by done.
  unfold attrCallback, group. cbn [get_cap Nat.eqb].
  rewrite (trim_zh_nonempty value Hz), Hd, Hcall.
  destruct (attributePass' post st0) as [out st'].
  by rewrite <- !app_assoc.
Qed.
(** X5: run on its own result, the attribute pass leaves a static
    attribute it has rewritten as it is and records nothing, when
    neither the text nor the namespace holds a quote. *)
Theorem static_attribute_twice before w name value post st :
  existsb zh before = false ->
  ws w = true -> name <> [] -> forallb name_char name = true ->
  startsWith name (u ":") = false ->
  startsWith name (u "v-bind") = false ->
  forallb (none_of [SQ; DQ]) value = true -> existsb zh value = true ->
  forallb (none_of [SQ; DQ]) moduleName = true ->
  existsb zh post = false ->
  let '(once, st1) :=
    attributePass' (before ++ [w] ++ name ++ u "=" ++ [DQ] ++ value ++ [DQ]
                      ++ post) st in
  once = before ++ [w] ++ u ":" ++ name ++ u "=" ++ [DQ] ++ u "$t('"
           ++ translationKey commonWords moduleName (trim value) ++ u "')"
           ++ [DQ] ++ post
  /\ attributePass' once st1 = (once, st1).
Proof.
  intros Hbefore Hw Hne Hname Hc Hb Hv Hz Hm Hpost.
  assert (forallb (none_of [DQ]) value = true) as Hv'.
  { rewrite forallb_forall in *. intros x Hx. specialize (Hv x Hx).
    unfold none_of, one_of in *. cbn [existsb] in *.
    rewrite negb_true_iff, !orb_false_iff in *. tauto. }
  rewrite attributePass_first by done.
  unfold attrCallback at 1. unfold group. cbn [get_cap Nat.eqb].
  rewrite (trim_zh_nonempty value Hz), Hc, Hb. cbn [orb].
  rewrite attributePass_no_target by done.
  set (text := trim value).
  remember (translationKey commonWords moduleName text) as key eqn:Ek.
  set (st1 := addLocale_st commonWords moduleName text st).
  split; [by rewrite <- !app_assoc|].
  assert (forallb (none_of [SQ; DQ]) key = true) as Hkey.
  { rewrite Ek. unfold translationKey, targetModule.
    rewrite !forallb_app. apply andb_true_intro. split.
    - by destruct (commonWords_has commonWords text).
    - apply andb_true_intro. split; [done|]. by apply forallb_trim. }
  assert (existsb zh key = true) as Hzk.
  { rewrite Ek. unfold translationKey. rewrite !existsb_app.
    subst text. rewrite (trim_zh value Hz). by rewrite !orb_true_r. }
  clear Ek. destruct key as [|k key]; [done|].
  rewrite <- !app_assoc.
  replace (before ++ [w] ++ u ":" ++ name ++ u "=" ++ [DQ] ++ u "$t('"
             ++ (k :: key) ++ u "')" ++ [DQ] ++ post)
    with (before ++ [w] ++ (u ":" ++ name) ++ u "=" ++ [DQ]
            ++ (u "$t('" ++ (k :: key) ++ u "')") ++ [DQ] ++ post)
    by (by rewrite <- !app_assoc).
  rewrite attributePass_first; [|done..| | |].
  - unfold attrCallback, group. cbn [get_cap Nat.eqb].
    assert (jseqb (trim (u "$t('" ++ (k :: key) ++ u "')")) [] = false)
      as ->.
    { apply trim_zh_nonempty. rewrite !existsb_app, Hzk.
      by rewrite orb_true_r. }
    assert (test tCallReg (u "$t('" ++ (k :: key) ++ u "')") = true) as ->.
    { apply (tCallReg_call [] SQ k key []); done. }
    rewrite startsWith_app. cbn [orb].
    rewrite attributePass_no_target by done.
    by rewrite <- !app_assoc.
  - simpl. by rewrite Hname.
  - rewrite !forallb_app. apply andb_true_intro. split; [done|].
    apply andb_true_intro. split; [|done].
    rewrite forallb_forall in *. intros x Hx. specialize (Hkey x Hx).
    unfold none_of, one_of in *. cbn [existsb] in *.
    rewrite negb_true_iff, !orb_false_iff in *. tauto.
  - rewrite !existsb_app, Hzk. by rewrite orb_true_r.
Qed.
End Attributes.

Section Keeps.
Variable commonWords : list jsstring.

Lemma table_add_keeps table text k :
  own_get table k = Some k -> own_get (table_add table text) k = Some k.
Proof.
  intros H. unfold table_add. destruct (table_has table text); [done|].
  destruct (decide (text = k)) as [->|Hne].
  - apply own_get_obj_set_eq.
  - by rewrite own_get_obj_set_ne.
Qed.

Lemma addLocale_keeps moduleName text (localeMap : registry) ns k :
  entry localeMap ns k ->
  entry (addLocale commonWords moduleName text localeMap) ns k.
Proof.
  intros (table & Hns & Hk). rewrite addLocale_unfold.
  set (t := targetModule commonWords moduleName text).
  destruct (decide (t = ns)) as [E|Hne].
  - rewrite E, Hns. exists (table_add table text).
    split; [apply own_get_obj_set_eq|by apply table_add_keeps].
  - exists table. split; [|done].
    destruct (own_get localeMap t) as [T|].
    + by rewrite own_get_obj_set_ne.
    + destruct (inherited t); [done|]. by rewrite own_get_obj_set_ne.
Qed.
End Keeps.

(** ** What the passes preserve

    [R] is a preorder on states that every insertion respects. *)
Section Preserved.
Variable commonWords : list jsstring.
Variable R : state -> state -> Prop.
Hypothesis R_refl : forall st, R st st.
Hypothesis R_trans : forall st1 st2 st3, R st1 st2 -> R st2 st3 -> R st1 st3.
Hypothesis R_add :
  forall moduleName text st,
    R st (addLocale_st commonWords moduleName text st).

Lemma replace_from_preserves r
    (f : jsstring -> captures -> state -> jsstring * state) s skip st :
  (forall m c st, R st (snd (f m c st))) ->
  R st (snd (replace_from r f s skip st)).
Proof.
  intros Hf. revert skip st. induction s as [|x s IH]; intros skip st.
  - simpl. destruct skip; [|apply R_refl].
    destruct (exec_at r []) as [[len c]|]; [apply Hf|apply R_refl].
  - cbn [replace_from]. destruct skip as [|n]; [|apply IH].
    destruct (exec_at r (x :: s)) as [[len c]|].
    + pose proof (Hf (firstn len (x :: s)) c st) as H1.
      destruct (f (firstn len (x :: s)) c st) as [rep st1].
      destruct len as [|n].
      * pose proof (IH 0%nat st1) as H.
        destruct (replace_from r f s 0 st1) as [out st2].
        by eapply R_trans.
      * pose proof (IH n st1) as H.
        destruct (replace_from r f s n st1) as [out st2].
        by eapply R_trans.
    + pose proof (IH 0%nat st) as H.
      by destruct (replace_from r f s 0 st) as [out st1].
Qed.

Lemma replace_all_preserves r
    (f : jsstring -> captures -> state -> jsstring * state) s st :
  (forall m c st, R st (snd (f m c st))) ->
  R st (snd (replace_all r f s st)).
Proof. apply replace_from_preserves. Qed.

Lemma map_st_preserves {A B} (f : A -> state -> B * state) l st :
  (forall a st, R st (snd (f a st))) ->
  R st (snd (map_st f l st)).
Proof.
  intros Hf. revert st. induction l as [|a l IH]; intros st.
  - apply R_refl.
  - cbn [map_st]. pose proof (Hf a st) as H1.
    destruct (f a st) as [b st1]. pose proof (IH st1) as H2.
    destruct (map_st f l st1) as [bs st2]. by eapply R_trans.
Qed.

Variable moduleName : jsstring.

Lemma tagTextCallback_preserves m c st :
  R st (snd (tagTextCallback commonWords moduleName m c st)).
Proof.
  unfold tagTextCallback. destruct (_ || _); [apply R_refl|].
  match goal with |- context [map_st ?f ?l st] =>
    pose proof (map_st_preserves f l st) as H;
    destruct (map_st f l st) as [transformed st1] end.
  apply H. intros part st'. destruct (startsWith part _); [apply R_refl|].
  apply replace_all_preserves. intros. apply R_add.
Qed.

Lemma mustacheCallback_preserves m c st :
  R st (snd (mustacheCallback commonWords moduleName m c st)).
Proof.
  unfold mustacheCallback.
  match goal with |- context [replace_all ?r ?f ?s st] =>
    pose proof (replace_all_preserves r f s st) as H;
    destruct (replace_all r f s st) as [replaced st1] end.
  apply H. intros. apply R_add.
Qed.

Lemma tagTextPass_preserves template st :
  R st (snd (tagTextPass commonWords moduleName template st)).
Proof. apply replace_all_preserves, tagTextCallback_preserves. Qed.

Lemma interpolationPass_preserves template st :
  R st (snd (interpolationPass commonWords moduleName template st)).
Proof. apply replace_all_preserves, mustacheCallback_preserves. Qed.

(** The visitors. *)
Lemma bindingVisitor_preserves p st :
  R st (snd (visit_StringLiteral (bindingVisitor commonWords moduleName) p st)).
Proof.
  cbn [bindingVisitor visit_StringLiteral].
  destruct (path_node p); try apply R_refl.
  destruct (_ && _); [apply R_add|apply R_refl].
Qed.

Lemma scriptStringLiteral_preserves p st :
  R st (snd (scriptStringLiteral commonWords moduleName p st)).
Proof.
  unfold scriptStringLiteral. destruct (path_node p); try apply R_refl.
  destruct (is_t_call _); [apply R_refl|].
  destruct (test zhReg value); [apply R_add|apply R_refl].
Qed.

Lemma flushPendingQuasi_state a :
  acc_state (flushPendingQuasi a) = acc_state a.
Proof. unfold flushPendingQuasi. by destruct (negb _). Qed.

Lemma segments_fold_preserves l a :
  R (acc_state a)
    (acc_state (fold_left (segmentStep commonWords moduleName) l a)).
Proof.
  revert a. induction l as [|s l IH]; intros a; [apply R_refl|].
  cbn [fold_left]. eapply R_trans; [|apply IH].
  unfold segmentStep. destruct (test zhReg s); cbn [acc_state].
  - rewrite flushPendingQuasi_state. apply R_add.
  - apply R_refl.
Qed.

Lemma quasiLoop_preserves quasis expressions a :
  R (acc_state a)
    (acc_state (quasiLoop commonWords moduleName quasis expressions a)).
Proof.
  revert expressions a.
  induction quasis as [|q quasis IH]; intros expressions a; [apply R_refl|].
  cbn [quasiLoop].
  assert (R (acc_state a)
            (acc_state
               (flushPendingQuasi
                  (fold_left (segmentStep commonWords moduleName)
                     (filter_Boolean (split_by zhSplitReg 1 (raw q))) a))))
    as H.
  { rewrite flushPendingQuasi_state. apply segments_fold_preserves. }
  destruct expressions as [|e expressions];
    (eapply R_trans; [exact H|]); [apply IH|].
  match goal with |- R _ (acc_state (quasiLoop _ _ _ _ ?a1)) =>
    exact (IH expressions a1) end.
Qed.

Lemma scriptTemplateLiteral_preserves p st :
  R st (snd (scriptTemplateLiteral commonWords moduleName p st)).
Proof.
  unfold scriptTemplateLiteral. destruct (path_node p); try apply R_refl.
  destruct i18nTransformed; [apply R_refl|].
  destruct (negb _); [apply R_refl|].
  unfold rewriteTemplateLiteral, templateLiteral.
  destruct (_ =? _)%nat; cbn [snd];
    apply (quasiLoop_preserves quasis expressions
             {| newQuasis := []; newExpressions := [];
                pendingQuasi := []; acc_state := st |}).
Qed.

Lemma scriptJSXText_preserves p st :
  R st (snd (scriptJSXText commonWords moduleName p st)).
Proof.
  unfold scriptJSXText. destruct (path_node p); try apply R_refl.
  destruct (negb _); [apply R_refl|].
  match goal with |- context [map_st ?f ?l st] =>
    pose proof (map_st_preserves f l st) as H;
    destruct (map_st f l st) as [nodes st1] end.
  apply H. intros part st'. unfold jsxPart.
  destruct (test zhReg part); [apply R_add|apply R_refl].
Qed.
End Preserved.

Lemma keeps_refl st : keeps st st.
Proof. by intros ns text. Qed.

Lemma keeps_trans st1 st2 st3 : keeps st1 st2 -> keeps st2 st3 -> keeps st1 st3.
Proof. intros H1 H2 ns text H. by apply H2, H1. Qed.

Lemma keeps_add commonWords moduleName text st :
  keeps st (addLocale_st commonWords moduleName text st).
Proof. intros ns k. apply addLocale_keeps. Qed.

Lemma grows_refl st : grows st st.
Proof. split; [done|apply keeps_refl]. Qed.

Lemma grows_trans st1 st2 st3 : grows st1 st2 -> grows st2 st3 -> grows st1 st3.
Proof.
  intros [H1 H2] [H3 H4]. split; [congruence|by eapply keeps_trans].
Qed.

Lemma grows_add commonWords moduleName text st :
  grows st (addLocale_st commonWords moduleName text st).
Proof. split; [done|apply keeps_add]. Qed.

Lemma by_visitors_mini_traverse : by_visitors mini_traverse.
Proof.
  intros v H1 _ _ ast st. unfold mini_traverse.
  repeat match goal with
         | |- context [match ?x with _ => _ end] =>
             lazymatch x with
             | visit_StringLiteral _ _ _ => fail
             | _ => destruct x; try apply keeps_refl
             end
         end.
  match goal with |- context [visit_StringLiteral v ?p st] =>
    pose proof (H1 p st) as H; destruct (visit_StringLiteral v p st) as [a st1]
  end.
  by destruct a.
Qed.

Section Run.
Variable commonWords : list jsstring.
Variable parse : list plugin -> jsstring -> option node.
Variable traverse : Visitor -> node -> state -> option node * state.
Variable generate : bool -> node -> option jsstring.
Variable parseSFC : jsstring -> SFCDescriptor.
Hypothesis traverse_by_visitors : by_visitors traverse.

Lemma transformBindingExpression_keeps expression moduleName st :
  keeps st
    (snd (transformBindingExpression commonWords parse traverse generate
            expression moduleName st)).
Proof.
  assert (forall st1, keeps st st1 ->
            keeps st (snd (catch_warn expression st1))) as Hw.
  { intros st1 H. exact H. }
  unfold transformBindingExpression.
  destruct (parse _ _) as [ast|]; [|apply Hw, keeps_refl].
  pose proof (traverse_by_visitors (bindingVisitor commonWords moduleName)
                (bindingVisitor_preserves commonWords keeps keeps_refl
                   (keeps_add commonWords) moduleName)
                (fun _ _ => keeps_refl _) (fun _ _ => keeps_refl _) ast st)
    as Ht.
  destruct (traverse _ ast st) as [[ast1|] st1]; [|by apply Hw].
  cbn [snd] in Ht.
  repeat match goal with
         | |- context [match ?x with _ => _ end] =>
             lazymatch x with
             | generate _ _ => fail
             | _ => destruct x; try done
             end
         end.
  destruct (generate true _) as [code|]; [|by apply Hw].
  destruct (includes code _); [done|].
  eapply keeps_trans; [exact Ht|].
  apply (replace_all_preserves keeps keeps_refl keeps_trans).
  intros m c st'. unfold zhPunctCallback.
  destruct (jseqb _ _); [apply keeps_refl|apply keeps_add].
Qed.

Lemma transformTemplate_keeps template moduleName st :
  keeps st
    (snd (transformTemplate commonWords parse traverse generate
            template moduleName st)).
Proof.
  unfold transformTemplate.
  assert (forall s st,
            keeps st (snd (attributePass commonWords parse traverse generate
                             moduleName s st))) as Ha.
  { intros s st'. unfold attributePass.
    apply (replace_all_preserves keeps keeps_refl keeps_trans).
    intros m c st2. unfold attrCallback.
    destruct (jseqb _ _); [apply keeps_refl|].
    destruct (_ || _); [|apply keeps_add].
    destruct (test tCallReg _); [apply keeps_refl|].
    pose proof (transformBindingExpression_keeps (group c 3) moduleName st2)
      as H.
    by destruct (transformBindingExpression _ _ _ _ _ _ _). }
  pose proof (tagTextPass_preserves commonWords keeps keeps_refl keeps_trans
                (keeps_add commonWords) moduleName) as Ht.
  pose proof (interpolationPass_preserves commonWords keeps keeps_refl
                keeps_trans (keeps_add commonWords) moduleName) as Hi.
  specialize (Ha template st).
  destruct (attributePass _ _ _ _ _ template st) as [t1 st1].
  pose proof (Ht t1 st1) as H2.
  destruct (tagTextPass _ _ t1 st1) as [t2 st2].
  pose proof (Hi t2 st2) as H3.
  destruct (interpolationPass _ _ t2 st2) as [t3 st3].
  pose proof (Ht t3 st3) as H4.
  eauto using keeps_trans.
Qed.

Lemma transformScript_keeps script moduleName st :
  keeps st
    (snd (transformScript commonWords parse traverse generate
            script moduleName st)).
Proof.
  unfold transformScript.
  destruct (parse _ _) as [ast|]; [|apply keeps_refl].
  pose proof (traverse_by_visitors (scriptVisitor commonWords moduleName)
                (scriptStringLiteral_preserves commonWords keeps keeps_refl
                   (keeps_add commonWords) moduleName)
                (scriptTemplateLiteral_preserves commonWords keeps keeps_refl
                   keeps_trans (keeps_add commonWords) moduleName)
                (scriptJSXText_preserves commonWords keeps keeps_refl
                   keeps_trans (keeps_add commonWords) moduleName) ast st)
    as Ht.
  by destruct (traverse _ ast st) as [[ast1|] st1].
Qed.

(** X7: a run never takes a pair out of the registry, whether its
    functions return or throw, when the traversal changes the state
    by calling the visitors only. *)
Theorem registry_is_kept moduleName st :
  (forall template,
     keeps st (snd (transformTemplate commonWords parse traverse generate
                      template moduleName st)))
  /\ (forall script,
        keeps st (snd (transformScript commonWords parse traverse generate
                         script moduleName st)))
  /\ (forall fileContent,
        keeps st (snd (processVueFile commonWords parse traverse generate
                         parseSFC fileContent moduleName st))).
Proof.
  split; [|split].
  - intros. apply transformTemplate_keeps.
  - intros. apply transformScript_keeps.
  - intros fileContent. unfold processVueFile.
    set (t := block_content (template (parseSFC fileContent))).
    set (s := block_content (scriptSetup (parseSFC fileContent))).
    assert (keeps st
              (snd (if negb (jseqb t [])
                    then transformTemplate commonWords parse traverse
                           generate t moduleName st
                    else ([], st)))) as H1.
    { destruct (negb _); [apply transformTemplate_keeps|apply keeps_refl]. }
    destruct (if negb (jseqb t []) then _ else _) as [newTemplate st1].
    assert (keeps st1
              (snd (if negb (jseqb s [])
                    then transformScript commonWords parse traverse
                           generate s moduleName st1
                    else (Some [], st1)))) as H2.
    { destruct (negb _); [apply transformScript_keeps|apply keeps_refl]. }
    destruct (if negb (jseqb s []) then _ else _) as [newScript st2].
    destruct newScript; by eapply keeps_trans.
Qed.
End Run.

Section TextPasses.
Variable commonWords : list jsstring.
Variable moduleName : jsstring.

(** X6: the passes over the text of tags and over interpolations
    never write to the console and never take a pair out of the
    registry. *)
Theorem text_passes_grow template st :
  grows st (snd (tagTextPass commonWords moduleName template st))
  /\ grows st (snd (interpolationPass commonWords moduleName template st)).
Proof.
  split.
  - apply (tagTextPass_preserves commonWords grows grows_refl grows_trans
             (grows_add commonWords)).
  - apply (interpolationPass_preserves commonWords grows grows_refl
             grows_trans (grows_add commonWords)).
Qed.
End TextPasses.

Lemma Dirent_induction (P : Dirent -> Prop) :
  (forall name text, P (RegularFile name text)) ->
  (forall name entries, Forall P entries -> P (Directory name entries)) ->
  (forall name, P (OtherEntry name)) ->
  forall e, P e.
Proof.
  intros Hf Hd Ho. fix IH 1. intros [name text|name entries|name].
  - apply Hf.
  - apply Hd. induction entries as [|e entries IHe]; constructor.
    + apply IH.
    + apply IHe.
  - apply Ho.
Qed.

Lemma file_at_nonempty entries rel text : file_at entries rel text -> rel <> [].
Proof. by intros []. Qed.

Lemma file_at_cons e entries rel text :
  file_at (e :: entries) rel text <->
  file_at [e] rel text \/ file_at entries rel text.
Proof.
  split.
  - intros H. inversion H as [? ? ? Hin|? ? ? ? ? Hin Hsub]; subst.
    + apply elem_of_cons in Hin as [<-|Hin].
      * left. constructor. apply list_elem_of_here.
      * right. by constructor.
    + apply elem_of_cons in Hin as [<-|Hin].
      * left. econstructor; [apply list_elem_of_here|done].
      * right. by econstructor.
  - intros [H|H].
    + inversion H as [? ? ? Hin|? ? ? ? ? Hin Hsub]; subst.
      * apply list_elem_of_singleton in Hin as <-. constructor.
        apply list_elem_of_here.
      * apply list_elem_of_singleton in Hin as <-.
        econstructor; [apply list_elem_of_here|done].
    + inversion H as [? ? ? Hin|? ? ? ? ? Hin Hsub]; subst.
      * constructor. by apply list_elem_of_further.
      * econstructor; [by apply list_elem_of_further|done].
Qed.

Lemma last_cons_nonempty {A} (x : A) l d :
  l <> [] -> List.last (x :: l) d = List.last l d.
Proof. by destruct l. Qed.

Section Walk.
Variable commonWords : list jsstring.
Variable parse : list plugin -> jsstring -> option node.
Variable traverse : Visitor -> node -> state -> option node * state.
Variable generate : bool -> node -> option jsstring.
Variable parseSFC : jsstring -> SFCDescriptor.
Variable moduleName : jsstring.

Abbreviation convert' :=
  (convert commonWords parse traverse generate parseSFC moduleName).
Abbreviation mirror :=
  (mirrors commonWords parse traverse generate parseSFC moduleName).
Abbreviation walked :=
  (walk_ok commonWords parse traverse generate parseSFC moduleName).
Abbreviation walks :=
  (walkEntry commonWords parse traverse generate parseSFC moduleName).

Lemma mirrors_nil outDir : mirror [] outDir [] true.
Proof.
  split; [|split].
  - intros p t H. by apply elem_of_nil in H.
  - intros d H. by apply elem_of_nil in H.
  - intros _ rel text H. inversion H as [? ? ? Hin|? ? ? ? ? Hin _];
      by apply elem_of_nil in Hin.
Qed.

Lemma mirrors_app e entries outDir a1 a2 ok :
  mirror [e] outDir a1 true -> mirror entries outDir a2 ok ->
  mirror (e :: entries) outDir (a1 ++ a2) ok.
Proof.
  intros (A1 & B1 & C1) (A2 & B2 & C2). split; [|split].
  - intros p t [H|H]%elem_of_app.
    + destruct (A1 p t H) as (rel & text & st & -> & Hf & Hc & Ht).
      exists rel, text, st. split; [done|]. split; [|done].
      apply file_at_cons. by left.
    + destruct (A2 p t H) as (rel & text & st & -> & Hf & Hc & Ht).
      exists rel, text, st. split; [done|]. split; [|done].
      apply file_at_cons. by right.
  - intros d [H|H]%elem_of_app.
    + destruct (B1 d H) as (name & t & Hw). exists name, t.
      apply elem_of_app. by left.
    + destruct (B2 d H) as (name & t & Hw). exists name, t.
      apply elem_of_app. by right.
  - intros Hok rel text [Hf|Hf]%file_at_cons Hc.
    + destruct (C1 eq_refl rel text Hf Hc) as [t Ht]. exists t.
      apply elem_of_app. by left.
    + destruct (C2 Hok rel text Hf Hc) as [t Ht]. exists t.
      apply elem_of_app. by right.
Qed.

Lemma mirrors_failed e entries outDir a1 :
  mirror [e] outDir a1 false -> mirror (e :: entries) outDir a1 false.
Proof.
  intros (A1 & B1 & _). split; [|split; [done|done]].
  intros p t H. destruct (A1 p t H) as (rel & text & st & -> & Hf & Hc & Ht).
  exists rel, text, st. split; [done|]. split; [|done].
  apply file_at_cons. by left.
Qed.

Lemma for_of_walk entries srcDir outDir w :
  Forall (fun e => forall w, walked [e] outDir w (walks e srcDir outDir w))
    entries ->
  walked entries outDir w
    (for_of (fun e => walks e srcDir outDir) entries w).
Proof.
  intros H. revert w. induction H as [|e entries He _ IH]; intros w.
  - exists []. split; [by rewrite app_nil_r|apply mirrors_nil].
  - cbn [for_of]. unfold and_then.
    destruct (He w) as (a1 & Ht1 & Hm1).
    destruct (walks e srcDir outDir w) as [[|] w1]; cbn [fst snd] in *.
    + destruct (IH w1) as (a2 & Ht2 & Hm2).
      exists (a1 ++ a2). split; [by rewrite Ht2, Ht1, app_assoc|].
      by apply mirrors_app.
    + exists a1. split; [done|]. by apply mirrors_failed.
Qed.

Lemma mirrors_directory name sub outDir added ok :
  mirror sub (outDir ++ [name]) added ok ->
  mirror [Directory name sub] outDir added ok.
Proof.
  intros (A & B & C). split; [|split; [done|]].
  - intros p t H. destruct (A p t H) as (rel & text & st & -> & Hf & Hc & Ht).
    pose proof (file_at_nonempty _ _ _ Hf) as Hne.
    exists (name :: rel), text, st.
    rewrite last_cons_nonempty by done.
    split; [by rewrite <- app_assoc|]. split; [|done].
    econstructor; [apply list_elem_of_here|done].
  - intros Hok rel text Hf Hc. specialize (C Hok). clear Hok.
    inversion Hf as [? ? ? Hin|? ? ? rel' ? Hin Hsub]; subst.
    { by apply list_elem_of_singleton in Hin. }
    apply list_elem_of_singleton in Hin. injection Hin as <- <-.
    pose proof (file_at_nonempty _ _ _ Hsub) as Hne.
    rewrite last_cons_nonempty in Hc by done.
    destruct (C rel' text Hsub Hc) as [t Ht]. exists t.
    by rewrite <- app_assoc in Ht.
Qed.

Lemma file_at_single name text rel text' :
  file_at [RegularFile name text] rel text' -> rel = [name] /\ text' = text.
Proof.
  intros H. inversion H as [? ? ? Hin|? ? ? ? ? Hin _]; subst;
    apply list_elem_of_singleton in Hin; by simplify_eq.
Qed.

Lemma dirname_app outDir name : dirname (outDir ++ [name]) = outDir.
Proof. apply removelast_last. Qed.

Lemma mirrors_written name text outDir t st l :
  convertible name = true ->
  fst (convert' name text st) = Some t ->
  mirror [RegularFile name text] outDir
    [mkdir (dirname (outDir ++ [name])); writeFile (outDir ++ [name]) t;
     console_log l] true.
Proof.
  intros Hc Ht. rewrite dirname_app. split; [|split].
  - intros p t' H. exists [name], text, st.
    assert (p = outDir ++ [name] /\ t' = t) as [-> ->].
    { repeat (apply elem_of_cons in H as [H|H]; [by simplify_eq|]).
      by apply elem_of_nil in H. }
    split; [done|]. split; [|done]. constructor. apply list_elem_of_here.
  - intros d H. exists name, t.
    assert (d = outDir) as ->.
    { repeat (apply elem_of_cons in H as [H|H]; [by simplify_eq|]).
      by apply elem_of_nil in H. }
    apply list_elem_of_further, list_elem_of_here.
  - intros _ rel text' [-> ->]%file_at_single _. exists t.
    apply list_elem_of_further, list_elem_of_here.
Qed.

Lemma mirrors_skipped e outDir ok :
  (forall rel text, file_at [e] rel text ->
     ok = true -> convertible (List.last rel []) = false) ->
  mirror [e] outDir [] ok.
Proof.
  intros H. split; [|split].
  - intros p t Hin. by apply elem_of_nil in Hin.
  - intros d Hin. by apply elem_of_nil in Hin.
  - intros Hok rel text Hf Hc. rewrite (H rel text Hf Hok) in Hc. done.
Qed.

Lemma walkEntry_mirrors e :
  forall srcDir outDir w, walked [e] outDir w (walks e srcDir outDir w).
Proof.
  induction e as [name text|name sub IH|name] using Dirent_induction;
    intros srcDir outDir w.
  - cbn [walkEntry entry_name].
    destruct (endsWith name (u ".vue")) eqn:Ev.
    { unfold processVueFile_at.
      destruct (processVueFile _ _ _ _ _ text moduleName (run w))
        as [[t|] st] eqn:E.
      - eexists. split; [cbn; by rewrite <- !app_assoc|].
        apply (mirrors_written name text outDir t (run w)).
        + unfold convertible. by rewrite Ev.
        + unfold convert. by rewrite Ev, E.
      - exists []. split; [cbn; by rewrite app_nil_r|].
        by apply mirrors_skipped. }
    destruct (endsWith name (u ".ts") || endsWith name (u ".tsx")
              || endsWith name (u ".jsx")) eqn:Es.
    { unfold processTsFile_at.
      destruct (processTsFile _ _ _ _ text moduleName (run w))
        as [[t|] st] eqn:E.
      - eexists. split; [cbn; by rewrite <- !app_assoc|].
        apply (mirrors_written name text outDir t (run w)).
        + unfold convertible. rewrite Ev. exact Es.
        + unfold convert. by rewrite Ev, E.
      - exists []. split; [cbn; by rewrite app_nil_r|].
        by apply mirrors_skipped. }
    exists []. split; [cbn; by rewrite app_nil_r|].
    apply mirrors_skipped. intros rel text' [-> ->]%file_at_single _.
    unfold convertible. cbn [List.last]. rewrite Ev. exact Es.
  - cbn [walkEntry entry_name].
    destruct (for_of_walk sub (srcDir ++ [name]) (outDir ++ [name]) w)
      as (added & Ht & Hm).
    { eapply Forall_impl; [exact IH|]. intros e He w'. apply He. }
    exists added. split; [done|]. by apply mirrors_directory.
  - exists []. split; [cbn; by rewrite app_nil_r|].
    apply mirrors_skipped. intros rel text H.
    inversion H as [? ? ? Hin|? ? ? ? ? Hin _]; subst;
      by apply list_elem_of_singleton in Hin.
Qed.

(** X10: the calls of [walkDir] mirror the convertible files of the
    tree below [outDir]: a file is written only as the conversion of
    a [.vue], [.ts], [.tsx] or [.jsx] file at the same relative path,
    a directory is made only for a file written into it, and when
    the walk is fulfilled every such file has been written. *)
Theorem walkDir_mirrors entries srcDir outDir w :
  let r := walkDir commonWords parse traverse generate parseSFC
             entries srcDir moduleName outDir w in
  exists added,
    trace (snd r) = trace w ++ added /\ mirror entries outDir added (fst r).
Proof.
  apply for_of_walk. apply Forall_forall. intros e _ w'.
  apply walkEntry_mirrors.
Qed.
End Walk.

(** * The entry point *)

Lemma json_not_convertible ns : convertible (ns ++ u ".json") = false.
Proof.
  unfold convertible, endsWith. rewrite rev_app_distr. reflexivity.
Qed.




Section Main.
Variable commonWords : list jsstring.
Variable parse : list plugin -> jsstring -> option node.
Variable traverse : Visitor -> node -> state -> option node * state.
Variable generate : bool -> node -> option jsstring.
Variable parseSFC : jsstring -> SFCDescriptor.

Abbreviation walk entries present :=
  (walkDir commonWords parse traverse generate parseSFC
     entries srcDir moduleName outDir (start present)).
Abbreviation main' :=
  (main commonWords parse traverse generate parseSFC).

Lemma walk_no_dictionary entries present ns t :
  writeFile (outDir ++ [ns ++ u ".json"]) t
  ∉ trace (snd (walk entries present)).
Proof.
  unfold walkDir.
  destruct (for_of_walk commonWords parse traverse generate parseSFC
              moduleName entries srcDir outDir (start present))
    as (added & Ht & (A & _ & _)).
  { apply Forall_forall. intros e _ w'. apply walkEntry_mirrors. }
  rewrite Ht. cbn [start trace app]. intros H.
  destruct (A _ _ H) as (rel & text & st & Hp & Hf & Hc & _).
  apply app_inv_head in Hp. subst rel. cbn [List.last] in Hc.
  by rewrite json_not_convertible in Hc.
Qed.

(** X11: when a file does not convert, the run ends with the error:
    no dictionary is written, the files after it are not touched,
    and what was written before stays. *)
Theorem rejected_run entries present :
  fst (walk entries present) = false ->
  trace (main' entries (start present))
  = trace (snd (walk entries present)) ++ [console_error]
  /\ forall ns t,
       writeFile (outDir ++ [ns ++ u ".json"]) t
       ∉ trace (main' entries (start present)).
Proof.
  intros Hr. unfold main.
  pose proof (walk_no_dictionary entries present) as Hn.
  destruct (walk entries present) as [ok w1]. cbn [fst snd] in *. subst ok.
  split; [done|]. intros ns t. cbn [emit trace].
  intros [H|H]%elem_of_app; [by apply Hn in H|].
  by apply list_elem_of_singleton in H.
Qed.

End Main.

(** * The type a script is reported under *)

Lemma break_last_dot_none s :
  forallb (none_of [ch "."]) s = true -> break_last_dot s = None.
Proof.
  induction s as [|c s IH]; [done|]. intros [Hc Hs]%andb_prop.
  cbn [break_last_dot]. rewrite IH by done.
  unfold none_of, one_of in Hc. cbn [existsb] in Hc.
  rewrite orb_false_r, negb_true_iff in Hc. by rewrite Hc.
Qed.

Lemma break_last_dot_app base ext :
  forallb (none_of [ch "."]) ext = true ->
  break_last_dot (base ++ ch "." :: ext) = Some (base, ext).
Proof.
  intros H. induction base as [|c base IH].
  - cbn [app break_last_dot]. rewrite break_last_dot_none by done.
    by rewrite N.eqb_refl.
  - cbn [app break_last_dot]. by rewrite IH.
Qed.

Lemma split_on_none sep s cur :
  forallb (none_of [sep]) s = true -> split_on sep s cur = [cur ++ s].
Proof.
  revert cur. induction s as [|c s IH]; intros cur; [by rewrite app_nil_r|].
  intros [Hc Hs]%andb_prop. cbn [split_on].
  unfold none_of, one_of in Hc. cbn [existsb] in Hc.
  rewrite orb_false_r, negb_true_iff in Hc. rewrite Hc, IH by done.
  by rewrite <- app_assoc.
Qed.

(** X13: the type [processTsFile] prints for a script is the text
    after the last dot of its name; for a name that is nothing but
    the suffix, such as [.ts], it prints [undefined]. *)
Theorem reported_file_type srcDir base ext :
  ext <> [] -> forallb (none_of [ch "."]) ext = true ->
  fileType (srcDir ++ [base ++ u "." ++ ext])
  = if jseqb base [] then None else Some ext.
Proof.
  intros Hne Hext. unfold fileType. rewrite last_last. unfold extname.
  change (base ++ u "." ++ ext) with (base ++ ch "." :: ext).
  rewrite break_last_dot_app by done.
  destruct base as [|b base]; [done|]. cbn [jseqb orb].
  assert (jseqb ((b :: base) ++ ch "." :: ext) (u "..") = false) as ->.
  { destruct ext as [|e ext]; [done|]. apply jseqb_neq. intros H.
    apply (f_equal (@length N)) in H. revert H. cbn.
    rewrite length_app. cbn. lia. }
  change (u "." ++ ext) with (ch "." :: ext). cbn [split_on].
  rewrite N.eqb_refl. by rewrite split_on_none.
Qed.

Lemma reported_file_type_witness :
  fileType [u "testFile"; u "main.ts"] = Some (u "ts")
  /\ fileType [u "testFile"; u ".ts"] = None.
Proof.
  split.
  - exact (reported_file_type [u "testFile"] (u "main") (u "ts")
             ltac:(discriminate) eq_refl).
  - exact (reported_file_type [u "testFile"] [] (u "ts")
             ltac:(discriminate) eq_refl).
Defined.

(** * Keys *)

Lemma dot_split a b x y :
  forallb (none_of [ch "."]) a = true ->
  forallb (none_of [ch "."]) b = true ->
  a ++ ch "." :: x = b ++ ch "." :: y -> a = b /\ x = y.
Proof.
  revert b. induction a as [|c a IH]; intros [|d b] Ha Hb H.
  - by injection H.
  - exfalso. cbn in H. injection H as <- _. cbn in Hb. done.
  - exfalso. cbn in H. injection H as -> _. cbn in Ha. done.
  - cbn in H. injection H as -> H. cbn [forallb] in Ha, Hb.
    apply andb_prop in Ha as [_ Ha]. apply andb_prop in Hb as [_ Hb].
    destruct (IH b Ha Hb H) as [-> ->]. done.
Qed.

Section Keys.
Variable commonWords : list jsstring.

(** X14: a key determines its text: two texts with the same key are
    the same, when the namespace of the file holds no dot. *)
Theorem key_determines_text moduleName text1 text2 :
  forallb (none_of [ch "."]) moduleName = true ->
  translationKey commonWords moduleName text1
  = translationKey commonWords moduleName text2 ->
  text1 = text2.
Proof.
  intros Hm. unfold translationKey.
  change (u "." ++ text1) with (ch "." :: text1).
  change (u "." ++ text2) with (ch "." :: text2).
  intros H. apply dot_split in H as [_ ?]; [done| |];
    unfold targetModule; by destruct (commonWords_has _ _).
Qed.
End Keys.

Lemma key_determines_text_witness :
  jseqb (translationKey [nihao] (u "test") nihao)
        (translationKey [nihao] (u "test") zaijian) = false.
Proof.
  apply jseqb_neq. intros H.
  apply (key_determines_text [nihao] (u "test") nihao zaijian eq_refl) in H.
  discriminate H.
Defined.

(** * The text of a dictionary *)

Lemma line_feeds_app a b :
  line_feeds (a ++ b) = (line_feeds a + line_feeds b)%nat.
Proof. apply count_occ_app. Qed.

Lemma hex_digit_not_LF n : n < 16 -> hex_digit n <> LF.
Proof.
  intros H. unfold hex_digit, LF. change (ch "0") with 48.
  change (ch "a") with 97. destruct (n <? 10); lia.
Qed.

Lemma unicode_escape_line_feeds c : line_feeds (unicode_escape c) = 0%nat.
Proof.
  unfold unicode_escape, line_feeds.
  assert (forall n, n mod 16 < 16) as Hm by (intros; by apply N.mod_lt).
  cbn [count_occ].
  repeat match goal with
         | |- context [N.eq_dec ?a LF] =>
             destruct (N.eq_dec a LF) as [E|_];
             [exfalso; first [by apply hex_digit_not_LF in E|discriminate E]|]
         end.
  done.
Qed.

Lemma quote_unit_line_feeds c : line_feeds (quote_unit c) = 0%nat.
Proof.
  unfold quote_unit.
  repeat match goal with
         | |- context [if ?b then _ else _] =>
             lazymatch b with
             | (_ =? _) => destruct b eqn:?; [reflexivity|]
             | _ => destruct b eqn:?; [apply unicode_escape_line_feeds|]
             end
         end.
  unfold line_feeds. cbn [count_occ].
  destruct (N.eq_dec c LF) as [->|_]; [done|done].
Qed.

Lemma surrogate_not_LF c : high_surrogate c = true -> c <> LF.
Proof.
  unfold high_surrogate, in_range, LF. intros [H _]%andb_prop.
  apply N.leb_le in H. lia.
Qed.

Lemma low_surrogate_not_LF c : low_surrogate c = true -> c <> LF.
Proof.
  unfold low_surrogate, in_range, LF. intros [H _]%andb_prop.
  apply N.leb_le in H. lia.
Qed.

Lemma quote_units_cons c d s :
  quote_units (c :: d :: s)
  = if high_surrogate c && low_surrogate d
    then c :: d :: quote_units s
    else quote_unit c ++ quote_units (d :: s).
Proof. done. Qed.

Lemma quote_units_line_feeds s : line_feeds (quote_units s) = 0%nat.
Proof.
  remember (length s) as n eqn:Hn. revert s Hn.
  induction (lt_wf n) as [n _ IH]. intros s ->.
  destruct s as [|c [|d s]]; [done|apply quote_unit_line_feeds|].
  rewrite quote_units_cons.
  destruct (high_surrogate c && low_surrogate d) eqn:E.
  - apply andb_prop in E as [Hc Hd]. unfold line_feeds. cbn [count_occ].
    destruct (N.eq_dec c LF) as [->|_]; [by apply surrogate_not_LF in Hc|].
    destruct (N.eq_dec d LF) as [->|_];
      [by apply low_surrogate_not_LF in Hd|].
    apply (IH (length s)); [simpl; lia|done].
  - rewrite line_feeds_app, quote_unit_line_feeds.
    apply (IH (length (d :: s))); [simpl; lia|done].
Qed.

(** A quoted string lies on one line. *)
Lemma QuoteJSONString_line_feeds s : line_feeds (QuoteJSONString s) = 0%nat.
Proof.
  unfold QuoteJSONString. by rewrite !line_feeds_app, quote_units_line_feeds.
Qed.

Lemma line_feeds_join sep l :
  Forall (fun x => line_feeds x = 0%nat) l ->
  line_feeds (join sep l) = (pred (length l) * line_feeds sep)%nat.
Proof.
  induction 1 as [|x l Hx Hl IH]; [done|].
  destruct l as [|y l]; [by simpl; rewrite Hx|].
  change (join sep (x :: y :: l)) with (x ++ sep ++ join sep (y :: l)).
  rewrite !line_feeds_app, IH, Hx. cbn [length pred]. lia.
Qed.

Lemma line_feeds_literals :
  line_feeds (u "{") = 0%nat /\ line_feeds (u "}") = 0%nat
  /\ line_feeds (u ",") = 0%nat /\ line_feeds (u ": ") = 0%nat
  /\ line_feeds gap = 0%nat /\ line_feeds [LF] = 1%nat.
Proof. repeat split; reflexivity. Qed.

Lemma document_lines indent keys :
  keys <> [] -> line_feeds indent = 0%nat ->
  line_feeds (SerializeJSON indent (document keys)) = S (length keys).
Proof.
  intros Hne Hi. unfold document. cbn [SerializeJSON].
  destruct (map _ keys) as [|m members] eqn:E.
  { by destruct keys. }
  rewrite <- E. clear E m members.
  rewrite !line_feeds_app, line_feeds_join.
  - rewrite !length_map.
    destruct line_feeds_literals as (L1 & L2 & L3 & L4 & L5 & L6).
    rewrite ?line_feeds_app, ?QuoteJSONString_line_feeds,
      ?L1, ?L2, ?L3, ?L4, ?L5, ?L6.
    rewrite Hi.
    destruct keys as [|k keys]; [done|]. cbn [length pred]. lia.
  - apply Forall_forall. intros x (y & -> & Hy)%list_elem_of_fmap.
    apply list_elem_of_fmap in Hy as (k & -> & _). cbn [fst snd SerializeJSON].
    destruct line_feeds_literals as (L1 & L2 & L3 & L4 & L5 & L6).
    rewrite ?line_feeds_app, ?QuoteJSONString_line_feeds,
      ?L1, ?L2, ?L3, ?L4, ?L5, ?L6.
    done.
Qed.

Lemma locale_document_lines ns keys :
  keys <> [] ->
  line_feeds (JSON_stringify (JObject [(ns, document keys)]))
  = (length keys + 3)%nat.
Proof.
  intros Hne. unfold JSON_stringify.
  change (SerializeJSON [] (JObject [(ns, document keys)]))
    with (u "{" ++ [LF] ++ gap
          ++ (QuoteJSONString ns ++ u ": " ++ SerializeJSON gap (document keys))
          ++ [LF] ++ u "}").
  destruct line_feeds_literals as (L1 & L2 & L3 & L4 & L5 & L6).
  rewrite ?line_feeds_app, ?QuoteJSONString_line_feeds,
    ?L1, ?L2, ?L3, ?L4, ?L5, ?L6.
  rewrite (document_lines gap keys Hne L5). lia.
Qed.

Section DictionaryText.
Variable commonWords : list jsstring.

Lemma table_add_nonempty table text :
  inherited text = false -> table_add table text <> [] .
Proof.
  intros Hi. unfold table_add, table_has. rewrite Hi. cbn [orb].
  destruct table as [|[k v] table]; [done|].
  destruct (match own_get _ _ with Some _ => _ | None => _ end); [done|].
  simpl. by destruct (jseqb text k).
Qed.

Lemma record_all_nonempty l (localeMap : registry) :
  Forall (fun e => inherited (snd e) = false) l ->
  (forall ns T, own_get localeMap ns = Some T -> T <> []) ->
  forall ns T,
    own_get (record_all commonWords l localeMap) ns = Some T -> T <> [].
Proof.
  intros Hl. revert localeMap.
  induction Hl as [|[m text] l He _ IH]; intros R HR; [done|].
  cbn [record_all fold_left fst snd]. apply IH. clear IH.
  intros ns T. rewrite addLocale_unfold.
  set (t := targetModule commonWords m text).
  assert (forall T0, own_get (obj_set R t (table_add T0 text)) ns = Some T ->
                     T <> []) as Hset.
  { intros T0. destruct (decide (t = ns)) as [->|Hne].
    - rewrite own_get_obj_set_eq. intros [= <-]. by apply table_add_nonempty.
    - rewrite own_get_obj_set_ne by done. apply HR. }
  destruct (own_get R t) as [T0|]; [apply Hset|].
  destruct (inherited t); [apply HR|apply Hset].
Qed.

(** X15: the text of a dictionary has one line for each text of its
    namespace, between two lines that open and two that close; a
    line feed inside a text is written as an escape. *)
Theorem dictionary_lines (l : list (jsstring * jsstring)) :
  Forall (fun e => inherited (fst e) = false /\ plain_key (snd e)) l ->
  let localeMap := record_all commonWords l [] in
  forall file,
    file ∈ writeLocaleFiles localeMap ->
    exists ns table,
      own_get localeMap ns = Some table
      /\ fst file = ns ++ u ".json"
      /\ line_feeds (JSON_stringify (snd file)) = (length table + 3)%nat.
Proof.
  intros Hl localeMap file Hin.
  assert (wf_registry localeMap) as Hwf.
  { apply wf_record_all; [apply wf_registry_nil|].
    eapply Forall_impl; [exact Hl|]. by intros e [_ [? _]]. }
  rewrite writeLocaleFiles_wf in Hin by done.
  apply list_elem_of_fmap in Hin as ([ns table] & -> & Hin).
  rewrite Object_entries_perm in Hin.
  assert (own_get localeMap ns = Some table) as Hget.
  { apply elem_of_own_get; [apply Hwf|done]. }
  exists ns, table. split; [done|]. split; [done|].
  unfold locale_file. cbn [fst snd].
  assert (length (Array_sort (own_keys table)) = length table) as Hlen.
  { rewrite Array_sort_perm. apply length_map. }
  rewrite locale_document_lines; [by rewrite Hlen|].
  intros E. rewrite E in Hlen.
  assert (table <> []) as Hne; [|by destruct table].
  apply (record_all_nonempty l [] ) with (ns := ns); [|done|done].
  eapply Forall_impl; [exact Hl|]. by intros e [_ [_ ?]].
Qed.
End DictionaryText.

Lemma dictionary_lines_witness :
  exists ns table,
    own_get (record_all [] [(u "test", nihao); (u "test", nihao ++ [LF])] [])
      ns = Some table
    /\ u "test.json" = ns ++ u ".json"
    /\ line_feeds
         (JSON_stringify
            (JObject [(u "test", document [nihao; nihao ++ [LF]])]))
       = (length table + 3)%nat.
Proof.
  refine (dictionary_lines []
            [(u "test", nihao); (u "test", nihao ++ [LF])] _
            (u "test.json",
             JObject [(u "test", document [nihao; nihao ++ [LF]])]) _).
  - repeat constructor.
  - apply list_elem_of_here.
Defined.

Lemma template_without_target_witness :
  transformTemplate [] mini_parse mini_traverse mini_generate
    (u "<p class=" ++ [DQ] ++ u "a" ++ [DQ] ++ u ">{{ 'hello' }}</p>")
    (u "test") initial
  = (u "<p class=" ++ [DQ] ++ u "a" ++ [DQ] ++ u ">{{ 'hello' }}</p>",
     initial).
Proof.
  exact (template_without_target [] mini_parse mini_traverse mini_generate
           (u "test")
           (u "<p class=" ++ [DQ] ++ u "a" ++ [DQ] ++ u ">{{ 'hello' }}</p>")
           initial eq_refl).
Defined.

(** [<b>确定</b><p>你好, 再见</p>]: the text of [p] behind the text
    of [b], which the scan has rewritten. *)
Lemma tag_text_first_run_witness :
  tagTextPass [] (u "test")
    (u "<b>" ++ queding ++ u "</b><p>" ++ nihao ++ u ", " ++ zaijian
       ++ u "</p>") initial
  = (u "<b>{{ $t('test." ++ queding ++ u "') }}</b><p>{{ $t('test." ++ nihao
       ++ u "') }}, {{ $t('test." ++ zaijian ++ u "') }}</p>",
     {| localeMap :=
          [(u "test",
            [(queding, queding); (nihao, nihao); (zaijian, zaijian)])];
        console := [] |}).
Proof.
  exact (proj1 (tag_text_first_run [] (u "test"))
           (u "<b>" ++ queding ++ u "</b><p") [] nihao
           (u ", " ++ zaijian) (u "/p>") initial
           (u "<b>{{ $t('test." ++ queding ++ u "') }}</b><p")
           {| localeMap := [(u "test", [(queding, queding)])];
              console := [] |}
           eq_refl eq_refl eq_refl ltac:(discriminate) eq_refl eq_refl).
Defined.

Lemma tag_text_with_call_witness :
  tagTextPass [] (u "test")
    (u "<div><p>" ++ nihao ++ u " {{ $t('test." ++ zaijian
       ++ u "') }}</p></div>")
    initial
  = (u "<div><p>" ++ nihao ++ u " {{ $t('test." ++ zaijian
       ++ u "') }}</p></div>",
     initial).
Proof.
  exact (tag_text_with_call [] (u "test") (u "<div><p")
           (nihao ++ u " {{ $t('test." ++ zaijian ++ u "') }}")
           (u "/p></div>") initial (u "<div><p") initial
           eq_refl eq_refl eq_refl).
Defined.

(** A second run: the attribute behind a tag text that holds a call
    already. *)
Lemma dynamic_attribute_with_call_witness :
  attributePass [] mini_parse mini_traverse mini_generate (u "test")
    (u "<p>{{ $t('test." ++ nihao ++ u "') }}</p><a :title=" ++ [DQ]
       ++ u "$t('test." ++ zaijian ++ u "')" ++ [DQ] ++ u "></a>") initial
  = (u "<p>{{ $t('test." ++ nihao ++ u "') }}</p><a :title=" ++ [DQ]
       ++ u "$t('test." ++ zaijian ++ u "')" ++ [DQ] ++ u "></a>",
     initial).
Proof.
  exact (dynamic_attribute_with_call [] mini_parse mini_traverse
           mini_generate (u "test")
           (u "<p>{{ $t('test." ++ nihao ++ u "') }}</p><a") 32 (u ":title")
           (u "$t('test." ++ zaijian ++ u "')") (u "></a>") initial
           (u "<p>{{ $t('test." ++ nihao ++ u "') }}</p><a") initial
           eq_refl eq_refl ltac:(discriminate) eq_refl eq_refl eq_refl
           eq_refl eq_refl).
Defined.

(** [`你好 ${n} 再见`]: two texts between the runs, and the builder
    throws. *)
Lemma template_literal_counts_witness :
  scriptTemplateLiteral [] (u "test")
    {| path_node :=
         TemplateLiteral
           [templateElement (nihao ++ u " ") (nihao ++ u " ") false;
            templateElement (u " " ++ zaijian) (u " " ++ zaijian) true]
           [Identifier (u "n")] false;
       path_parent := None |}
    initial
  = (Throw,
     {| localeMap := [(u "test", [(nihao, nihao); (zaijian, zaijian)])];
        console := [] |}).
Proof.
  exact (proj2 (proj2 (proj2
           (template_literal_counts [] (u "test")
              [templateElement (nihao ++ u " ") (nihao ++ u " ") false;
               templateElement (u " " ++ zaijian) (u " " ++ zaijian) true]
              [Identifier (u "n")] None initial eq_refl)))).
Defined.

Lemma static_attribute_twice_witness :
  let '(once, st1) :=
    attributePass [] mini_parse mini_traverse mini_generate (u "test")
      (u "<a title=" ++ [DQ] ++ nihao ++ [DQ] ++ u "></a>") initial in
  once = u "<a :title=" ++ [DQ] ++ u "$t('test." ++ nihao ++ u "')" ++ [DQ]
           ++ u "></a>"
  /\ attributePass [] mini_parse mini_traverse mini_generate (u "test")
       once st1
     = (once, st1).
Proof.
  exact (static_attribute_twice [] mini_parse mini_traverse mini_generate
           (u "test") (u "<a") 32 (u "title") nihao (u "></a>") initial
           eq_refl eq_refl ltac:(discriminate) eq_refl eq_refl eq_refl
           eq_refl eq_refl eq_refl eq_refl).
Defined.

Lemma registry_is_kept_witness :
  keeps {| localeMap := [(u "test", [(zaijian, zaijian)])]; console := [] |}
    (snd (transformTemplate [] mini_parse mini_traverse mini_generate
            (u "<a :title=" ++ [DQ] ++ u "'" ++ nihao ++ u "'" ++ [DQ]
               ++ u "></a>") (u "test")
            {| localeMap := [(u "test", [(zaijian, zaijian)])];
               console := [] |})).
Proof.
  destruct (registry_is_kept [] mini_parse mini_traverse mini_generate
              (parsed_as plain_script_unit) by_visitors_mini_traverse
              (u "test")
              {| localeMap := [(u "test", [(zaijian, zaijian)])];
                 console := [] |}) as (H & _ & _).
  apply H.
Defined.

Lemma jsx_text_runs_witness :
  scriptJSXText [] (u "test")
    {| path_node := JSXText (u "a " ++ nihao ++ u " b"); path_parent := None |}
    initial
  = (ReplaceWithMultiple
       [JSXText (u "a ");
        JSXExpressionContainer
          (CallExpression (Identifier (u "$t"))
             [StringLiteral (u "test." ++ nihao)]);
        JSXText (u " b")],
     {| localeMap := [(u "test", [(nihao, nihao)])]; console := [] |}).
Proof.
  destruct (jsx_text_runs [] (u "test") (u "a " ++ nihao ++ u " b") None
              initial eq_refl) as (_ & _ & _ & H).
  exact H.
Defined.

Lemma rejected_run_witness :
  let tree := [RegularFile (u "a.vue") greeting;
               RegularFile (u "b.ts") (u "x");
               RegularFile (u "c.vue") greeting] in
  let w := main [] mini_parse mini_traverse mini_generate
             (parsed_as (template_unit greeting)) tree (start []) in
  trace w
  = [mkdir [u "testResult"];
     writeFile [u "testResult"; u "a.vue"]
       (u "<script setup lang=" ++ [DQ] ++ u "ts" ++ [DQ] ++ u ">"
          ++ [LF; LF] ++ u "</script>" ++ [LF] ++ u "<template>" ++ [LF]
          ++ u "<p>{{ $t('test." ++ nihao ++ u "') }}</p>" ++ [LF]
          ++ u "</template>");
     console_log (log_vue [u "testFile"; u "a.vue"]
                    [u "testResult"; u "a.vue"]);
     console_error]
  /\ forall ns t, writeFile (outDir ++ [ns ++ u ".json"]) t ∉ trace w.
Proof.
  exact (rejected_run [] mini_parse mini_traverse mini_generate
           (parsed_as (template_unit greeting))
           [RegularFile (u "a.vue") greeting;
            RegularFile (u "b.ts") (u "x");
            RegularFile (u "c.vue") greeting] [] eq_refl).
Defined.


(** * Reading back what [JSON.stringify] writes *)

Lemma hex_value_digit n : n < 16 -> hex_value (hex_digit n) = Some n.
Proof.
  intros H. unfold hex_value, hex_digit, in_range.
  change (ch "0") with 48. change (ch "9") with 57.
  change (ch "a") with 97. change (ch "f") with 102.
  change (ch "A") with 65. change (ch "F") with 70.
  destruct (n <? 10) eqn:E.
  - apply N.ltb_lt in E.
    replace ((48 <=? 48 + n) && (48 + n <=? 57)) with true
      by (symmetry; apply andb_true_intro; split; apply N.leb_le; lia).
    f_equal. lia.
  - apply N.ltb_ge in E.
    replace ((48 <=? 97 + (n - 10)) && (97 + (n - 10) <=? 57)) with false
      by (symmetry; apply andb_false_iff; right; apply N.leb_gt; lia).
    replace ((97 <=? 97 + (n - 10)) && (97 + (n - 10) <=? 102)) with true
      by (symmetry; apply andb_true_intro; split; apply N.leb_le; lia).
    f_equal. lia.
Qed.

Lemma hex4_escape c :
  c < 65536 ->
  hex4 (hex_digit (c / 4096 mod 16)) (hex_digit (c / 256 mod 16))
       (hex_digit (c / 16 mod 16)) (hex_digit (c mod 16))
  = Some c.
Proof.
  intros H. unfold hex4.
  rewrite !hex_value_digit by (by apply N.mod_lt).
  f_equal.
  replace (c / 4096) with (c / 16 / 16 / 16)
    by (by rewrite !N.Div0.div_div).
  replace (c / 256) with (c / 16 / 16) by (by rewrite !N.Div0.div_div).
  pose proof (N.div_mod c 16 ltac:(done)) as H1.
  pose proof (N.div_mod (c / 16) 16 ltac:(done)) as H2.
  pose proof (N.div_mod (c / 16 / 16) 16 ltac:(done)) as H3.
  assert (c / 16 / 16 / 16 < 16) as H4.
  { rewrite !N.Div0.div_div. apply N.Div0.div_lt_upper_bound. lia. }
  rewrite (N.mod_small _ 16 H4). lia.
Qed.

Lemma parse_chars_escape e v t :
  unescape e = Some v -> e <> ch "u" ->
  parse_chars (92 :: e :: t) = cons_to v (parse_chars t).
Proof.
  intros He Hu. cbn [parse_chars].
  change (92 =? DQ) with false. change (92 =? 92) with true. cbn match.
  apply N.eqb_neq in Hu. by rewrite Hu, He.
Qed.

Lemma parse_chars_unicode c t :
  c < 65536 ->
  parse_chars (unicode_escape c ++ t) = cons_to c (parse_chars t).
Proof.
  intros H. unfold unicode_escape. cbn [app parse_chars].
  change (92 =? DQ) with false. change (92 =? 92) with true.
  rewrite N.eqb_refl. cbn match. by rewrite hex4_escape.
Qed.

Lemma parse_chars_plain c t :
  c <> DQ -> c <> 92 -> 32 <= c ->
  parse_chars (c :: t) = cons_to c (parse_chars t).
Proof.
  intros H1 H2 H3. cbn [parse_chars].
  apply N.eqb_neq in H1, H2. apply N.ltb_ge in H3.
  by rewrite H1, H2, H3.
Qed.

Lemma parse_chars_quote_unit c t :
  parse_chars (quote_unit c ++ t) = cons_to c (parse_chars t).
Proof.
  unfold quote_unit.
  destruct (c =? 8) eqn:E1.
  { apply N.eqb_eq in E1. subst. by apply parse_chars_escape. }
  destruct (c =? 9) eqn:E2.
  { apply N.eqb_eq in E2. subst. by apply parse_chars_escape. }
  destruct (c =? 10) eqn:E3.
  { apply N.eqb_eq in E3. subst. by apply parse_chars_escape. }
  destruct (c =? 12) eqn:E4.
  { apply N.eqb_eq in E4. subst. by apply parse_chars_escape. }
  destruct (c =? 13) eqn:E5.
  { apply N.eqb_eq in E5. subst. by apply parse_chars_escape. }
  destruct (c =? DQ) eqn:E6.
  { apply N.eqb_eq in E6. subst. by apply parse_chars_escape. }
  destruct (c =? 92) eqn:E7.
  { apply N.eqb_eq in E7. subst. by apply parse_chars_escape. }
  destruct ((c <? 32) || high_surrogate c || low_surrogate c) eqn:E8.
  - apply parse_chars_unicode.
    unfold high_surrogate, low_surrogate, in_range in E8.
    rewrite !orb_true_iff, !andb_true_iff, N.ltb_lt, !N.leb_le in E8. lia.
  - rewrite !orb_false_iff in E8. destruct E8 as [[E8 _] _].
    apply N.ltb_ge in E8. apply N.eqb_neq in E6, E7.
    by apply parse_chars_plain.
Qed.

Lemma parse_chars_pair c d t :
  high_surrogate c = true -> low_surrogate d = true ->
  parse_chars (c :: d :: t) = cons_to c (cons_to d (parse_chars t)).
Proof.
  intros Hc Hd. unfold high_surrogate, low_surrogate, in_range in *.
  apply andb_prop in Hc as [Hc _]. apply andb_prop in Hd as [Hd _].
  apply N.leb_le in Hc, Hd.
  rewrite parse_chars_plain; [|unfold DQ; lia..].
  rewrite parse_chars_plain; [done|unfold DQ; lia..].
Qed.

(** A quoted string is read back as the string. *)
Lemma parse_chars_quote s rest :
  parse_chars (quote_units s ++ DQ :: rest) = Some (s, rest).
Proof.
  remember (length s) as n eqn:Hn. revert s Hn.
  induction (lt_wf n) as [n _ IH]. intros s ->.
  destruct s as [|c [|d s]].
  - cbn [quote_units app parse_chars]. by rewrite N.eqb_refl.
  - cbn [quote_units]. rewrite parse_chars_quote_unit.
    cbn [parse_chars]. by rewrite N.eqb_refl.
  - rewrite quote_units_cons.
    destruct (high_surrogate c && low_surrogate d) eqn:E.
    + apply andb_prop in E as [Hc Hd]. cbn [app].
      rewrite parse_chars_pair by done.
      by rewrite (IH (length s)) by (simpl; lia || done).
    + rewrite <- app_assoc, parse_chars_quote_unit.
      by rewrite (IH (length (d :: s))) by (simpl; lia || done).
Qed.

Lemma parse_value_string fuel s rest :
  parse_value (S fuel) (QuoteJSONString s ++ rest) = Some (JStr s, rest).
Proof.
  unfold QuoteJSONString. cbn [app parse_value]. rewrite N.eqb_refl.
  rewrite <- app_assoc. cbn [app]. by rewrite parse_chars_quote.
Qed.

Lemma json_induction (P : json -> Prop) :
  (forall s, P (JString s)) ->
  (forall members, Forall (fun e => P (snd e)) members ->
                   P (JObject members)) ->
  forall v, P v.
Proof.
  intros Hs Ho. fix IH 1. intros [s|members]; [apply Hs|].
  apply Ho. induction members as [|[k v] members IHm]; constructor.
  - apply IH.
  - apply IHm.
Qed.

Lemma skip_ws_blanks indent x t :
  blanks indent -> json_ws x = false ->
  skip_ws (indent ++ x :: t) = x :: t.
Proof.
  intros Hi Hx. induction indent as [|c indent IH].
  - cbn [app skip_ws]. by rewrite Hx.
  - unfold blanks in Hi. cbn [forallb] in Hi.
    apply andb_prop in Hi as [Hc Hi]. apply N.eqb_eq in Hc. subst c.
    cbn [app skip_ws]. change (json_ws 32) with true. cbn match.
    by apply IH.
Qed.

Lemma skip_ws_line indent x t :
  blanks indent -> json_ws x = false ->
  skip_ws (LF :: indent ++ x :: t) = x :: t.
Proof.
  intros Hi Hx. cbn [skip_ws]. change (json_ws LF) with true. cbn match.
  by apply skip_ws_blanks.
Qed.

Lemma blanks_gap indent : blanks indent -> blanks (indent ++ gap).
Proof.
  unfold blanks. intros H. rewrite forallb_app, H. done.
Qed.

(** A document starts with a quote or a brace. *)
Lemma SerializeJSON_head indent v :
  exists x t, SerializeJSON indent v = x :: t /\ json_ws x = false.
Proof.
  destruct v as [s|[|m members]].
  - exists DQ, (quote_units s ++ [DQ]). done.
  - exists (ch "{"), (u "}"). done.
  - eexists (ch "{"), _. split; [|done]. cbn [SerializeJSON].
    reflexivity.
Qed.

Lemma distinct_NoDup keys : distinct keys = true <-> NoDup keys.
Proof.
  induction keys as [|k keys IH]; cbn [distinct].
  - split; [constructor|done].
  - rewrite andb_true_iff, negb_true_iff, NoDup_cons, IH.
    split; intros [Hk Hd]; (split; [|done]).
    + intros Hin. apply not_true_iff_false in Hk. apply Hk.
      apply existsb_exists. exists k. split; [|apply jseqb_refl].
      by apply list_elem_of_In.
    + apply not_true_iff_false. intros (k' & Hin & E)%existsb_exists.
      apply jseqb_eq in E. subst k'. by apply list_elem_of_In in Hin.
Qed.

(** A document and the members of an object are read back, with fuel
    for their weight. *)
Lemma parse_serialize fuel :
  (forall v indent rest,
     blanks indent -> distinct_keys v = true -> (weight v <= fuel)%nat ->
     parse_value fuel (SerializeJSON indent v ++ rest)
     = Some (value_of v, rest))
  /\ (forall members acc indent stepback rest,
        members <> [] -> blanks indent -> blanks stepback ->
        NoDup (map fst members) ->
        forallb (fun e => distinct_keys (snd e)) members = true ->
        (forall k, k ∈ map fst members -> own_get acc k = None) ->
        (list_sum (map (fun e => S (weight (snd e))) members) <= fuel)%nat ->
        parse_members fuel
          (join (u "," ++ [LF] ++ indent) (map (member_text indent) members)
           ++ [LF] ++ stepback ++ u "}" ++ rest)
          acc
        = Some (JObj (acc ++ map (fun e => (fst e, value_of (snd e))) members),
                rest)).
Proof.
  induction fuel as [|fuel [IHv IHm]].
  { split.
    - intros [s|members] indent rest _ _ H; simpl in H; lia.
    - intros [|[k v] members] acc indent stepback rest Hne _ _ _ _ _ H;
        [done|simpl in H; lia]. }
  split.
  - intros [s|members] indent rest Hi Hd Hw.
    { apply parse_value_string. }
    cbn [distinct_keys] in Hd. apply andb_prop in Hd as [Hk Hd].
    apply distinct_NoDup in Hk.
    cbn [weight] in Hw. apply le_S_n in Hw.
    destruct members as [|m members].
    { done. }
    set (ms := m :: members) in *.
    change (SerializeJSON indent (JObject ms))
      with (u "{" ++ [LF] ++ (indent ++ gap)
            ++ join (u "," ++ [LF] ++ (indent ++ gap))
                 (map (member_text (indent ++ gap)) ms)
            ++ [LF] ++ indent ++ u "}").
    remember (join (u "," ++ [LF] ++ (indent ++ gap))
                (map (member_text (indent ++ gap)) ms)) as body eqn:Eb.
    assert (exists t, body = DQ :: t) as [t Ht].
    { subst body. unfold ms. destruct members; cbn [map join];
        unfold member_text, QuoteJSONString; cbn [app]; eauto. }
    cbn [app u parse_value].
    change (N_of_ascii "{" =? DQ) with false.
    change (N_of_ascii "{" =? ch "{") with true. cbn match.
    rewrite <- (app_assoc (indent ++ gap)), <- (app_assoc body).
    rewrite Ht. cbn [app].
    rewrite (skip_ws_line (indent ++ gap) DQ) by (by try apply blanks_gap).
    change (DQ =? ch "}") with false. cbn match.
    change (DQ :: t ++ LF :: (indent ++ N_of_ascii "}" :: []) ++ rest)
      with ((DQ :: t) ++ [LF] ++ (indent ++ u "}") ++ rest).
    rewrite <- (app_assoc indent).
    rewrite <- Ht, Eb.
    rewrite (IHm ms [] (indent ++ gap) indent rest); try done.
    by apply blanks_gap.
  - intros [|[k v] members] acc indent stepback rest Hne Hi Hs Hnd Hd Hacc Hw;
      [done|]. clear Hne.
    cbn [map fst] in Hnd. apply NoDup_cons in Hnd as [Hk Hnd].
    cbn [forallb snd] in Hd. apply andb_prop in Hd as [Hdv Hd].
    cbn [map list_sum fold_right snd] in Hw.
    set (sep := u "," ++ [LF] ++ indent).
    set (close := [LF] ++ stepback ++ u "}" ++ rest).
    assert (exists tail,
              join sep (map (member_text indent) ((k, v) :: members)) ++ close
              = QuoteJSONString k ++ u ": " ++ SerializeJSON indent v ++ tail
              /\ tail = match members with
                        | [] => close
                        | _ :: _ =>
                            sep ++ join sep (map (member_text indent) members)
                            ++ close
                        end) as (tail & -> & Htail).
    { destruct members as [|m2 members].
      - exists close. split; [|done]. cbn [map join].
        unfold member_text. cbn [fst snd]. by rewrite <- !app_assoc.
      - eexists. split; [|reflexivity].
        change (join sep (map (member_text indent) ((k, v) :: m2 :: members)))
          with (member_text indent (k, v) ++ sep
                ++ join sep (map (member_text indent) (m2 :: members))).
        unfold member_text. cbn [fst snd]. by rewrite <- !app_assoc. }
    unfold QuoteJSONString at 1. cbn [app parse_members].
    rewrite N.eqb_refl. rewrite <- app_assoc. cbn [app].
    rewrite parse_chars_quote.
    change (u ": " ++ SerializeJSON indent v ++ tail)
      with (ch ":" :: 32 :: SerializeJSON indent v ++ tail).
    cbn [skip_ws]. change (json_ws (ch ":")) with false. cbn match.
    rewrite N.eqb_refl.
    destruct (SerializeJSON_head indent v) as (x & t & Hx & Hws).
    assert (skip_ws (32 :: SerializeJSON indent v ++ tail)
            = SerializeJSON indent v ++ tail) as ->.
    { rewrite Hx. cbn [app skip_ws]. change (json_ws 32) with true.
      cbn match. by rewrite Hws. }
    rewrite IHv by (done || lia). cbn zeta.
    rewrite obj_set_absent by (apply Hacc, list_elem_of_here).
    destruct members as [|m2 members].
    + subst tail close.
      change ([LF] ++ stepback ++ u "}" ++ rest)
        with (LF :: stepback ++ ch "}" :: rest).
      rewrite (skip_ws_line stepback (ch "}") rest) by done.
      change (ch "}" =? ch ",") with false. rewrite N.eqb_refl. cbn match.
      done.
    + subst tail sep. cbn [app u]. cbn [skip_ws].
      change (json_ws (N_of_ascii ",")) with false. cbn match.
      change (N_of_ascii "," =? ch ",") with true. cbn match.
      assert (exists t, join (N_of_ascii "," :: LF :: indent)
                          (map (member_text indent) (m2 :: members)) ++ close
                        = DQ :: t) as [t' Ht].
      { destruct members; cbn [map join];
          unfold member_text, QuoteJSONString; cbn [app]; eauto. }
      rewrite Ht, (skip_ws_line indent DQ t') by done. rewrite <- Ht.
      change (N_of_ascii "," :: LF :: indent) with (u "," ++ [LF] ++ indent).
      subst close.
      rewrite (IHm (m2 :: members) (acc ++ [(k, value_of v)])
                 indent stepback rest); try done.
      * by rewrite <- app_assoc.
      * intros k' Hk'. apply own_get_None. unfold own_keys.
        rewrite map_app. cbn [map fst]. intros [H|H]%elem_of_app.
        -- apply own_get_None in H; [done|].
           apply Hacc. by apply list_elem_of_further.
        -- apply list_elem_of_singleton in H. subst k'. done.
      * unfold list_sum. lia.
Qed.

(** * The fuel of [JSON.parse] is enough *)

Lemma skip_ws_length s : (length (skip_ws s) <= length s)%nat.
Proof.
  induction s as [|c s IH]; [done|]. cbn [skip_ws].
  destruct (json_ws c); simpl; lia.
Qed.

Lemma cons_to_Some c r str rest :
  cons_to c r = Some (str, rest) -> exists str', r = Some (str', rest).
Proof. destruct r as [[str' rest']|]; [|done]. intros [= _ ->]. eauto. Qed.

Lemma parse_chars_length s str rest :
  parse_chars s = Some (str, rest) -> (length rest < length s)%nat.
Proof.
  remember (length s) as n eqn:Hn. revert s Hn str rest.
  induction (lt_wf n) as [n _ IH]. intros s -> str rest.
  destruct s as [|c s]; [done|]. cbn [parse_chars].
  destruct (c =? DQ).
  { intros [= _ ->]. simpl. lia. }
  destruct (c =? 92).
  - destruct s as [|e s]; [done|]. destruct (e =? ch "u").
    + destruct s as [|h1 [|h2 [|h3 [|h4 s]]]]; try done.
      destruct (hex4 h1 h2 h3 h4); [|done].
      intros [str' H]%cons_to_Some.
      apply (IH (length s)) in H; simpl; lia || done.
    + destruct (unescape e); [|done].
      intros [str' H]%cons_to_Some.
      apply (IH (length s)) in H; simpl; lia || done.
  - destruct (c <? 32); [done|].
    intros [str' H]%cons_to_Some.
    apply (IH (length s)) in H; simpl; lia || done.
Qed.

Lemma span_digits_length s :
  (length (span_digits s).2 <= length s)%nat.
Proof.
  induction s as [|c s IH]; [done|]. cbn [span_digits].
  destruct (digit c); [|simpl; lia].
  destruct (span_digits s) as [ds rest]. simpl in *. lia.
Qed.

Lemma number_sign_length s :
  (length (number_sign s).2 <= length s)%nat.
Proof.
  destruct s as [|c s]; [done|]. cbn [number_sign].
  destruct (c =? ch "-"); simpl; lia.
Qed.

Lemma number_int_length s lit rest :
  number_int s = Some (lit, rest) -> (length rest < length s)%nat.
Proof.
  destruct s as [|c s]; [done|]. cbn [number_int].
  destruct (digit c); [|done]. destruct (c =? ch "0").
  { intros [= _ ->]. simpl. lia. }
  pose proof (span_digits_length s) as H.
  destruct (span_digits s) as [ds r]. intros [= _ ->]. simpl in *. lia.
Qed.

Lemma number_frac_length s lit rest :
  number_frac s = Some (lit, rest) -> (length rest <= length s)%nat.
Proof.
  destruct s as [|p s]; [by intros [= _ <-]|]. cbn [number_frac].
  destruct (p =? ch "."); [|by intros [= _ <-]].
  pose proof (span_digits_length s) as H.
  destruct (span_digits s) as [[|d ds] r]; [done|].
  intros [= _ ->]. simpl in *. lia.
Qed.

Lemma number_exp_length s lit rest :
  number_exp s = Some (lit, rest) -> (length rest <= length s)%nat.
Proof.
  destruct s as [|e s]; [by intros [= _ <-]|]. cbn [number_exp].
  destruct ((e =? ch "e") || (e =? ch "E")); [|by intros [= _ <-]].
  assert (forall sign t, (length t <= length s)%nat ->
            match span_digits t with
            | ([], _) => None
            | (ds, r) => Some (e :: sign ++ ds, r)
            end = Some (lit, rest) ->
            (length rest <= length (e :: s))%nat) as Ht.
  { intros sign t Hl. pose proof (span_digits_length t) as Hs.
    destruct (span_digits t) as [[|d ds] r]; [done|].
    intros [= _ ->]. simpl in *. lia. }
  destruct s as [|g t].
  - apply (Ht [] []). done.
  - destruct ((g =? ch "+") || (g =? ch "-")).
    + apply (Ht [g] t). simpl. lia.
    + apply (Ht [] (g :: t)). done.
Qed.

Lemma parse_number_length s lit rest :
  parse_number s = Some (lit, rest) -> (length rest < length s)%nat.
Proof.
  unfold parse_number. pose proof (number_sign_length s) as H0.
  destruct (number_sign s) as [sign s1].
  destruct (number_int s1) as [[int s2]|] eqn:E1; [|done].
  destruct (number_frac s2) as [[frac s3]|] eqn:E2; [|done].
  destruct (number_exp s3) as [[exp r]|] eqn:E3; [|done].
  intros [= _ ->].
  apply number_int_length in E1. apply number_frac_length in E2.
  apply number_exp_length in E3. simpl in *. lia.
Qed.

(** A value takes some of the text. *)
Lemma parse_length fuel :
  (forall s v rest,
     parse_value fuel s = Some (v, rest) -> (length rest < length s)%nat)
  /\ (forall s acc v rest,
        parse_members fuel s acc = Some (v, rest) ->
        (length rest < length s)%nat)
  /\ (forall s acc v rest,
        parse_elements fuel s acc = Some (v, rest) ->
        (length rest < length s)%nat).
Proof.
  induction fuel as [|fuel (IHv & IHm & IHe)]; [done|].
  split; [|split].
  - intros [|c s] v rest; [done|]. cbn [parse_value].
    destruct (c =? DQ).
    { destruct (parse_chars s) as [[str r]|] eqn:E; [|done].
      intros [= _ ->]. apply parse_chars_length in E. simpl. lia. }
    pose proof (skip_ws_length s) as Hs.
    destruct (c =? ch "{").
    { destruct (skip_ws s) as [|d s1]; [done|]. destruct (d =? ch "}").
      - intros [= _ ->]. simpl in *. lia.
      - intros H%IHm. simpl in *. lia. }
    destruct (c =? ch "[").
    { destruct (skip_ws s) as [|d s1]; [done|]. destruct (d =? ch "]").
      - intros [= _ ->]. simpl in *. lia.
      - intros H%IHe. simpl in *. lia. }
    destruct (startsWith (c :: s) (u "true")).
    { intros [= _ <-]. rewrite length_skipn. simpl. lia. }
    destruct (startsWith (c :: s) (u "false")).
    { intros [= _ <-]. rewrite length_skipn. simpl. lia. }
    destruct (startsWith (c :: s) (u "null")).
    { intros [= _ <-]. rewrite length_skipn. simpl. lia. }
    destruct (parse_number (c :: s)) as [[lit r]|] eqn:E; [|done].
    intros [= _ ->]. by apply parse_number_length in E.
  - intros [|q s1] acc v rest; [done|]. cbn [parse_members].
    destruct (q =? DQ); [|done].
    destruct (parse_chars s1) as [[key s2]|] eqn:E1; [|done].
    apply parse_chars_length in E1.
    pose proof (skip_ws_length s2) as H2.
    destruct (skip_ws s2) as [|colon s3]; [done|].
    destruct (colon =? ch ":"); [|done].
    pose proof (skip_ws_length s3) as H3.
    destruct (parse_value fuel (skip_ws s3)) as [[v' s4]|] eqn:E4; [|done].
    apply IHv in E4. cbn zeta.
    pose proof (skip_ws_length s4) as H4.
    destruct (skip_ws s4) as [|d s5]; [done|].
    pose proof (skip_ws_length s5) as H5.
    destruct (d =? ch ",").
    { intros H%IHm. simpl in *. lia. }
    destruct (d =? ch "}"); [|done].
    intros [= _ ->]. simpl in *. lia.
  - intros s acc v rest. cbn [parse_elements].
    destruct (parse_value fuel s) as [[v' s1]|] eqn:E1; [|done].
    apply IHv in E1. cbn zeta.
    pose proof (skip_ws_length s1) as H1.
    destruct (skip_ws s1) as [|d s2]; [done|].
    pose proof (skip_ws_length s2) as H2.
    destruct (d =? ch ",").
    { intros H%IHe. simpl in *. lia. }
    destruct (d =? ch "]"); [|done].
    intros [= _ ->]. simpl in *. lia.
Qed.

(** With fuel for twice the text, more fuel changes nothing. *)
Lemma fuel_enough fuel :
  (forall s fuel',
     (2 * length s <= fuel)%nat -> (2 * length s <= fuel')%nat ->
     parse_value fuel s = parse_value fuel' s)
  /\ (forall s acc fuel',
        (2 * length s + 1 <= fuel)%nat -> (2 * length s + 1 <= fuel')%nat ->
        parse_members fuel s acc = parse_members fuel' s acc)
  /\ (forall s acc fuel',
        (2 * length s + 1 <= fuel)%nat -> (2 * length s + 1 <= fuel')%nat ->
        parse_elements fuel s acc = parse_elements fuel' s acc).
Proof.
  induction fuel as [|fuel (IHv & IHm & IHe)].
  { split; [|split; intros; lia].
    intros [|c s] [|fuel'] H H'; simpl in *; done || lia. }
  split; [|split].
  - intros [|c s] [|fuel'] H H'; try done; try (simpl in *; lia).
    cbn [parse_value].
    pose proof (skip_ws_length s) as Hs.
    destruct (skip_ws s) as [|d s1]; [done|].
    rewrite (IHm (d :: s1) [] fuel') by (simpl in *; lia).
    rewrite (IHe (d :: s1) [] fuel') by (simpl in *; lia).
    done.
  - intros [|q s1] acc [|fuel'] H H'; try done; try (simpl in *; lia).
    cbn [parse_members].
    destruct (q =? DQ); [|done].
    destruct (parse_chars s1) as [[key s2]|] eqn:E1; [|done].
    apply parse_chars_length in E1.
    pose proof (skip_ws_length s2) as H2.
    destruct (skip_ws s2) as [|colon s3]; [done|].
    destruct (colon =? ch ":"); [|done].
    pose proof (skip_ws_length s3) as H3.
    rewrite (IHv (skip_ws s3) fuel') by (simpl in *; lia).
    destruct (parse_value fuel' (skip_ws s3)) as [[v' s4]|] eqn:E4; [|done].
    apply (proj1 (parse_length fuel')) in E4. cbn zeta.
    pose proof (skip_ws_length s4) as H4.
    destruct (skip_ws s4) as [|d s5]; [done|].
    pose proof (skip_ws_length s5) as H5.
    rewrite (IHm (skip_ws s5) _ fuel') by (simpl in *; lia).
    done.
  - intros s acc [|fuel'] H H'; try (simpl in *; lia).
    cbn [parse_elements].
    rewrite (IHv s fuel') by (simpl in *; lia).
    destruct (parse_value fuel' s) as [[v' s1]|] eqn:E1; [|done].
    apply (proj1 (parse_length fuel')) in E1. cbn zeta.
    pose proof (skip_ws_length s1) as H1.
    destruct (skip_ws s1) as [|d s2]; [done|].
    pose proof (skip_ws_length s2) as H2.
    rewrite (IHe (skip_ws s2) _ fuel') by (simpl in *; lia).
    done.
Qed.

(** [JSON.parse] with more fuel reads the same value. *)
Lemma JSON_parse_fuel text fuel :
  (2 * length text < fuel)%nat ->
  parse_value fuel (skip_ws text)
  = parse_value (S (2 * length text)) (skip_ws text).
Proof.
  intros H. pose proof (skip_ws_length text) as Hs.
  apply (proj1 (fuel_enough fuel)); lia.
Qed.

(** * The override set *)

Lemma length_join sep l :
  (list_sum (map length l) <= length (join sep l))%nat.
Proof.
  induction l as [|x [|y l] IH]; [done|simpl; lia|].
  change (join sep (x :: y :: l)) with (x ++ sep ++ join sep (y :: l)).
  rewrite !length_app. cbn [map list_sum fold_right] in *. lia.
Qed.

Lemma list_sum_le {A} (f g : A -> nat) l :
  Forall (fun x => (f x <= g x)%nat) l ->
  (list_sum (map f l) <= list_sum (map g l))%nat.
Proof.
  induction 1 as [|x l Hx _ IH]; [done|].
  cbn [map list_sum fold_right] in *. unfold list_sum in IH. lia.
Qed.

Lemma weight_length v indent :
  (weight v <= length (SerializeJSON indent v))%nat.
Proof.
  revert indent. induction v as [s|members IH] using json_induction;
    intros indent.
  { cbn [weight SerializeJSON]. unfold QuoteJSONString.
    rewrite !length_app. simpl. lia. }
  destruct members as [|m members]; [simpl; lia|].
  set (ms := m :: members) in *.
  change (SerializeJSON indent (JObject ms))
    with (u "{" ++ [LF] ++ (indent ++ gap)
          ++ join (u "," ++ [LF] ++ (indent ++ gap))
               (map (member_text (indent ++ gap)) ms)
          ++ [LF] ++ indent ++ u "}").
  cbn [weight]. rewrite !length_app.
  pose proof (length_join (u "," ++ [LF] ++ (indent ++ gap))
                (map (member_text (indent ++ gap)) ms)) as Hj.
  rewrite map_map in Hj.
  assert (list_sum (map (fun e => S (weight (snd e))) ms)
          <= list_sum (map (fun e => length (member_text (indent ++ gap) e))
                         ms))%nat as Hs.
  { apply list_sum_le. eapply Forall_impl; [exact IH|].
    intros e He. cbn beta in He. unfold member_text, QuoteJSONString.
    rewrite !length_app. specialize (He (indent ++ gap)). simpl. lia. }
  remember (join _ _) as body. cbn [length u]. lia.
Qed.

(** [JSON.parse] on a document [JSON.stringify] has laid out, and on
    such a document with more text behind it. *)
Lemma JSON_parse_stringify v rest :
  distinct_keys v = true ->
  JSON_parse (JSON_stringify v ++ rest)
  = match skip_ws rest with
    | [] => Some (value_of v)
    | _ :: _ => None
    end.
Proof.
  intros Hd. unfold JSON_parse, JSON_stringify.
  destruct (SerializeJSON_head [] v) as (x & t & Hx & Hws).
  assert (skip_ws (SerializeJSON [] v ++ rest) = SerializeJSON [] v ++ rest)
    as ->.
  { rewrite Hx. cbn [app skip_ws]. by rewrite Hws. }
  destruct (parse_serialize (S (2 * length (SerializeJSON [] v ++ rest))))
    as [Hv _].
  rewrite Hv; [done|done|done|].
  pose proof (weight_length v []) as Hw. rewrite length_app. lia.
Qed.

Lemma JSON_parse_document v :
  distinct_keys v = true -> JSON_parse (JSON_stringify v) = Some (value_of v).
Proof.
  intros Hd. rewrite <- (app_nil_r (JSON_stringify v)).
  by rewrite JSON_parse_stringify.
Qed.

(** The documents of the dictionaries have no key twice. *)
Lemma fold_obj_set_NoDup {V} (f : jsobject V -> jsstring -> jsobject V)
    keys acc :
  (forall o k, NoDup (own_keys o) -> NoDup (own_keys (f o k))) ->
  NoDup (own_keys acc) -> NoDup (own_keys (fold_left f keys acc)).
Proof.
  intros Hf. revert acc. induction keys as [|k keys IH]; intros acc Ha;
    [done|]. cbn [fold_left]. by apply IH, Hf.
Qed.

Lemma sorted_table_NoDup T : NoDup (own_keys (sorted_table T)).
Proof.
  unfold sorted_table. apply fold_obj_set_NoDup; [|constructor].
  intros o k Ho. destruct (jseqb k (u "__proto__")); [done|].
  by apply obj_set_NoDup.
Qed.

Lemma json_of_table_distinct T :
  NoDup (own_keys T) -> distinct_keys (json_of_table T) = true.
Proof.
  intros Hnd. unfold json_of_table. cbn [distinct_keys].
  rewrite map_map. cbn [fst]. apply andb_true_intro. split.
  - apply distinct_NoDup.
    change (NoDup (own_keys (Object_entries T))). unfold own_keys.
    by rewrite Object_entries_perm.
  - rewrite forallb_forall. by intros e (e' & <- & _)%in_map_iff.
Qed.

Lemma value_of_table T :
  value_of (json_of_table T)
  = JObj (map (fun e => (fst e, JStr (snd e))) (Object_entries T)).
Proof.
  unfold json_of_table. cbn [value_of]. by rewrite map_map.
Qed.

(** X16: every dictionary file the program writes is read back by
    [JSON.parse]: the value is one object whose only key is the
    namespace, over the sorted table with each text under its key. *)
Theorem dictionary_read_back (localeMap : registry) file :
  file ∈ writeLocaleFiles localeMap ->
  exists ns table,
    (ns, table) ∈ localeMap
    /\ fst file = ns ++ u ".json"
    /\ JSON_parse (JSON_stringify (snd file))
       = Some (JObj [(ns, JObj (map (fun e => (fst e, JStr (snd e)))
                                  (Object_entries (sorted_table table))))]).
Proof.
  unfold writeLocaleFiles.
  intros ([ns table] & -> & Hin)%list_elem_of_fmap.
  rewrite Object_entries_perm in Hin.
  exists ns, table. split; [done|]. split; [done|]. cbn [fst snd].
  rewrite JSON_parse_document.
  - cbn [value_of map fst snd]. by rewrite value_of_table.
  - cbn [distinct_keys map fst snd distinct existsb forallb negb andb].
    rewrite json_of_table_distinct; [done|apply sorted_table_NoDup].
Qed.

Lemma Object_keys_single {V} ns (v : V) : Object_keys [(ns, v)] = [ns].
Proof.
  unfold Object_keys, Object_entries. cbn [List.filter fst].
  by destruct (is_array_index ns).
Qed.

Lemma Object_keys_perm {V} (o : jsobject V) : Object_keys o ≡ₚ map fst o.
Proof. unfold Object_keys. by rewrite Object_entries_perm. Qed.

(** X17: from a [common.json] laid out by [JSON.stringify] whose
    objects have no key twice, the loader takes the top-level keys,
    each once and whatever their values, and reports the load. *)
Theorem common_words_of_document members :
  distinct_keys (JObject members) = true ->
  exists words,
    loadCommon (Some (JSON_stringify (JObject members)))
    = (words, log_loaded)
    /\ words ≡ₚ map fst members.
Proof.
  intros Hd. unfold loadCommon. rewrite JSON_parse_document by done.
  cbn [value_of Object_keys_of]. eexists. split; [reflexivity|].
  rewrite Object_keys_perm, map_map. done.
Qed.

(** X18: a dictionary file the program wrote, read as [common.json],
    gives the name of its namespace as the only word of the override
    set, not its texts. *)
Theorem common_words_of_dictionary (localeMap : registry) file :
  file ∈ writeLocaleFiles localeMap ->
  exists ns,
    fst file = ns ++ u ".json"
    /\ loadCommon (Some (JSON_stringify (snd file))) = ([ns], log_loaded).
Proof.
  unfold writeLocaleFiles.
  intros ([ns table] & -> & Hin)%list_elem_of_fmap.
  exists ns. split; [done|]. cbn [fst snd].
  unfold loadCommon. rewrite JSON_parse_document.
  - cbn [value_of map fst snd Object_keys_of].
    by rewrite Object_keys_single.
  - cbn [distinct_keys map fst snd distinct existsb forallb negb andb].
    rewrite json_of_table_distinct; [done|apply sorted_table_NoDup].
Qed.

(** X19: text other than white space behind a document makes the
    load fail: the override set stays empty and the warning is
    printed. *)
Theorem text_after_document v rest :
  distinct_keys v = true -> skip_ws rest <> [] ->
  loadCommon (Some (JSON_stringify v ++ rest)) = ([], warn_load_failed).
Proof.
  intros Hd Hr. unfold loadCommon. rewrite JSON_parse_stringify by done.
  by destruct (skip_ws rest).
Qed.

Lemma skip_ws_all content :
  forallb json_ws content = true -> skip_ws content = [].
Proof.
  induction content as [|c content IH]; [done|]. cbn [forallb skip_ws].
  intros [-> H]%andb_prop. by apply IH.
Qed.

(** X20: a [common.json] that is empty or holds white space only
    makes the load fail: the override set stays empty and the warning
    is printed. *)
Theorem blank_common_file content :
  forallb json_ws content = true ->
  loadCommon (Some content) = ([], warn_load_failed).
Proof.
  intros Hb. unfold loadCommon, JSON_parse. by rewrite skip_ws_all.
Qed.

(** X21: a [common.json] that holds one JSON string loads without a
    warning, and the override set holds the indices of the string's
    code units, in decimal. *)
Theorem common_words_of_string s :
  loadCommon (Some (JSON_stringify (JString s)))
  = (map index_key (seq 0 (length s)), log_loaded).
Proof.
  unfold loadCommon. by rewrite JSON_parse_document.
Qed.

Lemma existsb_perm {A} (f : A -> bool) l l' :
  l ≡ₚ l' -> existsb f l = existsb f l'.
Proof.
  induction 1 as [|x l l' _ IH|x y l|l l' l'' _ IH1 _ IH2]; cbn [existsb].
  - done.
  - by rewrite IH.
  - by rewrite !orb_assoc, (orb_comm (f y)).
  - by rewrite IH1.
Qed.

(** X22: with the override set loaded from a laid-out [common.json],
    a text goes to [common] exactly when it is a top-level key of the
    file, and to the namespace of its file otherwise. *)
Theorem file_decides_namespace members moduleName text :
  distinct_keys (JObject members) = true ->
  targetModule (loadCommon (Some (JSON_stringify (JObject members)))).1
    moduleName text
  = if existsb (jseqb text) (map fst members) then u "common"
    else moduleName.
Proof.
  intros Hd. unfold loadCommon. rewrite JSON_parse_document by done.
  cbn [value_of Object_keys_of fst]. unfold targetModule, commonWords_has.
  by rewrite (existsb_perm _ _ _ (Object_keys_perm _)), map_map.
Qed.

Lemma dictionary_read_back_witness :
  exists ns table,
    (ns, table) ∈ [(u "test", [(zaijian, zaijian); (nihao, nihao)])]
    /\ u "test.json" = ns ++ u ".json"
    /\ JSON_parse
         (JSON_stringify
            (JObject
               [(u "test",
                 json_of_table
                   (sorted_table [(zaijian, zaijian); (nihao, nihao)]))]))
       = Some (JObj [(ns, JObj (map (fun e => (fst e, JStr (snd e)))
                                  (Object_entries (sorted_table table))))]).
Proof.
  refine (dictionary_read_back
            [(u "test", [(zaijian, zaijian); (nihao, nihao)])]
            (u "test.json",
             JObject
               [(u "test",
                 json_of_table
                   (sorted_table [(zaijian, zaijian); (nihao, nihao)]))])
            _).
  apply list_elem_of_here.
Defined.

Lemma common_words_of_document_witness :
  exists words,
    loadCommon
      (Some (JSON_stringify
               (JObject [(nihao, JString nihao); (zaijian, JObject [])])))
    = (words, log_loaded)
    /\ words ≡ₚ [nihao; zaijian].
Proof.
  exact (common_words_of_document
           [(nihao, JString nihao); (zaijian, JObject [])] eq_refl).
Defined.

Lemma common_words_of_dictionary_witness :
  exists ns,
    u "common.json" = ns ++ u ".json"
    /\ loadCommon
         (Some (JSON_stringify
                  (JObject
                     [(u "common",
                       json_of_table (sorted_table [(nihao, nihao)]))])))
       = ([ns], log_loaded).
Proof.
  refine (common_words_of_dictionary
            [(u "common", [(nihao, nihao)])]
            (u "common.json",
             JObject
               [(u "common", json_of_table (sorted_table [(nihao, nihao)]))])
            _).
  apply list_elem_of_here.
Defined.

Lemma text_after_document_witness :
  loadCommon
    (Some (JSON_stringify (document [nihao])
           ++ JSON_stringify (document [zaijian])))
  = ([], warn_load_failed).
Proof.
  refine (text_after_document (document [nihao])
            (JSON_stringify (document [zaijian])) eq_refl _).
  vm_compute. discriminate.
Defined.

Lemma blank_common_file_witness :
  loadCommon (Some [LF]) = ([], warn_load_failed).
Proof. exact (blank_common_file [LF] eq_refl). Defined.

Lemma file_decides_namespace_witness :
  targetModule
    (loadCommon (Some (JSON_stringify (document [queding; nihao])))).1
    (u "test") nihao
  = u "common".
Proof.
  exact (file_decides_namespace
           [(queding, JString queding); (nihao, JString nihao)]
           (u "test") nihao eq_refl).
Defined.
